(** * sysbench: the random-number module [sb_rand.c]

    A shallow embedding of [src/sysbench/sb_rand.c] and the properties its
    specification states about it.

    Conventions of the model.
    - C's [uint32_t] and [unsigned long long] values are integers of [Z] with
      the wrap-around of every operation written out ([wrap32], [wrap64]).
    - C's [double] is IEEE-754 binary64 with round-to-nearest-even, through the
      Standard Library's executable specification [SpecFloat] at precision 53
      and maximal exponent 1024; every double operation of the source is one
      rounded operation of the model, in the order the source evaluates it.
    - A conversion from [double] to [uint32_t] discards the fractional part and
      is undefined when the integral part does not fit: the model returns
      [None] there, and so does every function that reaches one.
    - Bounds on rounded results are proved through the real numbers the
      doubles stand for ([val]); the model itself never computes with reals.
      Only the specification's formula of the special distribution, which the
      source is compared with, is stated over them.
    - What [sb_rand.c] takes from elsewhere is an interface: the per-thread
      generator behind [sb_rand_uniform_double] (declared in [sb_rand.h]),
      libc's [random] and libm's [log] and [pow]. *)

From Stdlib Require Import ZArith Lia List Bool String Ascii.
From Stdlib Require Import Floats.SpecFloat.
From Stdlib Require Import Reals Lra.
From stdpp Require Import base list.

Local Open Scope Z_scope.

(** ** Machine integers *)

Module Word.

Definition wrap32 (z : Z) : Z := z mod 2 ^ 32.
Definition wrap64 (z : Z) : Z := z mod 2 ^ 64.

(** [UINT32_MAX] of <stdint.h>. *)
Definition UINT32_MAX : Z := 4294967295.

End Word.
Import Word.

(** ** Binary64 *)

Module Double.

Definition prec : Z := 53.
Definition emax : Z := 1024.

Definition double : Type := spec_float.

(** The double nearest to [m * 2^e]. *)
Definition of_dyadic (m e : Z) : double := binary_normalize prec emax m e false.

(** Conversion of an integer value (exact below 2^53). *)
Definition of_int (n : Z) : double := of_dyadic n 0.

Definition zero : double := S754_zero false.
Definition one : double := of_int 1.
Definition two : double := of_int 2.

Definition add : double -> double -> double := SFadd prec emax.
Definition sub : double -> double -> double := SFsub prec emax.
Definition mul : double -> double -> double := SFmul prec emax.
Definition div : double -> double -> double := SFdiv prec emax.
Definition ltb : double -> double -> bool := SFltb.
Definition leb : double -> double -> bool := SFleb.

(** A well-formed binary64 datum. *)
Definition valid (x : double) : bool := valid_binary prec emax x.

(** The integral part of a finite double, fraction discarded (toward zero). *)
Definition integral_part (x : double) : option Z :=
  match x with
  | S754_zero _ => Some 0
  | S754_finite s m e => Some (cond_Zopp s (Z.shiftl (Z.pos m) e))
  | S754_infinity _ | S754_nan => None
  end.

(** The greatest integer not above a finite double. *)
Definition floor (x : double) : option Z :=
  match x with
  | S754_zero _ => Some 0
  | S754_finite s m e => Some (Z.shiftl (cond_Zopp s (Z.pos m)) e)
  | S754_infinity _ | S754_nan => None
  end.

(** C's conversion [(uint32_t) x]: defined when the integral part fits. *)
Definition to_uint32 (x : double) : option Z :=
  match integral_part x with
  | Some k => if (0 <=? k) && (k <? 2 ^ 32) then Some k else None
  | None => None
  end.

(** A double of the interval [0, 1). *)
Definition in_unit_interval (u : double) : bool :=
  valid u && leb zero u && ltb u one.

End Double.
Import Double.

(** ** What the module takes from elsewhere *)

(** The calling thread's generator, [sb_rand_uniform_double] of [sb_rand.h]:
    one step yields a double and the next state. *)
Class BitGenerator (G : Type) : Type :=
  { sb_rand_uniform_double : G -> double * G }.

(** libm. *)
Class Libm : Type :=
  { libm_log : double -> double;
    libm_pow : double -> double -> double }.

(** libc's process-wide generator: [srandom] sets its state, [random] steps
    it. [sb_rand.c] itself calls [random] only. *)
Class Libc (L : Type) : Type :=
  { libc_srandom : Z -> L;
    libc_random : L -> Z * L }.

(** The option values [sb_get_value_int], [sb_get_value_string] and
    [sb_get_value_float] return for the options of [rand_args]. *)
Record options : Type := Build_options
  { opt_rand_type : string;
    opt_rand_spec_iter : Z;
    opt_rand_spec_pct : Z;
    opt_rand_spec_res : Z;
    opt_rand_seed : Z;
    opt_rand_pareto_h : double }.

(** ** The module's static variables *)

Inductive rand_dist_t : Type :=
  | DIST_TYPE_UNIFORM
  | DIST_TYPE_GAUSSIAN
  | DIST_TYPE_SPECIAL
  | DIST_TYPE_PARETO.

(** The functions [rand_func] can point to. *)
Inductive rand_func_t : Type :=
  | Ptr_sb_rand_uniform
  | Ptr_sb_rand_gaussian
  | Ptr_sb_rand_special
  | Ptr_sb_rand_pareto.

Record statics : Type := Build_statics
  { sb_rand_seed : Z;
    rand_type : rand_dist_t;
    rand_func : option rand_func_t;   (* [None] is the null pointer *)
    rand_iter : Z;
    rand_pct : Z;
    rand_res : Z;
    rand_iter_mult : double;
    rand_pct_mult : double;
    rand_pct_2_mult : double;
    rand_res_mult : double;
    pareto_h : double;
    pareto_power : double;
    rnd_seed : Z;
    rnd_mutex_initialized : bool }.

(** Static storage before [sb_rand_init]: all zero. *)
Definition statics_zero : statics :=
  {| sb_rand_seed := 0;
     rand_type := DIST_TYPE_UNIFORM;
     rand_func := None;
     rand_iter := 0;
     rand_pct := 0;
     rand_res := 0;
     rand_iter_mult := zero;
     rand_pct_mult := zero;
     rand_pct_2_mult := zero;
     rand_res_mult := zero;
     pareto_h := zero;
     pareto_power := zero;
     rnd_seed := 0;
     rnd_mutex_initialized := false |}.

(** Large prime number to generate unique random IDs. *)
Definition LARGE_PRIME : Z := 2147483647.

(** ** Computations over the calling thread's generator

    A computation reads and advances the generator state and either returns
    a value or is undefined. *)

Definition Gen (G A : Type) : Type := G -> option (A * G).

Definition ret {G A : Type} (x : A) : Gen G A := fun g => Some (x, g).

Definition bind {G A B : Type} (m : Gen G A) (k : A -> Gen G B) : Gen G B :=
  fun g => match m g with
           | Some (x, g') => k x g'
           | None => None
           end.

Definition undefined {G A : Type} : Gen G A := fun _ => None.

Notation "x <~ m ; k" := (bind m (fun x => k))
  (at level 20, m at level 100, k at level 200, only parsing).

(** One call of [sb_rand_uniform_double]. *)
Definition draw {G : Type} `{BitGenerator G} : Gen G double :=
  fun g => Some (sb_rand_uniform_double g).

(** The conversion of a double to [uint32_t]. *)
Definition cast_uint32 {G : Type} (x : double) : Gen G Z :=
  match to_uint32 x with
  | Some k => ret k
  | None => undefined
  end.

(** The first [n] draws from a state, in order, and the state after them. *)
Fixpoint draws {G : Type} `{BitGenerator G} (n : nat) (g : G) : list double * G :=
  match n with
  | O => ([], g)
  | S n' =>
      let (u, g1) := sb_rand_uniform_double g in
      let (us, g2) := draws n' g1 in
      (u :: us, g2)
  end.

(** ** The distributions *)

Section Distributions.

Context {G : Type} `{BitGenerator G} `{Libm}.

(** [sb_rand_uniform]: the sum is a double sum, converted on return. *)
Definition sb_rand_uniform (a b : Z) : Gen G Z :=
  u <~ draw ;
  cast_uint32 (add (of_int a) (mul u (of_int (wrap32 (b - a + 1))))).

(** The loop of [sb_rand_gaussian]: [sum += sb_rand_uniform_double() * t]. *)
Fixpoint gaussian_loop (n : nat) (t sum : double) : Gen G double :=
  match n with
  | O => ret sum
  | S n' => u <~ draw ; gaussian_loop n' t (add sum (mul u t))
  end.

Definition sb_rand_gaussian (st : statics) (a b : Z) : Gen G Z :=
  let t := of_int (wrap32 (b - a + 1)) in
  sum <~ gaussian_loop (Z.to_nat (rand_iter st)) t zero ;
  k <~ cast_uint32 (mul sum (rand_iter_mult st)) ;
  ret (wrap32 (a + k)).

(** The loop of the first branch of [sb_rand_special]:
    [sum += sb_rand_uniform_double()]. *)
Fixpoint special_loop (n : nat) (sum : double) : Gen G double :=
  match n with
  | O => ret sum
  | S n' => u <~ draw ; special_loop n' (add sum u)
  end.

Definition sb_rand_special (st : statics) (a b : Z) : Gen G Z :=
  let t := of_int (wrap32 (b - a)) in
  let range_size := mul t (rand_res_mult st) in
  rnd <~ draw ;
  let res := mul rnd range_size in
  if ltb res t then
    sum <~ special_loop (Z.to_nat (rand_iter st)) zero ;
    cast_uint32 (add (of_int a) (mul (mul sum t) (rand_iter_mult st)))
  else
    let d := mul t (rand_pct_mult st) in
    let res := mul rnd (add d one) in
    let res := add res (sub (div t two) (mul t (rand_pct_2_mult st))) in
    k <~ cast_uint32 res ;
    ret (wrap32 (a + k)).

Definition sb_rand_pareto (st : statics) (a b : Z) : Gen G Z :=
  u <~ draw ;
  k <~ cast_uint32 (mul (of_int (wrap32 (b - a + 1)))
                        (libm_pow u (pareto_power st))) ;
  ret (wrap32 (a + k)).

(** A call through the pointer [rand_func]. *)
Definition call_rand_func (f : rand_func_t) (st : statics) (a b : Z) : Gen G Z :=
  match f with
  | Ptr_sb_rand_uniform => sb_rand_uniform a b
  | Ptr_sb_rand_gaussian => sb_rand_gaussian st a b
  | Ptr_sb_rand_special => sb_rand_special st a b
  | Ptr_sb_rand_pareto => sb_rand_pareto st a b
  end.

Definition sb_rand_default (st : statics) (a b : Z) : Gen G Z :=
  match rand_func st with
  | Some f => call_rand_func f st a b
  | None => undefined
  end.

(** [char] values as the [uint32_t] arguments of [sb_rand_uniform], and the
    conversion of its result back to [char] on the store to [buf]. *)
Definition uint32_of_char (c : ascii) : Z := Z.of_N (N_of_ascii c).
Definition char_of_uint32 (v : Z) : ascii := ascii_of_N (Z.to_N (v mod 256)).

(** [buf[i] = c]: a store outside the buffer is undefined. *)
Definition store (i : nat) (c : ascii) (buf : list ascii) : Gen G (list ascii) :=
  if decide (i < length buf)%nat then ret (<[i := c]> buf) else undefined.

(** The loop of [sb_rand_str] from index [i] on, [fmt] being the template from
    that index: it stops at the terminating null character. *)
Fixpoint sb_rand_str_from (i : nat) (fmt : string) (buf : list ascii)
  : Gen G (list ascii) :=
  match fmt with
  | EmptyString => ret buf
  | String c rest =>
      if Ascii.eqb c Ascii.zero then ret buf
      else
        ch <~ (if Ascii.eqb c "#" then
                 v <~ sb_rand_uniform (uint32_of_char "0") (uint32_of_char "9") ;
                 ret (char_of_uint32 v)
               else if Ascii.eqb c "@" then
                 v <~ sb_rand_uniform (uint32_of_char "a") (uint32_of_char "z") ;
                 ret (char_of_uint32 v)
               else ret c) ;
        buf' <~ store i ch buf ;
        sb_rand_str_from (S i) rest buf'
  end.

Definition sb_rand_str (fmt : string) (buf : list ascii) : Gen G (list ascii) :=
  sb_rand_str_from 0 fmt buf.

(** [strlen]. *)
Fixpoint strlen (fmt : string) : nat :=
  match fmt with
  | EmptyString => O
  | String c rest => if Ascii.eqb c Ascii.zero then O else S (strlen rest)
  end.

End Distributions.

(** ** The unique-id counter

    [sb_rand_uniq] reads and advances [rnd_seed] between locking and unlocking
    [rnd_mutex]; the model performs the critical section in one step. The
    remainder by zero, when [b - a + 1] wraps to 0, is undefined. *)

Definition set_rnd_seed (v : Z) (st : statics) : statics :=
  {| sb_rand_seed := sb_rand_seed st;
     rand_type := rand_type st;
     rand_func := rand_func st;
     rand_iter := rand_iter st;
     rand_pct := rand_pct st;
     rand_res := rand_res st;
     rand_iter_mult := rand_iter_mult st;
     rand_pct_mult := rand_pct_mult st;
     rand_pct_2_mult := rand_pct_2_mult st;
     rand_res_mult := rand_res_mult st;
     pareto_h := pareto_h st;
     pareto_power := pareto_power st;
     rnd_seed := v;
     rnd_mutex_initialized := rnd_mutex_initialized st |}.

Definition sb_rand_uniq (a b : Z) (st : statics) : option (Z * statics) :=
  let n := wrap32 (b - a + 1) in
  if n =? 0 then None
  else
    let res := wrap32 (rnd_seed st mod n) in
    Some (wrap32 (res + a), set_rnd_seed (wrap64 (rnd_seed st + LARGE_PRIME)) st).

(** ** Seeding a thread's generator *)

(** [sb_rng_state_t]: two 64-bit words. *)
Definition sb_rng_state_t : Type := (Z * Z)%type.

(** [((uint64_t) random()) % UINT32_MAX]. *)
Definition seed_half (r : Z) : Z := wrap64 r mod UINT32_MAX.

(** [(hi << 32) | lo] on 64-bit words. *)
Definition seed_word (r_hi r_lo : Z) : Z :=
  Z.lor (wrap64 (Z.shiftl (seed_half r_hi) 32)) (seed_half r_lo).

(** [sb_rand_thread_init]: four calls of [random], in the order of the text. *)
Definition sb_rand_thread_init {L : Type} `{Libc L} (l : L) : sb_rng_state_t * L :=
  let (r1, l1) := libc_random l in
  let (r2, l2) := libc_random l1 in
  let (r3, l3) := libc_random l2 in
  let (r4, l4) := libc_random l3 in
  ((seed_word r1 r2, seed_word r3 r4), l4).

(** ** The process: statics, thread-local generator states, libc, the log *)

Inductive log_msg_priority_t : Type := LOG_FATAL.

Record world (L : Type) : Type := Build_world
  { w_statics : statics;
    sb_rng_state : nat -> sb_rng_state_t;   (* per thread *)
    w_libc : L;
    w_log : list (log_msg_priority_t * string) }.

Arguments Build_world {L} _ _ _ _.
Arguments w_statics {L} _.
Arguments sb_rng_state {L} _ _.
Arguments w_libc {L} _.
Arguments w_log {L} _.

(** The process at start-up: zeroed statics and thread-local storage. *)
Definition world_start {L : Type} (l : L) : world L :=
  {| w_statics := statics_zero;
     sb_rng_state := fun _ => (0, 0);
     w_libc := l;
     w_log := [] |}.

Definition set_thread_state (tid : nat) (g : sb_rng_state_t)
  (f : nat -> sb_rng_state_t) : nat -> sb_rng_state_t :=
  fun t => if Nat.eqb t tid then g else f t.

Definition set_sb_rand_seed (v : Z) (st : statics) : statics :=
  {| sb_rand_seed := v;
     rand_type := rand_type st;
     rand_func := rand_func st;
     rand_iter := rand_iter st;
     rand_pct := rand_pct st;
     rand_res := rand_res st;
     rand_iter_mult := rand_iter_mult st;
     rand_pct_mult := rand_pct_mult st;
     rand_pct_2_mult := rand_pct_2_mult st;
     rand_res_mult := rand_res_mult st;
     pareto_h := pareto_h st;
     pareto_power := pareto_power st;
     rnd_seed := rnd_seed st;
     rnd_mutex_initialized := rnd_mutex_initialized st |}.

(** The message of [log_text] on an unknown distribution name. *)
Definition invalid_distribution_message (s : string) : string :=
  ("Invalid random numbers distribution: " ++ s ++ ".")%string.

(** The chain of [strcmp] tests of [sb_rand_init]. *)
Definition select_rand_type (s : string) : option (rand_dist_t * rand_func_t) :=
  if String.eqb s "uniform" then Some (DIST_TYPE_UNIFORM, Ptr_sb_rand_uniform)
  else if String.eqb s "gaussian" then Some (DIST_TYPE_GAUSSIAN, Ptr_sb_rand_gaussian)
  else if String.eqb s "special" then Some (DIST_TYPE_SPECIAL, Ptr_sb_rand_special)
  else if String.eqb s "pareto" then Some (DIST_TYPE_PARETO, Ptr_sb_rand_pareto)
  else None.

(** The statics [sb_rand_init] leaves when the distribution is recognised. *)
Definition configure `{Libm} (o : options) (ty : rand_dist_t) (f : rand_func_t)
  : statics :=
  let iter := wrap32 (opt_rand_spec_iter o) in
  let pct := wrap32 (opt_rand_spec_pct o) in
  let res := wrap32 (opt_rand_spec_res o) in
  let h := opt_rand_pareto_h o in
  {| sb_rand_seed := opt_rand_seed o;
     rand_type := ty;
     rand_func := Some f;
     rand_iter := iter;
     rand_pct := pct;
     rand_res := res;
     rand_iter_mult := div one (of_int iter);
     rand_pct_mult := div (of_int pct) (of_int 100);
     rand_pct_2_mult := div (of_int pct) (of_int 200);
     rand_res_mult := div (of_int 100) (sub (of_int 100) (of_int res));
     pareto_h := h;
     pareto_power := div (libm_log h) (libm_log (sub one h));
     rnd_seed := LARGE_PRIME;
     rnd_mutex_initialized := true |}.

(** The thread-level [sb_rand_thread_init] of thread [tid]. *)
Definition thread_init {L : Type} `{Libc L} (tid : nat) (w : world L) : world L :=
  let (g, l) := sb_rand_thread_init (w_libc w) in
  {| w_statics := w_statics w;
     sb_rng_state := set_thread_state tid g (sb_rng_state w);
     w_libc := l;
     w_log := w_log w |}.

(** [sb_rand_init], called by thread [tid]: the return value and the process
    after the call. *)
Definition sb_rand_init {L : Type} `{Libc L} `{Libm} (o : options) (tid : nat)
  (w : world L) : Z * world L :=
  let s := opt_rand_type o in
  match select_rand_type s with
  | None =>
      (1, {| w_statics := set_sb_rand_seed (opt_rand_seed o) (w_statics w);
             sb_rng_state := sb_rng_state w;
             w_libc := w_libc w;
             w_log := w_log w ++
               [(LOG_FATAL, invalid_distribution_message s)] |})
  | Some (ty, f) =>
      (0, thread_init tid
            {| w_statics := configure o ty f;
               sb_rng_state := sb_rng_state w;
               w_libc := w_libc w;
               w_log := w_log w |})
  end.

(** ** Executions: a sequence of calls into the module *)

Inductive call : Type :=
  | Call_seed_entropy
  | Call_init (tid : nat)
  | Call_thread_init (tid : nat)
  | Call_default (tid : nat) (a b : Z)
  | Call_uniform (tid : nat) (a b : Z)
  | Call_gaussian (tid : nat) (a b : Z)
  | Call_special (tid : nat) (a b : Z)
  | Call_pareto (tid : nat) (a b : Z)
  | Call_uniq (a b : Z)
  | Call_str (tid : nat) (fmt : string) (buf : list ascii).

Inductive outcome : Type :=
  | Out_void
  | Out_int (rc : Z)
  | Out_uint32 (v : Z)
  | Out_buffer (buf : list ascii)
  | Out_undefined.

Section Executions.

Context {L : Type} `{Libc L} `{Libm} `{BitGenerator sb_rng_state_t}.

(** A computation of thread [tid], run on that thread's generator state. *)
Definition on_thread {A : Type} (tid : nat) (m : Gen sb_rng_state_t A)
  (w : world L) : option (A * world L) :=
  match m (sb_rng_state w tid) with
  | Some (x, g) =>
      Some (x, {| w_statics := w_statics w;
                  sb_rng_state := set_thread_state tid g (sb_rng_state w);
                  w_libc := w_libc w;
                  w_log := w_log w |})
  | None => None
  end.

(** Modelled from the spec: the seeding of the system entropy source, which
    [sb_rand.c] leaves to the program's start-up code (it only stores the
    option in [sb_rand_seed]); missing here is that caller. The spec's words:
    "rand-seed: optional fixed seed; 0 means use current time as the entropy
    source". *)
Definition seed_entropy_source (o : options) (now : Z) (w : world L) : world L :=
  {| w_statics := w_statics w;
     sb_rng_state := sb_rng_state w;
     w_libc := libc_srandom (if opt_rand_seed o =? 0 then now else opt_rand_seed o);
     w_log := w_log w |}.

(** One call, in a process configured by the options [o] and running at
    time [now]: its outcome and the process after it, or nothing when its
    behaviour is undefined. *)
Definition exec (o : options) (now : Z) (c : call) (w : world L)
  : option (outcome * world L) :=
  let value (r : option (Z * world L)) :=
    match r with
    | Some (v, w') => Some (Out_uint32 v, w')
    | None => None
    end in
  match c with
  | Call_seed_entropy => Some (Out_void, seed_entropy_source o now w)
  | Call_init tid =>
      let (rc, w') := sb_rand_init o tid w in Some (Out_int rc, w')
  | Call_thread_init tid => Some (Out_void, thread_init tid w)
  | Call_default tid a b => value (on_thread tid (sb_rand_default (w_statics w) a b) w)
  | Call_uniform tid a b => value (on_thread tid (sb_rand_uniform a b) w)
  | Call_gaussian tid a b => value (on_thread tid (sb_rand_gaussian (w_statics w) a b) w)
  | Call_special tid a b => value (on_thread tid (sb_rand_special (w_statics w) a b) w)
  | Call_pareto tid a b => value (on_thread tid (sb_rand_pareto (w_statics w) a b) w)
  | Call_uniq a b =>
      match sb_rand_uniq a b (w_statics w) with
      | Some (v, st) =>
          Some (Out_uint32 v,
                {| w_statics := st;
                   sb_rng_state := sb_rng_state w;
                   w_libc := w_libc w;
                   w_log := w_log w |})
      | None => None
      end
  | Call_str tid fmt buf =>
      match on_thread tid (sb_rand_str fmt buf) w with
      | Some (buf', w') => Some (Out_buffer buf', w')
      | None => None
      end
  end.

(** The outcomes of a sequence of calls and the process after them; the
    sequence ends at a call whose behaviour is undefined. *)
Fixpoint run (o : options) (now : Z) (cs : list call) (w : world L)
  : list outcome * world L :=
  match cs with
  | [] => ([], w)
  | c :: cs' =>
      match exec o now c w with
      | Some (out, w') => let (outs, w'') := run o now cs' w' in (out :: outs, w'')
      | None => ([Out_undefined], w)
      end
  end.

End Executions.

(** ** What two executions agree on *)

(** What two processes share: the state of libc's generator, the statics of
    [sb_rand.c], and the generator states of the threads of [agree_thread]. *)
Record agreement : Type := Build_agreement
  { agree_libc : bool;
    agree_statics : bool;
    agree_thread : nat -> bool }.



(** What two executions with a fixed seed share after a call.  The seeding
    of the entropy source sets libc's generator; a successful [sb_rand_init]
    writes every static; [sb_rand_init] and [sb_rand_thread_init] overwrite
    the generator state of the calling thread with values of [random], which
    are shared when libc's generator is. *)
Definition after_call (o : options) (c : call) (K : agreement) : agreement :=
  let seed_thread (tid : nat) :=
    fun t => if Nat.eqb t tid then agree_libc K else agree_thread K t in
  match c with
  | Call_seed_entropy =>
      {| agree_libc := true;
         agree_statics := agree_statics K;
         agree_thread := agree_thread K |}
  | Call_init tid =>
      match select_rand_type (opt_rand_type o) with
      | Some _ =>
          {| agree_libc := agree_libc K;
             agree_statics := true;
             agree_thread := seed_thread tid |}
      | None => K
      end
  | Call_thread_init tid =>
      {| agree_libc := agree_libc K;
         agree_statics := agree_statics K;
         agree_thread := seed_thread tid |}
  | _ => K
  end.

(** Whether a call reads only what is shared: the distribution functions
    read the generator state of the calling thread, all but
    [sb_rand_uniform] read the statics, [sb_rand_uniq] reads the statics, and
    [sb_rand_str] the generator state. *)
Definition reads_agreed (c : call) (K : agreement) : bool :=
  match c with
  | Call_seed_entropy | Call_init _ | Call_thread_init _ => true
  | Call_uniform tid _ _ | Call_str tid _ _ => agree_thread K tid
  | Call_default tid _ _ | Call_gaussian tid _ _
  | Call_special tid _ _ | Call_pareto tid _ _ =>
      agree_statics K && agree_thread K tid
  | Call_uniq _ _ => agree_statics K
  end.

Fixpoint calls_agreed (o : options) (cs : list call) (K : agreement) : bool :=
  match cs with
  | [] => true
  | c :: cs' => reads_agreed c K && calls_agreed o cs' (after_call o c K)
  end.


(** ** Auxiliary readings used in the statements *)

(** The first [n] values of [random] from a state, in order, and the state
    after them. *)
Fixpoint randoms {L : Type} `{Libc L} (n : nat) (l : L) : list Z * L :=
  match n with
  | O => ([], l)
  | S n' =>
      let (r, l1) := libc_random l in
      let (rs, l2) := randoms n' l1 in
      (r :: rs, l2)
  end.

(** The number of draws a template asks for: one per ['#'] and ['@'] before
    the terminating null character. *)
Fixpoint placeholders (fmt : string) : nat :=
  match fmt with
  | EmptyString => O
  | String c rest =>
      if Ascii.eqb c Ascii.zero then O
      else ((if Ascii.eqb c "#" || Ascii.eqb c "@" then 1 else 0)
            + placeholders rest)%nat
  end.

(** The expression of the second branch of [sb_rand_special], as the source
    computes it: [res = rnd * (t * rand_pct_mult + 1)] followed by
    [res += t / 2 - t * rand_pct_2_mult], with [t = b - a] a [uint32_t], the two
    constants of [sb_rand_init], one rounding per operation and the difference
    [t / 2 - t * rand_pct_2_mult] computed before it is added. *)
Definition special_offset (st : statics) (a b : Z) (rnd : double) : double :=
  let width := of_int (wrap32 (b - a)) in
  let center := div width two in
  add (mul rnd (add (mul width (rand_pct_mult st)) one))
      (sub center (mul width (rand_pct_2_mult st))).

(** The remapping formula in the specification's words, over the real
    numbers: [center = (b-a)/2] and
    [offset = rnd*((b-a)*P/100 + 1) + center - (b-a)*P/200]. *)
Definition spec_special_offset (a b P : Z) (rnd : R) : R :=
  let center := (IZR (b - a) / 2)%R in
  (rnd * (IZR (b - a) * IZR P / 100 + 1) + center - IZR (b - a) * IZR P / 200)%R.

(** The same formula read as a C expression on doubles, evaluated in the
    order in which the specification writes it: the products [(b-a)*P] are
    divided by 100 and by 200, and [center] is added before the last term is
    subtracted. *)
Definition spec_special_offset_double (a b P : Z) (rnd : double) : double :=
  let width := of_int (b - a) in
  let center := div width two in
  sub (add (mul rnd (add (div (mul width (of_int P)) (of_int 100)) one)) center)
      (div (mul width (of_int P)) (of_int 200)).

(** ** Scripted environments, to run the model on given values *)

(** A generator that replays a list of doubles, then zeros. *)
#[export] Instance scripted_generator : BitGenerator (list double) :=
  {| sb_rand_uniform_double g :=
       match g with
       | [] => (zero, [])
       | u :: g' => (u, g')
       end |}.

(** A libc whose [random] replays a list of values, then zeros; [srandom]
    starts the replay of one value. *)
#[export] Instance scripted_libc : Libc (list Z) :=
  {| libc_srandom seed := [seed];
     libc_random l :=
       match l with
       | [] => (0, [])
       | r :: l' => (r, l')
       end |}.

(** A stand-in for the generator of [sb_rand.h] on two-word states, to run
    whole executions: the double is made of the top 52 bits of the sum of
    the two words, and the words are advanced by a fixed step. *)
#[export] Instance standin_generator : BitGenerator sb_rng_state_t :=
  {| sb_rand_uniform_double g :=
       (of_dyadic (wrap64 (fst g + snd g) / 2 ^ 12) (-52),
        (snd g, wrap64 (fst g + LARGE_PRIME))) |}.

(** 1 - 2^-52, the greatest multiple of 2^-52 below 1. *)
Definition u_max : double := of_dyadic (2 ^ 52 - 1) (-52).

(** 1/2 - 2^-52, the greatest multiple of 2^-52 below 1/2. *)
Definition below_half : double := of_dyadic (2 ^ 51 - 1) (-52).

(** A libm given by a table of the values the examples below use.
    - Fixed by the C standard (Annex F): [log(1) = +0], and
      [pow(x, -inf) = +inf] for [|x| < 1].
    - [pow(x, 1) = x].
    - Logarithms, correctly rounded: of 1/2 ([-0x1.62e42fefa39efp-1]), of
      2^-60 ([-0x1.4cb5ecf0a9650p+5]), of the double 0.9
      ([-0x1.af8e8210a415cp-4]) and of the double 1 - 0.9
      ([-0x1.26bb1bbb55516p+1]).
    - [pow(1 - 2^-52, y) = 1] at [y = 0x1.76d869b02a02ep-5], the quotient of
      the last two logarithms: the power is 1 - y * 2^-52 up to 2^-104, less
      than a quarter of the gap below 1 away from 1.
    Elsewhere the table answers NaN. *)
Definition ln_half : double := S754_finite true 6243314768165359 (-53).
Definition ln_2_pow_minus_60 : double := S754_finite true 5853107595155024 (-47).
Definition h_09 : double := div (of_int 9) (of_int 10).
Definition ln_09 : double := S754_finite true 7592025264898396 (-56).
Definition ln_1_minus_09 : double := S754_finite true 5184960683398422 (-51).
Definition power_09 : double := S754_finite false 6594349358030894 (-57).

#[export] Instance tabulated_libm : Libm :=
  {| libm_log x :=
       if SFeqb x one then zero
       else if SFeqb x (of_dyadic 1 (-1)) then ln_half
       else if SFeqb x (of_dyadic 1 (-60)) then ln_2_pow_minus_60
       else if SFeqb x h_09 then ln_09
       else if SFeqb x (sub one h_09) then ln_1_minus_09
       else S754_nan;
     libm_pow x y :=
       if SFeqb y one then x
       else if SFltb (SFabs x) one && SFeqb y (S754_infinity true)
            then S754_infinity false
       else if SFeqb x u_max && SFeqb y power_09 then one
       else S754_nan |}.

(** The defaults of [rand_args], with [rand-pareto-h] at 1/2 (where the
    table knows the logarithm) instead of 0.2. *)
Definition options_default : options :=
  {| opt_rand_type := "special";
     opt_rand_spec_iter := 12;
     opt_rand_spec_pct := 1;
     opt_rand_spec_res := 75;
     opt_rand_seed := 0;
     opt_rand_pareto_h := of_dyadic 1 (-1) |}.

Definition statics_default : statics :=
  configure options_default DIST_TYPE_SPECIAL Ptr_sb_rand_special.

(** The Pareto distribution selected, with shape parameter [h]. *)
Definition options_pareto (h : double) : options :=
  {| opt_rand_type := "pareto";
     opt_rand_spec_iter := 12;
     opt_rand_spec_pct := 1;
     opt_rand_spec_res := 75;
     opt_rand_seed := 0;
     opt_rand_pareto_h := h |}.

Definition statics_pareto (h : double) : statics :=
  configure (options_pareto h) DIST_TYPE_PARETO Ptr_sb_rand_pareto.

(** Twelve draws of 3/4 after a first draw [rnd]. *)
Definition twelve_draws : list double := repeat (of_dyadic 3 (-2)) 12.

(** The default options with the seed option set to 42. *)
Definition options_seeded : options :=
  {| opt_rand_type := "special";
     opt_rand_spec_iter := 12;
     opt_rand_spec_pct := 1;
     opt_rand_spec_res := 75;
     opt_rand_seed := 42;
     opt_rand_pareto_h := of_dyadic 1 (-1) |}.

(** The default options with the seed option set to 43. *)
Definition options_seeded_43 : options :=
  {| opt_rand_type := "special";
     opt_rand_spec_iter := 12;
     opt_rand_spec_pct := 1;
     opt_rand_spec_res := 75;
     opt_rand_seed := 43;
     opt_rand_pareto_h := of_dyadic 1 (-1) |}.

(** The default options with a distribution name that [sb_rand_init] does
    not know. *)
Definition options_bogus : options :=
  {| opt_rand_type := "bogus";
     opt_rand_spec_iter := 12;
     opt_rand_spec_pct := 1;
     opt_rand_spec_res := 75;
     opt_rand_seed := 0;
     opt_rand_pareto_h := of_dyadic 1 (-1) |}.

(** ** Doubles as real numbers

    The reading of the model's doubles that the bounds below are stated in. *)

(** Powers of two over the reals. *)
Definition bpow (e : Z) : R := powerRZ 2 e.
Definition F2R (m e : Z) : R := (IZR m * bpow e)%R.

(** The record after [n] shifts of a mantissa [m]: quotient, and the two
    bits locating the remainder against half a unit. *)
Definition shr_invariant (m : Z) (n : Z) (mrs : shr_record) : Prop :=
  exists rem : Z,
    0 <= rem < 2 ^ n
    /\ 0 <= shr_m mrs
    /\ m = shr_m mrs * 2 ^ n + rem
    /\ (shr_r mrs = true <-> 2 ^ n <= 2 * rem)
    /\ (shr_s mrs = true <-> rem <> 0 /\ 2 * rem <> 2 ^ n).

(** The real number a finite double stands for (0 for the others). *)
Definition val (x : double) : R :=
  match x with
  | S754_finite s m e => F2R (cond_Zopp s (Z.pos m)) e
  | _ => 0%R
  end.

(** Zero or a positive finite double. *)
Definition nonneg (x : double) : Prop :=
  match x with
  | S754_zero _ | S754_finite false _ _ => True
  | _ => False
  end.

(** The bound on the error of one rounding of a value [v >= 0]. *)
Definition half_ulp (v : R) : R := Rmax (v * bpow (-53)) (bpow (-1075)).

(** ** Sequences of unique ids *)

(** Successive calls of [sb_rand_uniq], one per range [(a, b)] of the list:
    the values returned, in order, and the statics after them. *)
Fixpoint sb_rand_uniq_calls (rs : list (Z * Z)) (st : statics)
  : option (list Z * statics) :=
  match rs with
  | [] => Some ([], st)
  | (a, b) :: rs' =>
      match sb_rand_uniq a b st with
      | Some (v, st1) =>
          match sb_rand_uniq_calls rs' st1 with
          | Some (vs, st2) => Some (v :: vs, st2)
          | None => None
          end
      | None => None
      end
  end.

(** A range [a <= b] of [uint32_t] values whose width fits 32 bits. *)
Definition valid_range (r : Z * Z) : Prop :=
  0 <= fst r <= snd r /\ snd r < 2 ^ 32 /\ snd r - fst r + 1 < 2 ^ 32.

(** Trial division: no number of [d, d + fuel) divides [n]. *)
Fixpoint no_divisor_from (n d : Z) (fuel : nat) : bool :=
  match fuel with
  | O => true
  | S fuel' => negb (n mod d =? 0) && no_divisor_from n (d + 1) fuel'
  end.

(** ** Further option values *)

(** Options with the three parameters of the gaussian and special
    distributions set, the others at the values of [options_default]. *)
Definition options_with (iter pct res : Z) : options :=
  {| opt_rand_type := "special";
     opt_rand_spec_iter := iter;
     opt_rand_spec_pct := pct;
     opt_rand_spec_res := res;
     opt_rand_seed := 0;
     opt_rand_pareto_h := of_dyadic 1 (-1) |}.

(** ** Records of quotients

    The reading of a shift record that the bounds on divisions are proved
    with. *)

(** The record of a quotient [q] of [M] by the unit [u]: the two bits locate
    the remainder against half the unit. *)
Definition shr_unit_invariant (M u : Z) (mrs : shr_record) : Prop :=
  exists rem : Z,
    0 <= rem < u
    /\ 0 <= shr_m mrs
    /\ M = shr_m mrs * u + rem
    /\ (shr_r mrs = true <-> u <= 2 * rem)
    /\ (shr_s mrs = true <-> rem <> 0 /\ 2 * rem <> u).

(** * Properties *)

(** ** Machine integers *)

Lemma wrap32_small z : 0 <= z < 2 ^ 32 -> wrap32 z = z.
Proof. intros Hz. unfold wrap32. now apply Z.mod_small. Qed.

Lemma wrap64_small z : 0 <= z < 2 ^ 64 -> wrap64 z = z.
Proof. intros Hz. unfold wrap64. now apply Z.mod_small. Qed.

(** ** Binary64 arithmetic *)

Lemma bpow_pos e : (0 < bpow e)%R.
Proof. apply powerRZ_lt. lra. Qed.

Lemma bpow_add a b : bpow (a + b) = (bpow a * bpow b)%R.
Proof. apply powerRZ_add. lra. Qed.

Lemma bpow_IZR n : 0 <= n -> bpow n = IZR (2 ^ n).
Proof.
  intros Hn. unfold bpow.
  rewrite <- (Z2Nat.id n Hn) at 1.
  rewrite <- pow_powerRZ, pow_IZR. now rewrite Z2Nat.id.
Qed.

Lemma bpow_le a b : a <= b -> (bpow a <= bpow b)%R.
Proof.
  intros Hab. replace b with (a + (b - a)) by lia.
  rewrite bpow_add, (bpow_IZR (b - a)) by lia.
  assert (0 < 2 ^ (b - a)) by (apply Z.pow_pos_nonneg; lia).
  assert (1 <= 2 ^ (b - a)) as H1 by lia. clear H. rename H1 into H.
  apply IZR_le in H. pose proof (bpow_pos a). nra.
Qed.

Lemma bpow_lt a b : a < b -> (bpow a < bpow b)%R.
Proof.
  intros Hab. replace b with (a + (b - a)) by lia.
  rewrite bpow_add, (bpow_IZR (b - a)) by lia.
  assert (2 <= 2 ^ (b - a)).
  { change 2 with (2 ^ 1) at 1. apply Z.pow_le_mono_r; lia. }
  apply IZR_le in H. pose proof (bpow_pos a). nra.
Qed.

Lemma digits2_pos_size p : digits2_pos p = Pos.size p.
Proof. induction p; cbn; congruence. Qed.

Lemma digits2_bounds p :
  2 ^ (Z.pos (digits2_pos p) - 1) <= Z.pos p < 2 ^ Z.pos (digits2_pos p).
Proof.
  rewrite digits2_pos_size.
  pose proof (Pos.size_gt p) as Hgt. pose proof (Pos.size_le p) as Hle.
  apply Pos2Z.pos_lt_pos in Hgt. apply Pos2Z.pos_le_pos in Hle.
  rewrite Pos2Z.inj_pow in Hgt, Hle.
  split; [| exact Hgt].
  change (Z.pos p~0) with (2 * Z.pos p) in Hle.
  replace (Z.pos (Pos.size p)) with (Z.pos (Pos.size p) - 1 + 1) in Hle by lia.
  rewrite Z.pow_add_r, Z.pow_1_r in Hle by lia. lia.
Qed.

(** Shifting right. *)

Lemma iter_pos_nat {A : Type} (f : A -> A) p x :
  SpecFloat.iter_pos f p x = Nat.iter (Pos.to_nat p) f x.
Proof.
  revert x. induction p as [p IH | p IH |]; intros x; cbn [SpecFloat.iter_pos].
  - rewrite !IH, Pos2Nat.inj_xI. cbn [Nat.mul]. rewrite Nat.add_0_r.
    rewrite <- Nat.iter_add. cbn [Nat.iter].
    now rewrite <- Nat.iter_succ_r.
  - rewrite !IH, Pos2Nat.inj_xO. cbn [Nat.mul]. rewrite Nat.add_0_r.
    now rewrite <- Nat.iter_add.
  - reflexivity.
Qed.

Lemma true_iff (P : Prop) : P -> (true = true <-> P).
Proof. tauto. Qed.

Lemma false_iff (P : Prop) : ~ P -> (false = true <-> P).
Proof. intros HP. split; [discriminate | tauto]. Qed.

Lemma shr_1_invariant m n mrs :
  0 <= n -> shr_invariant m n mrs -> shr_invariant m (n + 1) (shr_1 mrs).
Proof.
  intros Hn (rem & Hrem & Hq & Hm & Hr & Hs).
  assert (Hpow : 2 ^ (n + 1) = 2 * 2 ^ n) by (rewrite Z.pow_add_r by lia; lia).
  assert (Hpos : 0 < 2 ^ n) by (apply Z.pow_pos_nonneg; lia).
  destruct mrs as [q r s]. cbn [shr_m shr_r shr_s] in *.
  assert (Hsticky : orb r s = true <-> rem <> 0).
  { rewrite orb_true_iff, Hr, Hs. lia. }
  unfold shr_invariant. rewrite Hpow.
  destruct q as [| [q | q |] | q]; cbn [shr_1 shr_m shr_r shr_s]; try lia.
  - exists rem.
    split; [lia | split; [lia | split; [lia | split]]].
    + apply false_iff. lia.
    + rewrite Hsticky. lia.
  - exists (2 ^ n + rem).
    split; [lia | split; [lia | split; [lia | split]]].
    + apply true_iff. lia.
    + rewrite Hsticky. lia.
  - exists rem.
    split; [lia | split; [lia | split; [lia | split]]].
    + apply false_iff. lia.
    + rewrite Hsticky. lia.
  - exists (2 ^ n + rem).
    split; [lia | split; [lia | split; [lia | split]]].
    + apply true_iff. lia.
    + rewrite Hsticky. lia.
Qed.

Lemma shr_iter_invariant m k :
  0 <= m ->
  shr_invariant m (Z.of_nat k) (Nat.iter k shr_1 (Build_shr_record m false false)).
Proof.
  intros Hm. induction k as [| k IH].
  - exists 0. cbn. repeat split; try lia; try discriminate.
  - rewrite Nat2Z.inj_succ, <- Z.add_1_r. cbn [Nat.iter].
    apply shr_1_invariant; [lia | exact IH].
Qed.

(** [shr] from an exact record: the shift count and the invariant. *)
Lemma shr_exact_invariant m e n :
  0 <= m ->
  let (mrs, e') := shr (Build_shr_record m false false) e n in
  e' = e + Z.max n 0 /\ shr_invariant m (Z.max n 0) mrs.
Proof.
  intros Hm. unfold shr. destruct n as [| p | p].
  - split; [lia |]. apply (shr_iter_invariant m 0 Hm).
  - split; [lia |]. rewrite iter_pos_nat.
    replace (Z.max (Z.pos p) 0) with (Z.of_nat (Pos.to_nat p)) by lia.
    now apply shr_iter_invariant.
  - split; [lia |]. apply (shr_iter_invariant m 0 Hm).
Qed.

Lemma round_nearest_even_bounds m n mrs :
  0 <= n -> shr_invariant m n mrs ->
  let m1 := round_nearest_even (shr_m mrs) (loc_of_shr_record mrs) in
  0 <= m1
  /\ 2 * (m1 * 2 ^ n) <= 2 * m + 2 ^ n
  /\ 2 * m <= 2 * (m1 * 2 ^ n) + 2 ^ n.
Proof.
  intros Hn (rem & Hrem & Hq & Hm & Hr & Hs).
  assert (Hpos : 0 < 2 ^ n) by (apply Z.pow_pos_nonneg; lia).
  destruct mrs as [q r s]. cbn [shr_m shr_r shr_s] in *.
  destruct r, s; cbn [loc_of_shr_record round_nearest_even].
  - assert (2 ^ n <= 2 * rem) by now apply Hr. nia.
  - assert (2 ^ n <= 2 * rem) by now apply Hr.
    assert (2 * rem = 2 ^ n).
    { destruct (Z.eq_dec (2 * rem) (2 ^ n)) as [E | E]; [exact E |].
      assert (false = true) by (apply Hs; lia). discriminate. }
    destruct (Z.even q); nia.
  - assert (~ 2 ^ n <= 2 * rem) by (intros E; apply Hr in E; discriminate). nia.
  - assert (~ 2 ^ n <= 2 * rem) by (intros E; apply Hr in E; discriminate). nia.
Qed.

(** The steps of [binary_round_aux] on an exact positive mantissa. *)
Lemma binary_round_aux_steps s (m : positive) (e : Z) :
  let n1 := Z.max (fexp prec emax (Z.pos (digits2_pos m) + e) - e) 0 in
  exists m1 m2 n2 : Z,
    0 <= m1
    /\ 2 * (m1 * 2 ^ n1) <= 2 * Z.pos m + 2 ^ n1
    /\ 2 * Z.pos m <= 2 * (m1 * 2 ^ n1) + 2 ^ n1
    /\ n2 = Z.max (fexp prec emax (Zdigits2 m1 + (e + n1)) - (e + n1)) 0
    /\ 0 <= m2 /\ m2 * 2 ^ n2 <= m1 < (m2 + 1) * 2 ^ n2
    /\ binary_round_aux prec emax s (Z.pos m) e loc_Exact
       = match m2 with
         | Z0 => S754_zero s
         | Z.pos p =>
             if e + n1 + n2 <=? emax - prec then S754_finite s p (e + n1 + n2)
             else S754_infinity s
         | Z.neg _ => S754_nan
         end.
Proof.
  intros n1. unfold binary_round_aux, shr_fexp.
  cbn [shr_record_of_loc Zdigits2].
  pose proof (shr_exact_invariant (Z.pos m) e
                (fexp prec emax (Z.pos (digits2_pos m) + e) - e)
                ltac:(lia)) as H1.
  destruct (shr _ e _) as [mrs1 e1].
  destruct H1 as [He1 Hinv1]. fold n1 in He1, Hinv1.
  assert (Hn1 : 0 <= n1) by (unfold n1; lia).
  pose proof (round_nearest_even_bounds _ _ _ Hn1 Hinv1) as (Hm1 & Hup & Hlo).
  set (m1 := round_nearest_even (shr_m mrs1) (loc_of_shr_record mrs1)) in *.
  pose proof (shr_exact_invariant m1 e1
                (fexp prec emax (Zdigits2 m1 + e1) - e1) Hm1) as H2.
  destruct (shr _ e1 _) as [mrs2 e2].
  destruct H2 as [He2 (rem & Hrem & Hq & Hm & _)].
  exists m1, (shr_m mrs2), (Z.max (fexp prec emax (Zdigits2 m1 + e1) - e1) 0).
  subst e1.
  split; [assumption | split; [assumption | split; [assumption |]]].
  split; [reflexivity | split; [assumption | split; [lia |]]].
  subst e2. reflexivity.
Qed.

Lemma F2R_shift m n e : 0 <= n -> F2R (m * 2 ^ n) e = F2R m (e + n).
Proof.
  intros Hn. unfold F2R.
  rewrite mult_IZR, <- bpow_IZR, (Z.add_comm e n), bpow_add by assumption. ring.
Qed.

Lemma F2R_le m m' e : m <= m' -> (F2R m e <= F2R m' e)%R.
Proof.
  intros H. unfold F2R. apply IZR_le in H. pose proof (bpow_pos e). nra.
Qed.

Lemma bpow_half e : (bpow e = 2 * bpow (e - 1))%R.
Proof.
  replace e with (1 + (e - 1)) at 1 by lia. rewrite bpow_add.
  assert (H1 : bpow 1 = 2%R) by (unfold bpow; exact (powerRZ_1 2)).
  rewrite H1. reflexivity.
Qed.

Lemma F2R_digits_lower (m : positive) e :
  (bpow (Z.pos (digits2_pos m) - 1 + e) <= F2R (Z.pos m) e)%R.
Proof.
  rewrite bpow_add. unfold F2R.
  pose proof (digits2_bounds m) as [Hlo _].
  rewrite bpow_IZR by lia. apply IZR_le in Hlo.
  pose proof (bpow_pos e). nra.
Qed.

(** The rounding error of [binary_round_aux] from above: at most half a
    unit in the last place. *)
Lemma binary_round_aux_upper s (m : positive) (e : Z) :
  let v := F2R (Z.pos m) e in
  let h := Rmax (v * bpow (-53)) (bpow (-1075)) in
  match binary_round_aux prec emax s (Z.pos m) e loc_Exact with
  | S754_zero s' => s' = s
  | S754_finite s' m2 e2 => s' = s /\ (F2R (Z.pos m2) e2 <= v + h)%R
  | S754_infinity s' => s' = s /\ (bpow 972 <= v + h)%R
  | S754_nan => False
  end.
Proof.
  intros v h.
  destruct (binary_round_aux_steps s m e)
    as (m1 & m2 & n2 & Hm1 & Hup & _ & Hn2def & Hm2 & [Hfloor _] & ->).
  set (n1 := Z.max (fexp prec emax (Z.pos (digits2_pos m) + e) - e) 0) in *.
  assert (Hn1 : 0 <= n1) by (unfold n1; lia).
  assert (Hn2 : 0 <= n2) by lia.
  clear Hn2def.
  assert (Hv : (0 < v)%R).
  { unfold v, F2R. pose proof (bpow_pos e).
    assert (0 < IZR (Z.pos m))%R by (apply IZR_lt; lia). nra. }
  assert (Hh : (0 <= h)%R).
  { unfold h. pose proof (Rmax_r (v * bpow (-53)) (bpow (-1075))).
    pose proof (bpow_pos (-1075)). lra. }
  assert (Hval : (F2R m2 (e + n1 + n2) <= v + h)%R).
  { rewrite <- F2R_shift by assumption.
    apply Rle_trans with (F2R m1 (e + n1)); [now apply F2R_le |].
    rewrite <- F2R_shift by assumption.
    destruct (Z.eq_dec n1 0) as [E0 | Hpos].
    - rewrite E0 in *. rewrite Z.pow_0_r in *.
      apply Rle_trans with v; [apply F2R_le; lia | lra].
    - assert (Hhalf : (F2R (m1 * 2 ^ n1) e <= v + bpow (e + n1 - 1))%R).
      { apply (F2R_le _ _ e) in Hup. revert Hup.
        unfold v, F2R.
        rewrite !mult_IZR, plus_IZR, mult_IZR, <- (bpow_IZR n1) by assumption.
        intros Hup. replace (e + n1 - 1) with (n1 + (e - 1)) by lia.
        rewrite (bpow_add n1). rewrite (bpow_half e) in Hup |- *.
        pose proof (bpow_pos (e - 1)). pose proof (bpow_pos n1). nra. }
      apply Rle_trans with (1 := Hhalf). apply Rplus_le_compat_l.
      unfold h.
      assert (He1 : e + n1 = fexp prec emax (Z.pos (digits2_pos m) + e))
        by (unfold n1 in *; lia).
      unfold fexp, emin, emax, prec in He1.
      destruct (Z.le_gt_cases (Z.pos (digits2_pos m) + e - 53) (-1074)) as [Hsub | Hnorm].
      + replace (e + n1 - 1) with (-1075) by lia. apply Rmax_r.
      + apply Rle_trans with (v * bpow (-53))%R; [| apply Rmax_l].
        replace (e + n1 - 1) with ((Z.pos (digits2_pos m) - 1 + e) + -53) by lia.
        rewrite bpow_add.
        pose proof (F2R_digits_lower m e). fold v in H.
        pose proof (bpow_pos (-53)). nra. }
  destruct m2 as [| p | p]; [reflexivity | | lia].
  destruct (Z.leb_spec (e + n1 + n2) (emax - prec)) as [Hfin | Hinf].
  - split; [reflexivity | exact Hval].
  - split; [reflexivity |].
    apply Rle_trans with (2 := Hval). unfold emax, prec in Hinf.
    apply Rle_trans with (bpow (e + n1 + n2)); [apply bpow_le; lia |].
    unfold F2R. pose proof (bpow_pos (e + n1 + n2)).
    assert (1 <= IZR (Z.pos p))%R by (apply IZR_le; lia). nra.
Qed.

Lemma half_ulp_pos v : (0 < half_ulp v)%R.
Proof.
  unfold half_ulp. pose proof (Rmax_r (v * bpow (-53)) (bpow (-1075))).
  pose proof (bpow_pos (-1075)). lra.
Qed.

Lemma half_ulp_le v B :
  (0 <= v <= B)%R -> (1 <= B)%R -> (half_ulp v <= B * bpow (-53))%R.
Proof.
  intros Hv HB. unfold half_ulp. apply Rmax_lub.
  - pose proof (bpow_pos (-53)). nra.
  - apply Rle_trans with (bpow (-53)); [apply bpow_le; lia |].
    pose proof (bpow_pos (-53)). nra.
Qed.

Lemma val_nonneg x : nonneg x -> (0 <= val x)%R.
Proof.
  destruct x as [s | s | | [|] m e]; cbn; try tauto; try lra.
  intros _. unfold F2R. pose proof (bpow_pos e).
  assert (0 < IZR (Z.pos m))%R by (apply IZR_lt; lia). nra.
Qed.

Lemma bpow_972_large : (2 * IZR (2 ^ 64) < bpow 972)%R.
Proof.
  rewrite <- bpow_IZR by lia. change 64 with (65 - 1).
  rewrite <- bpow_half. apply bpow_lt. lia.
Qed.

Lemma bpow_minus_53 : (bpow (-53) * IZR (2 ^ 53) = 1)%R.
Proof.
  rewrite <- (bpow_IZR 53), <- bpow_add by lia. reflexivity.
Qed.

(** One rounding of a positive value below 2^64 yields a double that is
    not negative and exceeds the value by at most [half_ulp]. *)
Lemma binary_round_aux_nonneg (m : positive) (e : Z) :
  (F2R (Z.pos m) e <= IZR (2 ^ 64))%R ->
  let r := binary_round_aux prec emax false (Z.pos m) e loc_Exact in
  nonneg r /\ (val r <= F2R (Z.pos m) e + half_ulp (F2R (Z.pos m) e))%R.
Proof.
  intros Hv r. subst r.
  pose proof (binary_round_aux_upper false m e) as Hup. cbv zeta in Hup.
  fold (half_ulp (F2R (Z.pos m) e)) in Hup.
  set (v := F2R (Z.pos m) e) in *.
  assert (Hv0 : (0 <= v)%R) by (apply (val_nonneg (S754_finite false m e)); exact I).
  pose proof (half_ulp_pos v) as Hh.
  destruct (binary_round_aux prec emax false (Z.pos m) e loc_Exact)
    as [s | s | | s m2 e2]; cbn [nonneg val].
  - split; [exact I | lra].
  - exfalso. destruct Hup as [_ Hup].
    pose proof bpow_972_large as Hbig.
    assert (half_ulp v <= IZR (2 ^ 64) * bpow (-53))%R.
    { apply half_ulp_le; [lra |]. apply IZR_le. lia. }
    pose proof bpow_minus_53. pose proof (bpow_pos (-53)).
    assert (IZR (2 ^ 64) * bpow (-53) <= IZR (2 ^ 64))%R.
    { assert (1 <= IZR (2 ^ 53))%R by (apply IZR_le; lia).
      assert (0 < IZR (2 ^ 64))%R by (apply IZR_lt; lia). nra. }
    lra.
  - contradiction.
  - destruct Hup as [-> Hup]. split; [exact I | exact Hup].
Qed.

Lemma bpow_le_inv a b : (bpow a <= bpow b)%R -> a <= b.
Proof.
  intros H. destruct (Z.le_gt_cases a b) as [Hab | Hab]; [exact Hab |].
  apply bpow_lt in Hab. lra.
Qed.

Lemma bpow_opp e : (bpow (- e) * bpow e = 1)%R.
Proof. rewrite <- bpow_add. replace (- e + e) with 0 by lia. reflexivity. Qed.

Lemma F2R_int (a e : Z) : e <= 0 -> F2R (a * 2 ^ (- e)) e = IZR a.
Proof.
  intros He. unfold F2R. rewrite mult_IZR, <- bpow_IZR by lia.
  rewrite Rmult_assoc, bpow_opp. ring.
Qed.

(** Rounding does not go below an integer that the value is not below. *)
Lemma binary_round_aux_lower (m : positive) (e a : Z) :
  0 <= a -> e <= 0 ->
  (IZR a <= F2R (Z.pos m) e)%R ->
  (F2R (Z.pos m) e <= IZR (2 ^ 52))%R ->
  (IZR a <= val (binary_round_aux prec emax false (Z.pos m) e loc_Exact))%R.
Proof.
  intros Ha He Hlow Hhigh.
  destruct (Z.eq_dec a 0) as [-> | Hapos].
  { apply val_nonneg. apply binary_round_aux_nonneg.
    apply Rle_trans with (1 := Hhigh). apply IZR_le. lia. }
  destruct (binary_round_aux_steps false m e)
    as (m1 & m2 & n2 & Hm1 & Hup & Hlo & Hn2 & Hm2 & [Hfloor Hceil] & ->).
  set (n1 := Z.max (fexp prec emax (Z.pos (digits2_pos m) + e) - e) 0) in *.
  assert (Hd : Z.pos (digits2_pos m) + e <= 53).
  { pose proof (F2R_digits_lower m e) as Hdig.
    rewrite <- (bpow_IZR 52) in Hhigh by lia.
    assert (Z.pos (digits2_pos m) - 1 + e <= 52); [| lia].
    apply bpow_le_inv. lra. }
  assert (He1 : e + n1 <= 0 /\ 0 <= n1)
    by (unfold n1, fexp, emin, emax, prec; lia).
  destruct He1 as [He1 Hn1].
  assert (Hp1 : 0 < 2 ^ n1) by (apply Z.pow_pos_nonneg; lia).
  assert (Hpe : 0 < 2 ^ (- e)) by (apply Z.pow_pos_nonneg; lia).
  (* the value in units of 2^e *)
  assert (HA : a * 2 ^ (- e) <= Z.pos m).
  { apply le_IZR. rewrite <- (F2R_int a e He) in Hlow.
    unfold F2R in Hlow. pose proof (bpow_pos e). nra. }
  assert (HM : Z.pos m <= 2 ^ 52 * 2 ^ (- e)).
  { apply le_IZR. rewrite <- (F2R_int (2 ^ 52) e He) in Hhigh.
    unfold F2R in Hhigh. pose proof (bpow_pos e). nra. }
  (* the rounded mantissa has at most 53 - (e + n1) digits *)
  assert (Hsplit : 2 ^ (- e) = 2 ^ (- (e + n1)) * 2 ^ n1).
  { rewrite <- Z.pow_add_r by lia. f_equal. lia. }
  assert (Hpe1 : 0 < 2 ^ (- (e + n1))) by (apply Z.pow_pos_nonneg; lia).
  assert (Hm1max : m1 <= 2 ^ 52 * 2 ^ (- (e + n1))).
  { rewrite Hsplit in HM.
    assert (2 * (m1 * 2 ^ n1) <= 2 * (2 ^ 52 * 2 ^ (- (e + n1)) * 2 ^ n1) + 2 ^ n1)
      by lia.
    nia. }
  assert (Hd1 : Zdigits2 m1 + (e + n1) <= 53).
  { destruct m1 as [| p1 | p1]; [cbn; lia | | lia].
    cbn [Zdigits2]. pose proof (digits2_bounds p1) as [Hlo1 _].
    assert (Hlt : 2 ^ (Z.pos (digits2_pos p1) - 1) < 2 ^ (53 - (e + n1))).
    { apply Z.le_lt_trans with (1 := Hlo1).
      apply Z.le_lt_trans with (1 := Hm1max).
      replace (53 - (e + n1)) with (53 + - (e + n1)) by lia.
      rewrite Z.pow_add_r by lia. nia. }
    apply Z.pow_lt_mono_r_iff in Hlt; lia. }
  assert (He2 : e + n1 + n2 <= 0 /\ 0 <= n2)
    by (subst n2; unfold fexp, emin, emax, prec; lia).
  destruct He2 as [He2 Hn2pos]. clear Hn2.
  assert (Hp2 : 0 < 2 ^ n2) by (apply Z.pow_pos_nonneg; lia).
  assert (Hpe2 : 0 < 2 ^ (- (e + n1 + n2))) by (apply Z.pow_pos_nonneg; lia).
  assert (Hsplit2 : 2 ^ (- e) = 2 ^ (- (e + n1 + n2)) * 2 ^ n2 * 2 ^ n1).
  { rewrite <- !Z.pow_add_r by lia. f_equal. lia. }
  (* the result is not below a, in units of 2^(e + n1 + n2) *)
  assert (HK : a * 2 ^ (- (e + n1 + n2)) <= m2).
  { destruct (Z.le_gt_cases (a * 2 ^ (- (e + n1 + n2))) m2) as [H | H];
      [exact H | exfalso].
    rewrite Hsplit2 in HA.
    assert ((m1 + 1) * 2 ^ n1 <= a * 2 ^ (- (e + n1 + n2)) * 2 ^ n2 * 2 ^ n1).
    { apply Z.mul_le_mono_nonneg_r; [lia |]. nia. }
    nia. }
  destruct m2 as [| p2 | p2]; [nia | | lia].
  destruct (Z.leb_spec (e + n1 + n2) (emax - prec)) as [_ | Hbig];
    [| unfold emax, prec in Hbig; lia].
  cbn [val cond_Zopp].
  rewrite <- (F2R_int a (e + n1 + n2) He2). now apply F2R_le.
Qed.

Lemma F2R_mul m1 e1 m2 e2 :
  F2R (m1 * m2) (e1 + e2) = (F2R m1 e1 * F2R m2 e2)%R.
Proof. unfold F2R. rewrite mult_IZR, bpow_add. ring. Qed.

(** The product of two doubles that are not negative. *)
Lemma mul_upper (x y : double) :
  nonneg x -> nonneg y -> (val x * val y <= IZR (2 ^ 64))%R ->
  nonneg (mul x y)
  /\ (val (mul x y) <= val x * val y + half_ulp (val x * val y))%R.
Proof.
  intros Hx Hy Hv.
  pose proof (half_ulp_pos (val x * val y)) as Hh.
  destruct x as [sx | sx | | [|] mx ex]; try contradiction;
    destruct y as [sy | sy | | [|] my ey]; try contradiction;
    cbn [mul SFmul nonneg]; unfold mul; cbn [SFmul val nonneg] in *;
    try (split; [exact I | lra]).
  cbn [xorb].
  change (cond_Zopp false (Z.pos mx)) with (Z.pos mx) in *.
  change (cond_Zopp false (Z.pos my)) with (Z.pos my) in *.
  rewrite <- F2R_mul in *. rewrite <- Pos2Z.inj_mul in *.
  now apply binary_round_aux_nonneg.
Qed.

Lemma iter_xO_value (m d : positive) :
  Z.pos (Pos.iter xO m d) = Z.pos m * 2 ^ Z.pos d.
Proof.
  induction d as [| d IH] using Pos.peano_ind.
  - cbn. lia.
  - rewrite Pos.iter_succ, Pos2Z.inj_xO, IH, Pos2Z.inj_succ, Z.pow_succ_r by lia.
    ring.
Qed.

Lemma shl_align_value (m : positive) (e e' : Z) :
  F2R (Z.pos (fst (shl_align m e e'))) (snd (shl_align m e e')) = F2R (Z.pos m) e
  /\ (e' <= e -> snd (shl_align m e e') = e')
  /\ snd (shl_align m e e') <= e.
Proof.
  unfold shl_align. destruct (e' - e) as [| d | d] eqn:Hd; cbn [fst snd].
  - split; [reflexivity | lia].
  - split; [reflexivity | lia].
  - split; [| lia].
    rewrite iter_xO_value, F2R_shift by lia. f_equal. lia.
Qed.

Lemma binary_round_nonneg (m : positive) (e : Z) :
  (F2R (Z.pos m) e <= IZR (2 ^ 64))%R ->
  nonneg (binary_round prec emax false m e)
  /\ (val (binary_round prec emax false m e)
      <= F2R (Z.pos m) e + half_ulp (F2R (Z.pos m) e))%R.
Proof.
  intros Hv. unfold binary_round.
  pose proof (shl_align_value m e (fexp prec emax (Z.pos (digits2_pos m) + e)))
    as [Hval _].
  destruct (shl_align m e _) as [mz ez]. cbn [fst snd] in Hval.
  rewrite <- Hval in *. now apply binary_round_aux_nonneg.
Qed.

Lemma binary_round_lower (m : positive) (e a : Z) :
  0 <= a -> e <= 0 ->
  (IZR a <= F2R (Z.pos m) e)%R ->
  (F2R (Z.pos m) e <= IZR (2 ^ 52))%R ->
  (IZR a <= val (binary_round prec emax false m e))%R.
Proof.
  intros Ha He Hlow Hhigh. unfold binary_round.
  pose proof (shl_align_value m e (fexp prec emax (Z.pos (digits2_pos m) + e)))
    as (Hval & _ & Hexp).
  destruct (shl_align m e _) as [mz ez]. cbn [fst snd] in Hval, Hexp.
  rewrite <- Hval in *. apply binary_round_aux_lower; (assumption || lia).
Qed.

Lemma F2R_add m1 m2 e : F2R (m1 + m2) e = (F2R m1 e + F2R m2 e)%R.
Proof. unfold F2R. rewrite plus_IZR. ring. Qed.

(** The sum of two doubles that are not negative. *)
Lemma add_upper (x y : double) :
  nonneg x -> nonneg y -> (val x + val y <= IZR (2 ^ 64))%R ->
  nonneg (add x y)
  /\ (val (add x y) <= val x + val y + half_ulp (val x + val y))%R.
Proof.
  intros Hx Hy Hv.
  pose proof (half_ulp_pos (val x + val y)) as Hh.
  destruct x as [sx | sx | | [|] mx ex]; try contradiction;
    destruct y as [sy | sy | | [|] my ey]; try contradiction;
    unfold add; cbn [SFadd].
  - destruct sx, sy; cbn [nonneg val] in *; (split; [exact I | lra]).
  - cbn [nonneg val] in *. split; [exact I | lra].
  - cbn [nonneg val] in *. split; [exact I | lra].
  - cbn [val cond_Zopp] in *.
    pose proof (shl_align_value mx ex (Z.min ex ey)) as (Hvx & Hex & _).
    pose proof (shl_align_value my ey (Z.min ex ey)) as (Hvy & Hey & _).
    rewrite Hex in Hvx by lia. rewrite Hey in Hvy by lia.
    rewrite <- Hvx, <- Hvy, <- F2R_add in *.
    cbn [binary_normalize Z.add].
    now apply binary_round_nonneg.
Qed.

Lemma digits2_iter_xO (m d : positive) :
  digits2_pos (Pos.iter xO m d) = (digits2_pos m + d)%positive.
Proof.
  induction d as [| d IH] using Pos.peano_ind.
  - cbn. lia.
  - rewrite Pos.iter_succ. cbn [digits2_pos]. rewrite IH. lia.
Qed.

(** A mantissa that already fits is left as it is. *)
Lemma binary_round_aux_exact s (m : positive) (e : Z) :
  fexp prec emax (Z.pos (digits2_pos m) + e) <= e ->
  e <= emax - prec ->
  binary_round_aux prec emax s (Z.pos m) e loc_Exact = S754_finite s m e.
Proof.
  intros Hcanon Hmax. unfold binary_round_aux, shr_fexp.
  cbn [Zdigits2 shr_record_of_loc].
  assert (Hshr : forall mrs, shr mrs e (fexp prec emax (Z.pos (digits2_pos m) + e) - e)
                             = (mrs, e)).
  { intros mrs. unfold shr.
    destruct (fexp prec emax (Z.pos (digits2_pos m) + e) - e) eqn:E; try reflexivity.
    lia. }
  rewrite Hshr. cbn [shr_m loc_of_shr_record round_nearest_even Zdigits2].
  rewrite Hshr. cbn [shr_m].
  destruct (Z.leb_spec e (emax - prec)); [reflexivity | lia].
Qed.

(** The conversion of an integer below 2^53 is exact. *)
Lemma of_int_finite (n : Z) :
  0 < n < 2 ^ 53 ->
  exists (m : positive) (e : Z),
    of_int n = S754_finite false m e /\ e <= 0 /\ F2R (Z.pos m) e = IZR n.
Proof.
  intros Hn. destruct n as [| p | p]; try lia.
  unfold of_int, of_dyadic. cbn [binary_normalize]. unfold binary_round.
  pose proof (digits2_bounds p) as [Hlo _].
  assert (Hd : Z.pos (digits2_pos p) <= 53).
  { destruct (Z.le_gt_cases (Z.pos (digits2_pos p)) 53) as [H | H]; [exact H |].
    exfalso. assert (2 ^ 53 <= 2 ^ (Z.pos (digits2_pos p) - 1))
      by (apply Z.pow_le_mono_r; lia). lia. }
  pose proof (shl_align_value p 0 (fexp prec emax (Z.pos (digits2_pos p) + 0)))
    as (Hval & Hexp & _).
  assert (Hfexp : fexp prec emax (Z.pos (digits2_pos p) + 0)
                  = Z.pos (digits2_pos p) - 53)
    by (unfold fexp, emin, emax, prec; lia).
  rewrite Hfexp in *. specialize (Hexp ltac:(lia)).
  assert (Hdig : Z.pos (digits2_pos (fst (shl_align p 0 (Z.pos (digits2_pos p) - 53))))
                 = 53).
  { unfold shl_align.
    destruct (Z.pos (digits2_pos p) - 53 - 0) as [| d | d] eqn:E; cbn [fst]; try lia.
    rewrite digits2_iter_xO. lia. }
  destruct (shl_align p 0 (Z.pos (digits2_pos p) - 53)) as [mz ez].
  cbn [fst snd] in *. subst ez.
  exists mz, (Z.pos (digits2_pos p) - 53).
  rewrite binary_round_aux_exact.
  - split; [reflexivity | split; [lia |]]. rewrite Hval.
    unfold F2R. change (bpow 0) with 1%R. ring.
  - rewrite Hdig. unfold fexp, emin, emax, prec. lia.
  - unfold emax, prec. lia.
Qed.

Lemma of_int_exact (n : Z) :
  0 <= n < 2 ^ 53 -> nonneg (of_int n) /\ val (of_int n) = IZR n.
Proof.
  intros Hn. destruct (Z.eq_dec n 0) as [-> | Hpos]; [cbn; auto |].
  destruct (of_int_finite n) as (m & e & -> & _ & Hval); [lia |].
  split; [exact I | exact Hval].
Qed.

Lemma one_eq : one = S754_finite false 4503599627370496 (-52).
Proof. reflexivity. Qed.

(** A double of [0, 1) is at most 1 - 2^-53. *)
Lemma in_unit_interval_val (u : double) :
  in_unit_interval u = true ->
  nonneg u /\ (val u <= 1 - bpow (-53))%R.
Proof.
  unfold in_unit_interval. rewrite !andb_true_iff, one_eq.
  intros [[Hvalid Hle] Hlt].
  pose proof (bpow_pos (-53)) as Hp. pose proof bpow_minus_53 as H53.
  assert (H1 : (IZR (2 ^ 53) = 9007199254740992)%R) by reflexivity.
  unfold leb, SFleb, ltb, SFltb, zero in *.
  destruct u as [s | s | | s m e]; cbn [SFcompare] in Hle, Hlt; try discriminate.
  - cbn [nonneg val]. split; [exact I | nra].
  - destruct s; discriminate.
  - destruct s; try discriminate. split; [exact I |].
    unfold valid, valid_binary, bounded, canonical_mantissa in Hvalid.
    apply andb_true_iff in Hvalid as [Hcanon _].
    apply Z.eqb_eq in Hcanon. unfold fexp, emin, emax, prec in Hcanon.
    pose proof (digits2_bounds m) as [_ Hhi].
    assert (Hm : Z.pos m < 2 ^ 53).
    { apply Z.lt_le_trans with (1 := Hhi). apply Z.pow_le_mono_r; lia. }
    cbn [val cond_Zopp].
    destruct (Z.compare_spec e (-52)) as [He | He | He]; try discriminate.
    + subst e. rewrite Pos.compare_cont_spec in Hlt. cbn [Pos.switch_Eq] in Hlt.
      destruct (Pos.compare_spec m 4503599627370496) as [? | Hc | ?];
        try discriminate.
      apply Pos2Z.pos_lt_pos in Hc.
      assert (Z.pos m <= 4503599627370496 - 1) as Hc' by lia.
      apply IZR_le in Hc'. rewrite minus_IZR in Hc'.
      unfold F2R. rewrite (bpow_half (-52)). change (-52 - 1) with (-53).
      nra.
    + assert (Z.pos m <= 2 ^ 53 - 1) as Hc' by lia.
      apply IZR_le in Hc'. rewrite minus_IZR in Hc'.
      assert (bpow e <= bpow (-53))%R by (apply bpow_le; lia).
      pose proof (bpow_pos e).
      unfold F2R. assert (0 < IZR (Z.pos m))%R by (apply IZR_lt; lia).
      nra.
Qed.

Lemma half_ulp_lt v B :
  (0 <= v < B)%R -> (1 <= B)%R -> (half_ulp v < B * bpow (-53))%R.
Proof.
  intros Hv HB. unfold half_ulp. apply Rmax_lub_lt.
  - pose proof (bpow_pos (-53)). nra.
  - apply Rlt_le_trans with (bpow (-53)); [apply bpow_lt; lia |].
    pose proof (bpow_pos (-53)). nra.
Qed.

(** The integral part of a double that is not negative. *)
Lemma integral_part_nonneg (x : double) :
  nonneg x ->
  exists k : Z,
    integral_part x = Some k /\ floor x = Some k
    /\ 0 <= k /\ (IZR k <= val x < IZR k + 1)%R.
Proof.
  destruct x as [s | s | | [|] m e]; try contradiction; intros _.
  - exists 0. cbn. repeat split; try lia; lra.
  - exists (Z.shiftl (Z.pos m) e). cbn [integral_part floor val cond_Zopp].
    split; [reflexivity | split; [reflexivity |]].
    destruct (Z.le_gt_cases 0 e) as [He | He].
    + rewrite Z.shiftl_mul_pow2 by assumption.
      assert (0 < 2 ^ e) by (apply Z.pow_pos_nonneg; lia).
      split; [nia |]. unfold F2R.
      rewrite mult_IZR, <- bpow_IZR by assumption. lra.
    + rewrite Z.shiftl_div_pow2 by lia.
      assert (Hp : 0 < 2 ^ (- e)) by (apply Z.pow_pos_nonneg; lia).
      split; [apply Z.div_pos; lia |].
      pose proof (Z.mul_div_le (Z.pos m) (2 ^ (- e)) Hp) as Hdiv.
      pose proof (Z.mul_succ_div_gt (Z.pos m) (2 ^ (- e)) Hp) as Hdiv'.
      rewrite Z.mul_comm in Hdiv, Hdiv'.
      apply (F2R_le _ _ e) in Hdiv.
      assert (Hlt : (F2R (Z.pos m) e
                     < F2R (Z.succ (Z.pos m / 2 ^ (- e)) * 2 ^ (- e)) e)%R).
      { unfold F2R. apply IZR_lt in Hdiv'. pose proof (bpow_pos e). nra. }
      rewrite F2R_int in Hdiv, Hlt by lia.
      rewrite succ_IZR in Hlt. lra.
Qed.

Lemma to_uint32_between (x : double) (a N : Z) :
  nonneg x -> (IZR a <= val x < IZR (N + 1))%R -> N < 2 ^ 32 ->
  exists k : Z,
    to_uint32 x = Some k /\ floor x = Some k /\ 0 <= k /\ a <= k <= N.
Proof.
  intros Hx [Hlow Hval] HN.
  destruct (integral_part_nonneg x Hx) as (k & Hint & Hfl & Hk & Hle & Hgt).
  assert (Hlt : (IZR k < IZR (N + 1))%R) by lra.
  apply lt_IZR in Hlt.
  assert (Hlt' : (IZR a < IZR (k + 1))%R) by (rewrite plus_IZR; lra).
  apply lt_IZR in Hlt'.
  exists k. unfold to_uint32. rewrite Hint.
  destruct (Z.leb_spec 0 k); [| lia].
  destruct (Z.ltb_spec k (2 ^ 32)); [| lia].
  repeat split; try assumption; lia.
Qed.

(** The sum of an integer and a double that is not negative is not below
    the integer. *)
Lemma add_lower (a : Z) (x : double) :
  0 <= a -> nonneg x -> (IZR a + val x <= IZR (2 ^ 52))%R ->
  (IZR a <= val (add (of_int a) x))%R.
Proof.
  intros Ha Hx Hsum.
  pose proof (val_nonneg x Hx) as Hx0.
  assert (H52 : (IZR (2 ^ 52) <= IZR (2 ^ 64))%R) by (apply IZR_le; lia).
  assert (Ha52 : a <= 2 ^ 52) by (apply le_IZR; lra).
  destruct (Z.eq_dec a 0) as [-> | Hapos].
  { apply val_nonneg. apply add_upper; [exact I | exact Hx |].
    change (val (of_int 0)) with 0%R. lra. }
  destruct (of_int_finite a) as (ma & ea & Hfin & Hea & Hva); [lia |].
  rewrite Hfin.
  destruct x as [sx | sx | | [|] mx ex]; try contradiction;
    unfold add; cbn [SFadd].
  - cbn [val cond_Zopp]. lra.
  - cbn [val cond_Zopp] in *.
    pose proof (shl_align_value ma ea (Z.min ea ex)) as (Hv1 & He1 & _).
    pose proof (shl_align_value mx ex (Z.min ea ex)) as (Hv2 & He2 & _).
    rewrite He1 in Hv1 by lia. rewrite He2 in Hv2 by lia.
    cbn [binary_normalize Z.add].
    apply binary_round_lower; try lia.
    + rewrite Pos2Z.inj_add, F2R_add, Hv1, Hv2, Hva. lra.
    + rewrite Pos2Z.inj_add, F2R_add, Hv1, Hv2, Hva. lra.
Qed.

(** Below 1 after one rounding: the product of an integer [t] and a double of
    [0, 1) is a double below [t]. *)
Lemma mul_int_unit_below (t : Z) (p : double) :
  1 <= t < 2 ^ 32 -> in_unit_interval p = true ->
  nonneg (mul (of_int t) p) /\ (val (mul (of_int t) p) < IZR t)%R.
Proof.
  intros Ht Hp.
  apply in_unit_interval_val in Hp as [Hpnn Hpv].
  pose proof (val_nonneg p Hpnn) as Hp0.
  destruct (of_int_exact t) as [Htnn Htv]; [lia |].
  assert (Ht1 : (1 <= IZR t)%R) by (apply IZR_le; lia).
  assert (H32 : (IZR t <= IZR (2 ^ 64))%R) by (apply IZR_le; lia).
  pose proof (bpow_pos (-53)) as H53.
  assert (Hprod : (0 <= val (of_int t) * val p < IZR t)%R) by (rewrite Htv; nra).
  destruct (mul_upper (of_int t) p Htnn Hpnn) as [Hxnn Hxv]; [lra |].
  split; [exact Hxnn |].
  pose proof (half_ulp_lt _ _ Hprod Ht1) as Hh.
  rewrite Htv in *. nra.
Qed.

(** ** The unique-id counter *)

(** C4.  For a range [a <= b] of [uint32_t] values whose width [b - a + 1]
    does not overflow 32 bits, [sb_rand_uniq] on counter value [c] returns
    [a + c mod (b - a + 1)], a value of [[a, b]], and leaves the counter at
    [c + 2147483647] modulo 2^64 and every other static unchanged. *)
Theorem sb_rand_uniq_spec (a b : Z) (st : statics) :
  0 <= a <= b -> b < 2 ^ 32 -> b - a + 1 < 2 ^ 32 ->
  sb_rand_uniq a b st =
    Some (a + rnd_seed st mod (b - a + 1),
          set_rnd_seed ((rnd_seed st + 2147483647) mod 2 ^ 64) st)
  /\ a <= a + rnd_seed st mod (b - a + 1) <= b.
Proof.
  intros Hab Hb Hw.
  assert (Hn : 0 < b - a + 1) by lia.
  pose proof (Z.mod_pos_bound (rnd_seed st) (b - a + 1) Hn) as Hm.
  split; [| lia].
  unfold sb_rand_uniq.
  rewrite (wrap32_small (b - a + 1)) by lia.
  destruct (Z.eqb_spec (b - a + 1) 0) as [E | _]; [lia |].
  rewrite (wrap32_small (rnd_seed st mod (b - a + 1))) by lia.
  rewrite wrap32_small by lia.
  unfold wrap64, LARGE_PRIME.
  now rewrite Z.add_comm.
Qed.

Lemma sb_rand_uniq_spec_witness :
  sb_rand_uniq 5 9 (set_rnd_seed LARGE_PRIME statics_zero) =
    Some (5 + 2147483647 mod (9 - 5 + 1),
          set_rnd_seed ((2147483647 + 2147483647) mod 2 ^ 64)
            (set_rnd_seed LARGE_PRIME statics_zero))
  /\ 5 <= 5 + 2147483647 mod (9 - 5 + 1) <= 9.
Proof.
  apply (sb_rand_uniq_spec 5 9 (set_rnd_seed LARGE_PRIME statics_zero)); lia.
Defined.

(** ** Seeding *)

Lemma seed_half_range r : 0 <= seed_half r < UINT32_MAX.
Proof. unfold seed_half. apply Z.mod_pos_bound. reflexivity. Qed.

Lemma seed_word_zero_iff r_hi r_lo :
  seed_word r_hi r_lo = 0 <-> seed_half r_hi = 0 /\ seed_half r_lo = 0.
Proof.
  unfold seed_word.
  pose proof (seed_half_range r_hi) as Hh.
  unfold UINT32_MAX in Hh.
  rewrite Z.lor_eq_0_iff, Z.shiftl_mul_pow2 by lia.
  rewrite wrap64_small by lia.
  split; intros [H1 H2]; split; try assumption; lia.
Qed.

Lemma sb_rand_thread_init_randoms {L : Type} `{Libc L} (l : L) :
  exists r1 r2 r3 r4,
    fst (randoms 4 l) = [r1; r2; r3; r4]
    /\ sb_rand_thread_init l = ((seed_word r1 r2, seed_word r3 r4), snd (randoms 4 l)).
Proof.
  unfold sb_rand_thread_init. cbn [randoms].
  destruct (libc_random l) as [r1 l1].
  destruct (libc_random l1) as [r2 l2].
  destruct (libc_random l2) as [r3 l3].
  destruct (libc_random l3) as [r4 l4].
  now exists r1, r2, r3, r4.
Qed.

Lemma seed_half_zero_in_range r :
  0 <= r <= 2147483647 -> (seed_half r = 0 <-> r = 0).
Proof.
  intros Hr. unfold seed_half, UINT32_MAX.
  rewrite wrap64_small by lia. rewrite Z.mod_small by lia. reflexivity.
Qed.

(** C2, as the code has it.  After [sb_rand_thread_init] the two words of
    the state are both zero exactly when each of the four values [random]
    returned is, as a 64-bit word, a multiple of [UINT32_MAX]; for values in
    the range of [random], 0 to 2^31 - 1, that is exactly when all four are
    0.  So the state is non-zero as soon as one of the four results is not
    zero, and it is zero when [random] returns 0 four times. *)
Theorem sb_rand_thread_init_zero_iff {L : Type} `{Libc L} (l : L) :
  (fst (sb_rand_thread_init l) = (0, 0)
   <-> Forall (fun r => wrap64 r mod UINT32_MAX = 0) (fst (randoms 4 l)))
  /\ (Forall (fun r => 0 <= r <= 2147483647) (fst (randoms 4 l)) ->
      (fst (sb_rand_thread_init l) = (0, 0)
       <-> Forall (fun r => r = 0) (fst (randoms 4 l)))).
Proof.
  destruct (sb_rand_thread_init_randoms l) as (r1 & r2 & r3 & r4 & Hrs & Hinit).
  rewrite Hinit, Hrs. cbn [fst].
  change (fun r => wrap64 r mod UINT32_MAX = 0) with (fun r => seed_half r = 0).
  assert (Hiff : (seed_word r1 r2, seed_word r3 r4) = (0, 0)
                 <-> Forall (fun r => seed_half r = 0) [r1; r2; r3; r4]).
  { rewrite !Forall_cons_iff. split.
    - intros Heq. injection Heq as H1 H2.
      apply seed_word_zero_iff in H1, H2. intuition constructor.
    - intros (H1 & H2 & H3 & H4 & _).
      f_equal; apply seed_word_zero_iff; now split. }
  split; [exact Hiff |].
  intros Hrange. rewrite Hiff.
  rewrite !Forall_cons_iff in *.
  destruct Hrange as (R1 & R2 & R3 & R4 & _).
  rewrite !seed_half_zero_in_range by assumption.
  split; intros (H1 & H2 & H3 & H4 & _); repeat split; auto.
Qed.

(** C2, counterexample.  [random] may return 0; when it does so four times
    in a row, both words of the seeded state are zero. *)
Lemma sb_rand_thread_init_all_zero :
  fst (sb_rand_thread_init [0; 0; 0; 0]) = (0, 0).
Proof. reflexivity. Qed.

(** ** Computations over the generator *)

Lemma bind_Some {G A B : Type} (m : Gen G A) (k : A -> Gen G B) g x g' :
  m g = Some (x, g') -> bind m k g = k x g'.
Proof. intros Hm. unfold bind. now rewrite Hm. Qed.

Lemma bind_inv {G A B : Type} (m : Gen G A) (k : A -> Gen G B) g y g2 :
  bind m k g = Some (y, g2) ->
  exists x g1, m g = Some (x, g1) /\ k x g1 = Some (y, g2).
Proof.
  unfold bind. destruct (m g) as [[x g1] |]; [| discriminate].
  intros Hk. now exists x, g1.
Qed.

Lemma bind_draw {G B : Type} `{BitGenerator G} (k : double -> Gen G B) g u g1 :
  sb_rand_uniform_double g = (u, g1) -> bind draw k g = k u g1.
Proof. intros Hu. apply bind_Some. unfold draw. now rewrite Hu. Qed.

(** The loops consume the next [n] draws and fold them into the sum. *)

Lemma special_loop_draws {G : Type} `{BitGenerator G} n sum (g : G) :
  special_loop n sum g
  = Some (fold_left add (fst (draws n g)) sum, snd (draws n g)).
Proof.
  revert sum g. induction n as [| n IH]; intros sum g; [reflexivity |].
  cbn [special_loop draws].
  destruct (sb_rand_uniform_double g) as [u g1] eqn:Hu.
  rewrite (bind_draw _ _ _ _ Hu), IH.
  now destruct (draws n g1).
Qed.

Lemma gaussian_loop_draws {G : Type} `{BitGenerator G} n t sum (g : G) :
  gaussian_loop n t sum g
  = Some (fold_left (fun s u => add s (mul u t)) (fst (draws n g)) sum,
          snd (draws n g)).
Proof.
  revert sum g. induction n as [| n IH]; intros sum g; [reflexivity |].
  cbn [gaussian_loop draws].
  destruct (sb_rand_uniform_double g) as [u g1] eqn:Hu.
  rewrite (bind_draw _ _ _ _ Hu), IH.
  now destruct (draws n g1).
Qed.

Lemma draws_S {G : Type} `{BitGenerator G} (n : nat) (g : G) :
  draws (S n) g
  = (fst (sb_rand_uniform_double g) :: fst (draws n (snd (sb_rand_uniform_double g))),
     snd (draws n (snd (sb_rand_uniform_double g)))).
Proof.
  cbn [draws]. destruct (sb_rand_uniform_double g) as [u g1]. cbn [fst snd].
  now destruct (draws n g1).
Qed.

(** ** The special distribution *)

(** C1, as the code has it.  When the branch test [res < t] of
    [sb_rand_special] succeeds, the function consumes the [rand_iter] draws
    [us] that follow the branch draw and returns
    [(uint32_t)(a + (u1 + ... + uN) * (b - a) * rand_iter_mult)]: the sum is
    scaled by the width [b - a] and [a] is added before the conversion.
    [sb_rand_gaussian] on the same draws returns
    [a + (uint32_t)((u1 * (b - a + 1) + ... + uN * (b - a + 1)) * rand_iter_mult)]. *)
Theorem sb_rand_special_cold_branch {G : Type} `{BitGenerator G}
  (st : statics) (a b : Z) (g g1 g2 : G) (rnd : double) (us : list double) :
  sb_rand_uniform_double g = (rnd, g1) ->
  draws (Z.to_nat (rand_iter st)) g1 = (us, g2) ->
  ltb (mul rnd (mul (of_int (wrap32 (b - a))) (rand_res_mult st)))
      (of_int (wrap32 (b - a))) = true ->
  sb_rand_special st a b g
  = cast_uint32
      (add (of_int a)
           (mul (mul (fold_left add us zero) (of_int (wrap32 (b - a))))
                (rand_iter_mult st))) g2
  /\ sb_rand_gaussian st a b g1
     = (k <~ cast_uint32
               (mul (fold_left
                       (fun s u => add s (mul u (of_int (wrap32 (b - a + 1)))))
                       us zero)
                    (rand_iter_mult st)) ;
        ret (wrap32 (a + k))) g2.
Proof.
  intros Hrnd Hus Hcold. split.
  - unfold sb_rand_special.
    rewrite (bind_draw _ _ _ _ Hrnd). cbv zeta. rewrite Hcold.
    erewrite bind_Some; [reflexivity |].
    rewrite special_loop_draws, Hus. reflexivity.
  - unfold sb_rand_gaussian. cbv zeta.
    erewrite bind_Some; [reflexivity |].
    rewrite gaussian_loop_draws, Hus. reflexivity.
Qed.

Lemma sb_rand_special_cold_branch_witness :
  sb_rand_special statics_default 0 9 (of_dyadic 1 (-3) :: twelve_draws)
  = cast_uint32
      (add (of_int 0)
           (mul (mul (fold_left add twelve_draws zero) (of_int (wrap32 (9 - 0))))
                (rand_iter_mult statics_default))) []
  /\ sb_rand_gaussian statics_default 0 9 twelve_draws
     = (k <~ cast_uint32
               (mul (fold_left
                       (fun s u => add s (mul u (of_int (wrap32 (9 - 0 + 1)))))
                       twelve_draws zero)
                    (rand_iter_mult statics_default)) ;
        ret (wrap32 (0 + k))) [].
Proof.
  apply (sb_rand_special_cold_branch statics_default 0 9
           (of_dyadic 1 (-3) :: twelve_draws) twelve_draws []
           (of_dyadic 1 (-3)) twelve_draws);
    vm_compute; reflexivity.
Defined.

(** C1, counterexample.  With the default options, the range [[0, 9]] and
    twelve draws of 3/4, the first branch of [sb_rand_special] (taken after a
    branch draw of 1/8) returns 6, and [sb_rand_gaussian] on the same twelve
    draws returns 7. *)
Lemma sb_rand_special_cold_differs_from_gaussian :
  ltb (mul (of_dyadic 1 (-3))
           (mul (of_int (wrap32 (9 - 0))) (rand_res_mult statics_default)))
      (of_int (wrap32 (9 - 0))) = true
  /\ sb_rand_special statics_default 0 9 (of_dyadic 1 (-3) :: twelve_draws)
     = Some (6, [])
  /\ sb_rand_gaussian statics_default 0 9 twelve_draws = Some (7, []).
Proof. vm_compute. repeat split. Qed.

(** For a double that is not below zero, discarding the fraction is taking
    the floor. *)
Lemma floor_nonneg_integral_part (x : double) (k : Z) :
  floor x = Some k -> 0 <= k -> integral_part x = Some k.
Proof.
  destruct x as [s | s | | s m e]; cbn; try discriminate; [easy |].
  destruct s; cbn; [| easy].
  intros Hk Hpos. exfalso.
  injection Hk as Hk.
  destruct (Z.le_gt_cases 0 e) as [He | He].
  - rewrite Z.shiftl_mul_pow2 in Hk by assumption.
    assert (0 < 2 ^ e) by (apply Z.pow_pos_nonneg; lia). nia.
  - rewrite Z.shiftl_div_pow2 in Hk by lia.
    assert (Hp : 0 < 2 ^ (- e)) by (apply Z.pow_pos_nonneg; lia).
    assert (Z.neg m / 2 ^ (- e) < 0); [| lia].
    apply Z.div_lt_upper_bound; [assumption | lia].
Qed.

(** When the branch test [res < t] of [sb_rand_special] fails, the function
    consumes no further draw and returns [a + floor(offset)] in 32-bit
    arithmetic, where [offset] is the expression of the second branch on the
    branch draw [rnd], whenever that floor is a [uint32_t] value. *)
Lemma sb_rand_special_hot_value {G : Type} `{BitGenerator G}
  (st : statics) (a b : Z) (g g1 : G) (rnd : double) (k : Z) :
  sb_rand_uniform_double g = (rnd, g1) ->
  ltb (mul rnd (mul (of_int (wrap32 (b - a))) (rand_res_mult st)))
      (of_int (wrap32 (b - a))) = false ->
  floor (special_offset st a b rnd) = Some k ->
  0 <= k < 2 ^ 32 ->
  sb_rand_special st a b g = Some (wrap32 (a + k), g1).
Proof.
  intros Hrnd Hhot Hfloor Hk.
  unfold sb_rand_special.
  rewrite (bind_draw _ _ _ _ Hrnd). cbv zeta. rewrite Hhot.
  fold (special_offset st a b rnd).
  apply floor_nonneg_integral_part in Hfloor; [| lia].
  erewrite bind_Some; [reflexivity |].
  unfold cast_uint32, to_uint32. rewrite Hfloor.
  destruct (Z.leb_spec 0 k); [| lia].
  destruct (Z.ltb_spec k (2 ^ 32)); [reflexivity | lia].
Qed.

(** ** The uniform distribution *)

(** On a draw of [0, 1) and a range whose end is below [UINT32_MAX],
    [sb_rand_uniform] returns a value, and one of [[a, b + 1]]. *)
Lemma sb_rand_uniform_range {G : Type} `{BitGenerator G} (a b : Z) (g : G) :
  0 <= a <= b -> b + 1 < 2 ^ 32 ->
  in_unit_interval (fst (sb_rand_uniform_double g)) = true ->
  exists v : Z,
    sb_rand_uniform a b g = Some (v, snd (sb_rand_uniform_double g))
    /\ a <= v <= b + 1.
Proof.
  intros Hab Hb Hu.
  destruct (sb_rand_uniform_double g) as [u g1] eqn:Hdraw. cbn [fst snd] in *.
  apply in_unit_interval_val in Hu as [Hunn Huv].
  pose proof (val_nonneg u Hunn) as Hu0.
  unfold sb_rand_uniform. rewrite (bind_draw _ _ _ _ Hdraw).
  rewrite (wrap32_small (b - a + 1)) by lia.
  destruct (of_int_exact (b - a + 1)) as [Htnn Htv]; [lia |].
  destruct (of_int_exact a) as [Hann Hav]; [lia |].
  assert (Ht1 : (1 <= IZR (b - a + 1))%R) by (apply IZR_le; lia).
  assert (Hbig : (IZR (b + 1) <= IZR (2 ^ 32))%R) by (apply IZR_le; lia).
  assert (H64 : (2 * IZR (2 ^ 32) <= IZR (2 ^ 64))%R).
  { rewrite <- mult_IZR. apply IZR_le. lia. }
  assert (H52 : (IZR (2 ^ 32) <= IZR (2 ^ 52))%R) by (apply IZR_le; lia).
  assert (H32 : (0 < IZR (2 ^ 32))%R) by (apply IZR_lt; lia).
  assert (Hta : (IZR (b - a + 1) + IZR a = IZR (b + 1))%R).
  { rewrite <- plus_IZR. f_equal. lia. }
  assert (Ha0 : (0 <= IZR a)%R) by (apply IZR_le; lia).
  pose proof (bpow_pos (-53)) as Hp. pose proof bpow_minus_53 as H53.
  set (t := of_int (b - a + 1)) in *.
  assert (Hprod : (0 <= val u * val t <= IZR (b - a + 1))%R).
  { rewrite Htv. nra. }
  destruct (mul_upper u t Hunn Htnn) as [Hxnn Hxv]; [lra |].
  pose proof (half_ulp_le _ _ Hprod Ht1) as Hh1.
  set (x := mul u t) in *.
  assert (Hx : (val x <= IZR (b - a + 1))%R).
  { rewrite Htv in *. nra. }
  pose proof (val_nonneg x Hxnn) as Hx0.
  assert (Hsum : (0 <= val (of_int a) + val x <= IZR (b + 1))%R) by lra.
  destruct (add_upper (of_int a) x Hann Hxnn) as [Hynn Hyv]; [lra |].
  pose proof (add_lower a x ltac:(lia) Hxnn ltac:(lra)) as Hylow.
  assert (Hb1 : (1 <= IZR (b + 1))%R) by (apply IZR_le; lia).
  pose proof (half_ulp_le _ _ Hsum Hb1) as Hh2.
  assert (Hsmall : (IZR (b + 1) * bpow (-53) < 1)%R).
  { assert (IZR (b + 1) < IZR (2 ^ 53))%R by (apply IZR_lt; lia). nra. }
  destruct (to_uint32_between (add (of_int a) x) a (b + 1) Hynn)
    as (k & Hk & _ & _ & Hrange).
  - split; [exact Hylow | rewrite plus_IZR; lra].
  - lia.
  - exists k. split; [| lia]. unfold cast_uint32. rewrite Hk. reflexivity.
Qed.

(** X1, beyond C5.  For a range [a <= b] with [b] below [UINT32_MAX] and a draw
    of [0, 1), [sb_rand_uniform] consumes that draw and returns a value of
    [[a, b + 1]]: the overshoot of the range is by one at most. *)
Theorem sb_rand_uniform_in_range {G : Type} `{BitGenerator G} (a b : Z) (g : G) :
  0 <= a <= b -> b + 1 < 2 ^ 32 ->
  in_unit_interval (fst (sb_rand_uniform_double g)) = true ->
  exists v : Z,
    sb_rand_uniform a b g = Some (v, snd (sb_rand_uniform_double g))
    /\ a <= v <= b + 1.
Proof. exact (sb_rand_uniform_range a b g). Qed.

Lemma sb_rand_uniform_in_range_witness :
  exists v : Z,
    sb_rand_uniform 48 57 [u_max] = Some (v, snd (sb_rand_uniform_double [u_max]))
    /\ 48 <= v <= 57 + 1.
Proof.
  apply (sb_rand_uniform_in_range 48 57 [u_max]);
    vm_compute; first [reflexivity | split; discriminate].
Defined.

(** C5, at failing inputs.  [u_max] = 1 - 2^-52 is a double of [0, 1), and
    on the range [[4, 4]] the double sum [4 + u_max * 1] rounds to 5:
    [sb_rand_uniform] returns 5, outside the range, where
    [a + floor(u * (b - a + 1))] is 4.  The larger [a], the more draws do
    this: on [[2^31, 2^31]] the draw 1 - 2^-30 already yields [2^31 + 1]. *)
Lemma sb_rand_uniform_overshoot :
  (in_unit_interval u_max = true
   /\ sb_rand_uniform 4 4 [u_max] = Some (5, [])
   /\ floor (mul u_max (of_int (wrap32 (4 - 4 + 1)))) = Some 0)
  /\ (in_unit_interval (of_dyadic (2 ^ 30 - 1) (-30)) = true
      /\ sb_rand_uniform 2147483648 2147483648 [of_dyadic (2 ^ 30 - 1) (-30)]
         = Some (2147483649, [])).
Proof. vm_compute. repeat split. Qed.

(** ** The Pareto distribution *)

(** C7, as the code has it.  After an initialisation with shape parameter
    [H], [sb_rand_pareto] on a range [a <= b] whose width does not overflow
    32 bits computes [p = pow(u, log(H) / log(1 - H))] from the draw [u] and,
    whenever libm's result [p] is a double of [0, 1), returns
    [a + floor((b - a + 1) * p)], the product being rounded once; that value
    lies in [[a, b]]. *)
Theorem sb_rand_pareto_range {G : Type} `{BitGenerator G} `{Libm}
  (o : options) (ty : rand_dist_t) (f : rand_func_t) (a b : Z) (g : G) :
  let h := opt_rand_pareto_h o in
  let u := fst (sb_rand_uniform_double g) in
  let p := libm_pow u (div (libm_log h) (libm_log (sub one h))) in
  0 <= a <= b -> b < 2 ^ 32 -> b - a + 1 < 2 ^ 32 ->
  in_unit_interval p = true ->
  exists k : Z,
    floor (mul (of_int (b - a + 1)) p) = Some k
    /\ sb_rand_pareto (configure o ty f) a b g
       = Some (a + k, snd (sb_rand_uniform_double g))
    /\ a <= a + k <= b.
Proof.
  intros h u p Hab Hb Hw Hp.
  destruct (mul_int_unit_below (b - a + 1) p ltac:(lia) Hp) as [Hnn Hlt].
  destruct (to_uint32_between (mul (of_int (b - a + 1)) p) 0 (b - a) Hnn)
    as (k & Hk & Hfloor & _ & Hrange).
  { split; [now apply val_nonneg | exact Hlt]. }
  { lia. }
  exists k. split; [exact Hfloor | split; [| lia]].
  unfold sb_rand_pareto. subst u p h.
  destruct (sb_rand_uniform_double g) as [u g1] eqn:Hdraw. cbn [fst snd] in *.
  rewrite (bind_draw _ _ _ _ Hdraw).
  rewrite (wrap32_small (b - a + 1)) by lia.
  cbn [pareto_power configure].
  erewrite bind_Some; [| unfold cast_uint32; rewrite Hk; reflexivity].
  unfold ret. now rewrite wrap32_small by lia.
Qed.

Lemma sb_rand_pareto_range_witness :
  exists k : Z,
    floor (mul (of_int (9 - 0 + 1))
             (libm_pow (of_dyadic 3 (-2))
                (div (libm_log (of_dyadic 1 (-1)))
                     (libm_log (sub one (of_dyadic 1 (-1))))))) = Some k
    /\ sb_rand_pareto (statics_pareto (of_dyadic 1 (-1))) 0 9 [of_dyadic 3 (-2)]
       = Some (0 + k, [])
    /\ 0 <= 0 + k <= 9.
Proof.
  refine (sb_rand_pareto_range (options_pareto (of_dyadic 1 (-1)))
            DIST_TYPE_PARETO Ptr_sb_rand_pareto 0 9 [of_dyadic 3 (-2)] _ _ _ _);
    vm_compute; first [reflexivity | split; discriminate].
Defined.

(** The two counterexamples below do not depend on the table.  Whenever
    [1 - H] rounds to 1, [log(1)] is [+0] and [log(H)] is negative, the
    exponent computed at initialisation is minus infinity; and whenever [pow]
    returns plus infinity, [sb_rand_pareto] reaches an undefined conversion. *)
Lemma pareto_power_minus_infinity `{Libm}
  (o : options) (ty : rand_dist_t) (f : rand_func_t) (m : positive) (e : Z) :
  sub one (opt_rand_pareto_h o) = one ->
  libm_log one = zero ->
  libm_log (opt_rand_pareto_h o) = S754_finite true m e ->
  pareto_power (configure o ty f) = S754_infinity true.
Proof.
  intros Hsub Hlog1 Hlogh. cbn [pareto_power configure].
  now rewrite Hsub, Hlog1, Hlogh.
Qed.

Lemma sb_rand_pareto_undefined_at_infinity {G : Type} `{BitGenerator G} `{Libm}
  (st : statics) (a b : Z) (g : G) :
  0 <= a <= b -> b < 2 ^ 32 -> b - a + 1 < 2 ^ 32 ->
  libm_pow (fst (sb_rand_uniform_double g)) (pareto_power st)
  = S754_infinity false ->
  sb_rand_pareto st a b g = None.
Proof.
  intros Hab Hb Hw Hpow. unfold sb_rand_pareto.
  destruct (sb_rand_uniform_double g) as [u g1] eqn:Hdraw. cbn [fst] in Hpow.
  rewrite (bind_draw _ _ _ _ Hdraw), Hpow.
  rewrite (wrap32_small (b - a + 1)) by lia.
  destruct (of_int_exact (b - a + 1)) as [Hnn Hval]; [lia |].
  destruct (of_int (b - a + 1)) as [s | s | | [|] m e]; try contradiction.
  - exfalso. cbn [val] in Hval.
    assert (0 < IZR (b - a + 1))%R by (apply IZR_lt; lia). lra.
  - reflexivity.
Qed.

(** C7, counterexamples.  Both shape parameters are doubles strictly
    between 0 and 1.
    - With [H = 0.9] and the draw [1 - 2^-52], libm's [pow] returns 1 and
      [sb_rand_pareto] returns [b + 1] on the range [[0, 9]].
    - With [H = 2^-60] the difference [1 - H] rounds to 1, its logarithm is
      [+0], the exponent is minus infinity and [pow] returns plus infinity:
      the conversion to [uint32_t] is undefined. *)
Lemma sb_rand_pareto_out_of_range :
  (in_unit_interval h_09 = true
   /\ in_unit_interval u_max = true
   /\ sb_rand_pareto (statics_pareto h_09) 0 9 [u_max] = Some (10, []))
  /\ (in_unit_interval (of_dyadic 1 (-60)) = true
      /\ pareto_power (statics_pareto (of_dyadic 1 (-60))) = S754_infinity true
      /\ sb_rand_pareto (statics_pareto (of_dyadic 1 (-60))) 0 9 [of_dyadic 1 (-1)]
         = None).
Proof. vm_compute. repeat split. Qed.

(** ** The string formatter *)

(** C9, at the failing input.  On the draw [u_max] the digit draw
    [sb_rand_uniform('0', '9')] returns 58 and the letter draw
    [sb_rand_uniform('a', 'z')] returns 123: the template ["#@"] yields the
    characters [':'] and ['{'], neither a digit nor a lowercase letter. *)
Lemma sb_rand_str_overshoot :
  sb_rand_str "#@" ["x"; "y"]%char [u_max; u_max]
  = Some ([":"; "{"]%char, []).
Proof. vm_compute. reflexivity. Qed.

Lemma store_inv {G : Type} i c buf (g : G) buf' g' :
  store i c buf g = Some (buf', g') ->
  (i < length buf)%nat /\ buf' = <[i := c]> buf /\ g' = g.
Proof.
  unfold store. destruct (decide (i < length buf)%nat) as [Hi | Hi].
  - intros [= <- <-]. auto.
  - discriminate.
Qed.

Lemma sb_rand_str_from_frame {G : Type} `{BitGenerator G}
  (fmt : string) (i : nat) (buf : list ascii) (g : G) buf' g' :
  (i <= length buf)%nat ->
  sb_rand_str_from i fmt buf g = Some (buf', g') ->
  length buf' = length buf
  /\ (i + strlen fmt <= length buf)%nat
  /\ forall j : nat, (j < i \/ i + strlen fmt <= j)%nat -> buf' !! j = buf !! j.
Proof.
  revert i buf g. induction fmt as [| c rest IH]; intros i buf g Hi Hrun.
  - cbn in Hrun. injection Hrun as <- <-. cbn.
    split; [reflexivity | split; [lia | auto]].
  - cbn [sb_rand_str_from strlen] in *.
    destruct (Ascii.eqb c Ascii.zero).
    + injection Hrun as <- <-. split; [reflexivity | split; [lia | auto]].
    + apply bind_inv in Hrun as (ch & g1 & _ & Hrun).
      apply bind_inv in Hrun as (buf1 & g2 & Hstore & Hrun).
      apply store_inv in Hstore as (Hlt & -> & ->).
      apply IH in Hrun; [| rewrite length_insert; lia].
      rewrite length_insert in Hrun.
      destruct Hrun as (Hlen & Hfit & Hframe).
      split; [assumption | split; [lia |]].
      intros j Hj. rewrite Hframe by lia.
      apply list_lookup_insert_ne. lia.
Qed.

Lemma sb_rand_str_from_defined {G : Type} `{BitGenerator G}
  (fmt : string) (i : nat) (buf : list ascii) (g : G) :
  Forall (fun u => in_unit_interval u = true) (fst (draws (placeholders fmt) g)) ->
  (i + strlen fmt <= length buf)%nat ->
  exists buf' : list ascii,
    sb_rand_str_from i fmt buf g = Some (buf', snd (draws (placeholders fmt) g)).
Proof.
  revert i buf g. induction fmt as [| c rest IH]; intros i buf g Hdraws Hfit.
  - exists buf. reflexivity.
  - cbn [sb_rand_str_from strlen placeholders] in *.
    destruct (Ascii.eqb c Ascii.zero); [exists buf; reflexivity |].
    assert (Hstore : forall ch (g1 : G),
               store i ch buf g1 = Some (<[i := ch]> buf, g1)).
    { intros ch g1. unfold store.
      destruct (decide (i < length buf)%nat); [reflexivity | lia]. }
    assert (Hrest : forall ch (g1 : G),
               Forall (fun u => in_unit_interval u = true)
                 (fst (draws (placeholders rest) g1)) ->
               exists buf' : list ascii,
                 (buf1 <~ store i ch buf ; sb_rand_str_from (S i) rest buf1) g1
                 = Some (buf', snd (draws (placeholders rest) g1))).
    { intros ch g1 Hd. rewrite (bind_Some _ _ _ _ _ (Hstore ch g1)).
      apply IH; [exact Hd | rewrite length_insert; lia]. }
    assert (Hdrawn : forall a b : Z,
               0 <= a <= b -> b + 1 < 2 ^ 32 ->
               Forall (fun u => in_unit_interval u = true)
                 (fst (draws (S (placeholders rest)) g)) ->
               exists buf' : list ascii,
                 (ch <~ (v <~ sb_rand_uniform a b ; ret (char_of_uint32 v)) ;
                  buf1 <~ store i ch buf ; sb_rand_str_from (S i) rest buf1) g
                 = Some (buf', snd (draws (S (placeholders rest)) g))).
    { intros a b Hab Hb Hd. rewrite draws_S in Hd |- *. cbn [fst snd] in *.
      apply Forall_cons_iff in Hd as [Hu Hd].
      destruct (sb_rand_uniform_range a b g Hab Hb Hu) as (v & Hv & _).
      erewrite bind_Some; [| erewrite bind_Some; [reflexivity | exact Hv]].
      now apply Hrest. }
    change (uint32_of_char "0") with 48. change (uint32_of_char "9") with 57.
    change (uint32_of_char "a") with 97. change (uint32_of_char "z") with 122.
    destruct (Ascii.eqb c "#"); cbn [orb Nat.add] in *.
    + apply Hdrawn; [lia | lia | exact Hdraws].
    + destruct (Ascii.eqb c "@"); cbn [Nat.add] in *.
      * apply Hdrawn; [lia | lia | exact Hdraws].
      * erewrite bind_Some; [| reflexivity]. now apply Hrest.
Qed.

(** C10.  When the buffer holds at least [strlen fmt] bytes and the draws
    are doubles of [0, 1), [sb_rand_str] completes, having consumed one draw
    per ['#'] and ['@'] of the template, and leaves the buffer at its length
    and every byte at an index not below [strlen fmt] as it was: it writes
    within the first [strlen fmt] bytes only and stores no terminating null
    character. *)
Theorem sb_rand_str_frame {G : Type} `{BitGenerator G}
  (fmt : string) (buf : list ascii) (g : G) :
  (strlen fmt <= length buf)%nat ->
  Forall (fun u => in_unit_interval u = true)
    (fst (draws (placeholders fmt) g)) ->
  exists buf' : list ascii,
    sb_rand_str fmt buf g = Some (buf', snd (draws (placeholders fmt) g))
    /\ length buf' = length buf
    /\ forall j : nat, (strlen fmt <= j)%nat -> buf' !! j = buf !! j.
Proof.
  intros Hfit Hdraws.
  destruct (sb_rand_str_from_defined fmt 0 buf g Hdraws Hfit) as [buf' Hrun].
  exists buf'. split; [exact Hrun |].
  apply sb_rand_str_from_frame in Hrun; [| lia].
  destruct Hrun as (Hlen & _ & Hframe).
  split; [assumption |].
  intros j Hj. apply Hframe. lia.
Qed.

Lemma sb_rand_str_frame_witness :
  exists buf' : list ascii,
    sb_rand_str "#-@" ["x"; "y"; "z"; "w"]%char [of_dyadic 1 (-1); u_max]
    = Some (buf', snd (draws (placeholders "#-@") [of_dyadic 1 (-1); u_max]))
    /\ length buf' = length ["x"; "y"; "z"; "w"]%char
    /\ forall j : nat, (strlen "#-@" <= j)%nat ->
         buf' !! j = ["x"; "y"; "z"; "w"]%char !! j.
Proof.
  apply (sb_rand_str_frame "#-@" ["x"; "y"; "z"; "w"]%char
           [of_dyadic 1 (-1); u_max]).
  - cbn. lia.
  - change (fst (draws (placeholders "#-@") [of_dyadic 1 (-1); u_max]))
      with [of_dyadic 1 (-1); u_max].
    repeat constructor.
Defined.

Lemma sb_rand_str_from_chars {G : Type} `{BitGenerator G}
  (fmt : string) (i : nat) (buf : list ascii) (g : G) buf' g' :
  Forall (fun u => in_unit_interval u = true) (fst (draws (placeholders fmt) g)) ->
  (i <= length buf)%nat ->
  sb_rand_str_from i fmt buf g = Some (buf', g') ->
  forall (j : nat) (c : ascii),
    (j < strlen fmt)%nat -> String.get j fmt = Some c ->
    exists ch : ascii,
      buf' !! (i + j)%nat = Some ch
      /\ (if Ascii.eqb c "#" then 48 <= uint32_of_char ch <= 58
          else if Ascii.eqb c "@" then 97 <= uint32_of_char ch <= 123
          else ch = c).
Proof.
  revert i buf g. induction fmt as [| c0 rest IH];
    intros i buf g Hdraws Hi Hrun j c Hj Hget.
  - cbn in Hj. lia.
  - cbn [sb_rand_str_from strlen placeholders] in *.
    destruct (Ascii.eqb c0 Ascii.zero); [lia |].
    apply bind_inv in Hrun as (ch & g1 & Hch & Hrun).
    apply bind_inv in Hrun as (buf1 & g2 & Hstore & Hrun).
    apply store_inv in Hstore as (Hlt & -> & ->).
    assert (Hch_ok : (if Ascii.eqb c0 "#" then 48 <= uint32_of_char ch <= 58
                      else if Ascii.eqb c0 "@" then 97 <= uint32_of_char ch <= 123
                      else ch = c0)
                     /\ Forall (fun u => in_unit_interval u = true)
                          (fst (draws (placeholders rest) g1))).
    { assert (Hdrawn : forall a b : Z,
                 0 <= a <= b -> b + 1 < 256 ->
                 Forall (fun u => in_unit_interval u = true)
                   (fst (draws (S (placeholders rest)) g)) ->
                 (v <~ sb_rand_uniform a b ; ret (char_of_uint32 v)) g = Some (ch, g1) ->
                 a <= uint32_of_char ch <= b + 1
                 /\ Forall (fun u => in_unit_interval u = true)
                      (fst (draws (placeholders rest) g1))).
      { intros a b Hab Hb Hd Hv. rewrite draws_S in Hd. cbn [fst] in Hd.
        apply Forall_cons_iff in Hd as [Hu Hd].
        destruct (sb_rand_uniform_range a b g Hab ltac:(lia) Hu) as (v & Hv' & Hrange).
        rewrite (bind_Some _ _ _ _ _ Hv') in Hv. injection Hv as <- <-.
        split; [| exact Hd].
        unfold uint32_of_char, char_of_uint32.
        rewrite Z.mod_small by lia.
        rewrite N_ascii_embedding by lia. lia. }
      change (uint32_of_char "0") with 48 in Hch.
      change (uint32_of_char "9") with 57 in Hch.
      change (uint32_of_char "a") with 97 in Hch.
      change (uint32_of_char "z") with 122 in Hch.
      destruct (Ascii.eqb c0 "#"); cbn [orb Nat.add] in Hdraws.
      - apply (Hdrawn 48 57); [lia | lia | exact Hdraws | exact Hch].
      - destruct (Ascii.eqb c0 "@"); cbn [Nat.add] in Hdraws.
        + apply (Hdrawn 97 122); [lia | lia | exact Hdraws | exact Hch].
        + injection Hch as <- <-. split; [reflexivity | exact Hdraws]. }
    destruct Hch_ok as [Hok Hrest].
    destruct j as [| j].
    + cbn in Hget. injection Hget as <-.
      exists ch. split; [| exact Hok].
      apply sb_rand_str_from_frame in Hrun; [| rewrite length_insert; lia].
      destruct Hrun as (_ & _ & Hframe).
      rewrite Nat.add_0_r, Hframe by lia.
      now apply list_lookup_insert_eq.
    + cbn in Hget.
      replace (i + S j)%nat with (S i + j)%nat by lia.
      apply (IH (S i) (<[i := ch]> buf) g1 Hrest); try assumption.
      * rewrite length_insert. lia.
      * lia.
Qed.

(** X2, beyond C9.  When the draws are doubles of [0, 1), a completed call of
    [sb_rand_str] has stored, at every index [j] below [strlen fmt], a
    character of ['0'..':'] where the template has ['#'] (the digits and the
    character after ['9']), a character of ['a'..'{'] where it has ['@'] (the
    lowercase letters and the character after ['z']), and the template's own
    character elsewhere. *)
Theorem sb_rand_str_chars {G : Type} `{BitGenerator G}
  (fmt : string) (buf : list ascii) (g : G) buf' g' (j : nat) (c : ascii) :
  Forall (fun u => in_unit_interval u = true)
    (fst (draws (placeholders fmt) g)) ->
  sb_rand_str fmt buf g = Some (buf', g') ->
  (j < strlen fmt)%nat -> String.get j fmt = Some c ->
  exists ch : ascii,
    buf' !! j = Some ch
    /\ (if Ascii.eqb c "#" then 48 <= uint32_of_char ch <= 58
        else if Ascii.eqb c "@" then 97 <= uint32_of_char ch <= 123
        else ch = c).
Proof.
  intros Hdraws Hrun Hj Hget.
  apply (sb_rand_str_from_chars fmt 0 buf g buf' g' Hdraws ltac:(lia) Hrun j c Hj Hget).
Qed.

Lemma sb_rand_str_chars_witness :
  exists ch : ascii,
    ["5"; "-"; "{"; "w"]%char !! 2%nat = Some ch
    /\ (if Ascii.eqb "@" "#" then 48 <= uint32_of_char ch <= 58
        else if Ascii.eqb "@" "@" then 97 <= uint32_of_char ch <= 123
        else ch = "@"%char).
Proof.
  refine (sb_rand_str_chars "#-@" ["x"; "y"; "z"; "w"]%char
            [of_dyadic 1 (-1); u_max] ["5"; "-"; "{"; "w"]%char [] 2 "@"%char
            _ _ _ _).
  - change (fst (draws (placeholders "#-@") [of_dyadic 1 (-1); u_max]))
      with [of_dyadic 1 (-1); u_max].
    repeat constructor.
  - vm_compute. reflexivity.
  - cbn. lia.
  - reflexivity.
Defined.

(** ** Initialisation *)

Lemma select_rand_type_None (s : string) :
  select_rand_type s = None
  <-> s <> "uniform"%string /\ s <> "gaussian"%string
      /\ s <> "special"%string /\ s <> "pareto"%string.
Proof.
  unfold select_rand_type.
  destruct (String.eqb_spec s "uniform");
    [split; [discriminate | intros (E & _); contradiction] |].
  destruct (String.eqb_spec s "gaussian");
    [split; [discriminate | intros (_ & E & _); contradiction] |].
  destruct (String.eqb_spec s "special");
    [split; [discriminate | intros (_ & _ & E & _); contradiction] |].
  destruct (String.eqb_spec s "pareto");
    [split; [discriminate | intros (_ & _ & _ & E); contradiction] |].
  split; auto.
Qed.

Lemma sb_rand_init_bound {L : Type} `{Libc L} `{Libm}
  (o : options) (tid : nat) (w : world L) ty f :
  select_rand_type (opt_rand_type o) = Some (ty, f) ->
  fst (sb_rand_init o tid w) = 0
  /\ w_statics (snd (sb_rand_init o tid w)) = configure o ty f.
Proof.
  intros Hsel. unfold sb_rand_init. rewrite Hsel. cbn [fst snd].
  unfold thread_init. cbn [w_libc].
  destruct (sb_rand_thread_init (w_libc w)). split; reflexivity.
Qed.

(** What a failed [sb_rand_init] leaves behind: the seed option stored, one
    fatal message logged, and everything else as it was; [sb_rand_default]
    behaves as before the call. *)
Lemma sb_rand_init_failure {L G : Type} `{Libc L} `{Libm} `{BitGenerator G}
  (o : options) (tid : nat) (w : world L) :
  fst (sb_rand_init o tid w) <> 0 ->
  snd (sb_rand_init o tid w)
  = {| w_statics := set_sb_rand_seed (opt_rand_seed o) (w_statics w);
       sb_rng_state := sb_rng_state w;
       w_libc := w_libc w;
       w_log := w_log w
                ++ [(LOG_FATAL, invalid_distribution_message (opt_rand_type o))] |}
  /\ forall a b (g : G),
      sb_rand_default (w_statics (snd (sb_rand_init o tid w))) a b g
      = sb_rand_default (w_statics w) a b g.
Proof.
  unfold sb_rand_init.
  destruct (select_rand_type (opt_rand_type o)) as [[ty f] |]; cbn [fst snd];
    intros Hrc; [lia |].
  split; [reflexivity |].
  intros a b g. cbn [w_statics]. unfold sb_rand_default.
  cbn [rand_func set_sb_rand_seed].
  destruct (rand_func (w_statics w)) as [[| | |] |]; reflexivity.
Qed.

(** C8.  [sb_rand_init] returns a non-zero value exactly when the
    [rand-type] string is none of the four distribution names.  It has then
    logged one fatal message, stored the seed option and changed nothing
    else: the generator states, libc's generator and [rand_func] are as they
    were, and [sb_rand_default] behaves as it did before the call, so
    generation is not stopped; only a dispatcher that was unbound stays
    unbound, and [sb_rand_default] then yields no value.  For each of the four
    names it returns 0 and [sb_rand_default] is the corresponding distribution
    function. *)
Theorem sb_rand_init_result {L G : Type} `{Libc L} `{Libm} `{BitGenerator G}
  (o : options) (tid : nat) (w : world L) :
  let s := opt_rand_type o in
  let rc := fst (sb_rand_init o tid w) in
  let st' := w_statics (snd (sb_rand_init o tid w)) in
  (rc <> 0 <-> s <> "uniform"%string /\ s <> "gaussian"%string
               /\ s <> "special"%string /\ s <> "pareto"%string)
  /\ (rc <> 0 ->
      w_log (snd (sb_rand_init o tid w))
      = w_log w ++ [(LOG_FATAL, invalid_distribution_message s)]
      /\ st' = set_sb_rand_seed (opt_rand_seed o) (w_statics w)
      /\ sb_rng_state (snd (sb_rand_init o tid w)) = sb_rng_state w
      /\ w_libc (snd (sb_rand_init o tid w)) = w_libc w
      /\ rand_func st' = rand_func (w_statics w)
      /\ (forall a b (g : G),
            sb_rand_default st' a b g = sb_rand_default (w_statics w) a b g)
      /\ (rand_func (w_statics w) = None ->
          forall a b (g : G), sb_rand_default st' a b g = None))
  /\ (s = "uniform"%string ->
      rc = 0 /\ forall a b (g : G), sb_rand_default st' a b g = sb_rand_uniform a b g)
  /\ (s = "gaussian"%string ->
      rc = 0 /\ forall a b (g : G), sb_rand_default st' a b g = sb_rand_gaussian st' a b g)
  /\ (s = "special"%string ->
      rc = 0 /\ forall a b (g : G), sb_rand_default st' a b g = sb_rand_special st' a b g)
  /\ (s = "pareto"%string ->
      rc = 0 /\ forall a b (g : G), sb_rand_default st' a b g = sb_rand_pareto st' a b g).
Proof.
  cbv zeta.
  assert (Hbound : forall name ty f,
             select_rand_type name = Some (ty, f) ->
             opt_rand_type o = name ->
             fst (sb_rand_init o tid w) = 0
             /\ forall a b (g : G),
                 sb_rand_default (w_statics (snd (sb_rand_init o tid w))) a b g
                 = call_rand_func f (w_statics (snd (sb_rand_init o tid w))) a b g).
  { intros name ty f Hsel <-.
    destruct (sb_rand_init_bound o tid w ty f Hsel) as [Hrc Hst].
    split; [assumption |]. intros a b g. now rewrite Hst. }
  split; [| split; [| repeat split]].
  - rewrite <- select_rand_type_None. unfold sb_rand_init.
    destruct (select_rand_type (opt_rand_type o)) as [[ty f] |]; cbn [fst];
      split; intros; solve [discriminate | congruence | lia].
  - intros Hrc.
    destruct (sb_rand_init_failure (G := G) o tid w Hrc) as [Hw Hdefault].
    rewrite Hw. cbn [w_log w_statics sb_rng_state w_libc rand_func set_sb_rand_seed].
    do 5 (split; [reflexivity |]). split.
    + intros a b g. rewrite <- (Hdefault a b g), Hw. reflexivity.
    + intros Hnull a b g. unfold sb_rand_default.
      cbn [rand_func set_sb_rand_seed]. now rewrite Hnull.
  - now apply (Hbound "uniform"%string DIST_TYPE_UNIFORM Ptr_sb_rand_uniform).
  - now apply (Hbound "uniform"%string DIST_TYPE_UNIFORM Ptr_sb_rand_uniform).
  - now apply (Hbound "gaussian"%string DIST_TYPE_GAUSSIAN Ptr_sb_rand_gaussian).
  - now apply (Hbound "gaussian"%string DIST_TYPE_GAUSSIAN Ptr_sb_rand_gaussian).
  - now apply (Hbound "special"%string DIST_TYPE_SPECIAL Ptr_sb_rand_special).
  - now apply (Hbound "special"%string DIST_TYPE_SPECIAL Ptr_sb_rand_special).
  - now apply (Hbound "pareto"%string DIST_TYPE_PARETO Ptr_sb_rand_pareto).
  - now apply (Hbound "pareto"%string DIST_TYPE_PARETO Ptr_sb_rand_pareto).
Qed.

(** Generation after a failed initialisation.  After a successful
    [sb_rand_init] with the default options, a second one with the unknown
    name ["bogus"] returns 1 and [sb_rand_default] still draws from the special
    distribution.  And in a fresh process whose only [sb_rand_init] fails,
    [sb_rand_uniform] and [sb_rand_uniq] return values all the same: nothing
    of [sb_rand.c] records that the initialisation failed. *)
Lemma sb_rand_init_failure_then_generation :
  fst (sb_rand_init options_bogus 0
         (snd (sb_rand_init options_default 0 (world_start (L := list Z) []))))
  = 1
  /\ sb_rand_default
       (w_statics
          (snd (sb_rand_init options_bogus 0
                  (snd (sb_rand_init options_default 0
                          (world_start (L := list Z) []))))))
       0 9 [of_dyadic 1 (-1)]
     = Some (5, [])
  /\ fst (run options_bogus 0
            [Call_init 0; Call_thread_init 0; Call_uniform 0 0 4000000000;
             Call_uniq 0 9; Call_uniq 0 9]
            (world_start (L := list Z) [3; 4; 5; 6]))
     = [Out_int 1; Out_void; Out_uint32 7; Out_uint32 0; Out_uint32 7].
Proof. vm_compute. repeat split. Qed.

(** ** Reproducibility *)

Lemma exec_time_independent {L : Type} `{Libc L} `{Libm}
  `{BitGenerator sb_rng_state_t}
  (o : options) (c : call) (w : world L) (now1 now2 : Z) :
  opt_rand_seed o <> 0 -> exec o now1 c w = exec o now2 c w.
Proof.
  intros Hseed. destruct c; try reflexivity.
  cbn [exec]. unfold seed_entropy_source.
  destruct (Z.eqb_spec (opt_rand_seed o) 0) as [E | _]; [contradiction |].
  reflexivity.
Qed.

(** From the same process state, an execution with a non-zero seed option
    does not depend on the time at which it runs. *)
Lemma run_time_independent {L : Type} `{Libc L} `{Libm}
  `{BitGenerator sb_rng_state_t}
  (o : options) (cs : list call) (w : world L) (now1 now2 : Z) :
  opt_rand_seed o <> 0 ->
  run o now1 cs w = run o now2 cs w.
Proof.
  intros Hseed. revert w.
  induction cs as [| c cs IH]; intros w; [reflexivity |].
  cbn [run]. rewrite (exec_time_independent o c w now1 now2 Hseed).
  destruct (exec o now2 c w) as [[out w'] |]; [| reflexivity].
  now rewrite IH.
Qed.


(** Two executions that share everything at the start share it throughout,
    so every sequence of calls passes the check. *)
Lemma calls_agreed_same_process (o : options) (cs : list call) (K : agreement) :
  agree_libc K = true -> agree_statics K = true ->
  (forall tid, agree_thread K tid = true) ->
  calls_agreed o cs K = true.
Proof.
  revert K. induction cs as [| c cs IH]; intros K Hl Hs Ht; [reflexivity |].
  cbn [calls_agreed]. apply andb_true_iff. split.
  - destruct c; cbn [reads_agreed]; rewrite ?Hs, ?Ht; reflexivity.
  - apply IH; destruct c; cbv beta iota zeta delta [after_call];
      try destruct (select_rand_type (opt_rand_type o));
      cbn [agree_libc agree_statics agree_thread]; try assumption;
      try reflexivity;
      intros t; destruct (Nat.eqb t tid); auto.
Qed.







(** The seed is what the executions share.  The same calls from the same
    process state with the seeds 42 and 43 end in different outcomes; and
    without the seeding of the entropy source, two processes with the seed 42
    whose libc generators differ at the start draw different values. *)
Lemma execution_depends_on_seed :
  fst (run options_seeded 0
         [Call_seed_entropy; Call_init 0; Call_uniform 0 0 4000000000]
         (world_start (L := list Z) []))
  <> fst (run options_seeded_43 0
            [Call_seed_entropy; Call_init 0; Call_uniform 0 0 4000000000]
            (world_start (L := list Z) [])).
Proof. vm_compute. discriminate. Qed.

Lemma execution_depends_on_libc_without_seeding :
  fst (run options_seeded 0
         [Call_init 0; Call_uniform 0 0 4000000000]
         (world_start (L := list Z) [3; 4; 5; 6]))
  <> fst (run options_seeded 0
            [Call_init 0; Call_uniform 0 0 4000000000]
            (world_start (L := list Z) [])).
Proof. vm_compute. discriminate. Qed.

(** Without a seed option the time does matter: the same calls at two
    different times seed thread 1 differently and it draws different values. *)
Lemma execution_depends_on_time_without_seed :
  fst (run options_default 1000
         [Call_init 0; Call_seed_entropy; Call_thread_init 1;
          Call_uniform 1 0 4000000000]
         (world_start (L := list Z) []))
  <> fst (run options_default 2000
            [Call_init 0; Call_seed_entropy; Call_thread_init 1;
             Call_uniform 1 0 4000000000]
            (world_start [])).
Proof. vm_compute. discriminate. Qed.

(** ** Sequences of unique ids *)

Lemma no_divisor_from_sound n d fuel :
  0 < d -> no_divisor_from n d fuel = true ->
  forall x, d <= x < d + Z.of_nat fuel -> ~ (x | n).
Proof.
  revert d. induction fuel as [| fuel IH]; intros d Hd Hcheck x Hx; [lia |].
  cbn [no_divisor_from] in Hcheck. apply andb_true_iff in Hcheck as [Hd0 Hrest].
  destruct (Z.eq_dec x d) as [-> | Hne].
  - intros Hdiv. apply Z.mod_divide in Hdiv; [| lia].
    rewrite Hdiv in Hd0. discriminate.
  - apply (IH (d + 1)); [lia | exact Hrest | lia].
Qed.

(** The step of the counter is what its name says: 2^31 - 1 is prime (no
    number from 2 to 46341 divides it, and 46342^2 exceeds it). *)
Lemma LARGE_PRIME_prime : Z.prime LARGE_PRIME.
Proof.
  split; [reflexivity |].
  intros n Hn Hdiv.
  assert (Hcheck : no_divisor_from LARGE_PRIME 2 (Z.to_nat 46340) = true)
    by (vm_compute; reflexivity).
  pose proof (no_divisor_from_sound LARGE_PRIME 2 (Z.to_nat 46340) ltac:(lia) Hcheck)
    as Hnone.
  destruct Hdiv as [q Hq]. unfold LARGE_PRIME in *.
  assert (Hqpos : 1 < q).
  { destruct (Z.le_gt_cases q 1) as [Hle | Hgt]; [exfalso | exact Hgt].
    destruct (Z.eq_dec q 1) as [-> | Hne]; [lia |].
    assert (q * n <= 0) by (apply Z.mul_nonpos_nonneg; lia). lia. }
  destruct (Z.le_gt_cases n 46341) as [Hsmall | Hbig].
  - apply (Hnone n); [lia | now exists q].
  - apply (Hnone q); [| exists n; lia].
    split; [lia |].
    destruct (Z.le_gt_cases 46342 q) as [Hq2 | Hq2]; [exfalso | lia].
    assert (46342 * 46342 <= q * n) by (apply Z.mul_le_mono_nonneg; lia). lia.
Qed.

Lemma sb_rand_uniq_value (a b : Z) (st : statics) :
  0 <= a <= b -> b < 2 ^ 32 -> b - a + 1 < 2 ^ 32 ->
  sb_rand_uniq a b st =
    Some (a + rnd_seed st mod (b - a + 1),
          set_rnd_seed ((rnd_seed st + LARGE_PRIME) mod 2 ^ 64) st).
Proof.
  intros Hab Hb Hw.
  assert (Hn : 0 < b - a + 1) by lia.
  pose proof (Z.mod_pos_bound (rnd_seed st) (b - a + 1) Hn) as Hm.
  unfold sb_rand_uniq.
  rewrite (wrap32_small (b - a + 1)) by lia.
  destruct (Z.eqb_spec (b - a + 1) 0) as [E | _]; [lia |].
  rewrite (wrap32_small (rnd_seed st mod (b - a + 1))) by lia.
  rewrite wrap32_small by lia.
  unfold wrap64. now rewrite Z.add_comm.
Qed.

Lemma sb_rand_uniq_calls_values (rs : list (Z * Z)) (st : statics) :
  Forall valid_range rs ->
  0 <= rnd_seed st < 2 ^ 64 ->
  sb_rand_uniq_calls rs st =
    Some (imap (fun i r =>
                  fst r + ((rnd_seed st + Z.of_nat i * LARGE_PRIME) mod 2 ^ 64)
                          mod (snd r - fst r + 1)) rs,
          set_rnd_seed ((rnd_seed st + Z.of_nat (length rs) * LARGE_PRIME) mod 2 ^ 64)
            st).
Proof.
  intros Hrs. revert st. induction Hrs as [| [a b] rs (Hab & Hb & Hw) _ IH];
    intros st Hc.
  - cbn [sb_rand_uniq_calls imap length Z.of_nat].
    rewrite Z.mul_0_l, Z.add_0_r, Z.mod_small by lia. now destruct st.
  - cbn [sb_rand_uniq_calls fst snd] in *.
    rewrite sb_rand_uniq_value by assumption.
    rewrite IH by (cbn [rnd_seed set_rnd_seed]; apply Z.mod_pos_bound; lia).
    cbn [imap fst snd rnd_seed set_rnd_seed length].
    change (Z.of_nat 0) with 0.
    rewrite Z.mul_0_l, Z.add_0_r, (Z.mod_small (rnd_seed st) (2 ^ 64)) by lia.
    f_equal. f_equal; [f_equal |].
    + apply imap_ext. intros i [a' b'] _. cbn [fst snd compose].
      rewrite Zplus_mod_idemp_l. do 3 f_equal. lia.
    + rewrite Zplus_mod_idemp_l.
      replace (rnd_seed st + LARGE_PRIME + Z.of_nat (length rs) * LARGE_PRIME)
        with (rnd_seed st + Z.of_nat (S (length rs)) * LARGE_PRIME) by lia.
      reflexivity.
Qed.

(** X3.  Successive calls of [sb_rand_uniq] advance one counter, whatever
    the ranges asked for: from a counter [c], call number [i] (from 0) on a
    range [[a, b]] returns [a + ((c + i * 2147483647) mod 2^64) mod (b - a + 1)],
    and after [n] calls the counter is [(c + n * 2147483647) mod 2^64], no
    other static having changed. *)
Theorem sb_rand_uniq_calls_spec (rs : list (Z * Z)) (st : statics) :
  Forall valid_range rs ->
  0 <= rnd_seed st < 2 ^ 64 ->
  sb_rand_uniq_calls rs st =
    Some (imap (fun i r =>
                  fst r + ((rnd_seed st + Z.of_nat i * LARGE_PRIME) mod 2 ^ 64)
                          mod (snd r - fst r + 1)) rs,
          set_rnd_seed ((rnd_seed st + Z.of_nat (length rs) * LARGE_PRIME) mod 2 ^ 64)
            st).
Proof. exact (sb_rand_uniq_calls_values rs st). Qed.

Lemma sb_rand_uniq_calls_spec_witness :
  sb_rand_uniq_calls [(5, 9); (0, 99)] (set_rnd_seed LARGE_PRIME statics_zero) =
    Some (imap (fun i r =>
                  fst r + ((rnd_seed (set_rnd_seed LARGE_PRIME statics_zero)
                            + Z.of_nat i * LARGE_PRIME) mod 2 ^ 64)
                          mod (snd r - fst r + 1)) [(5, 9); (0, 99)],
          set_rnd_seed ((rnd_seed (set_rnd_seed LARGE_PRIME statics_zero)
                         + Z.of_nat (length [(5, 9); (0, 99)]) * LARGE_PRIME)
                        mod 2 ^ 64)
            (set_rnd_seed LARGE_PRIME statics_zero)).
Proof.
  apply (sb_rand_uniq_calls_spec [(5, 9); (0, 99)]
           (set_rnd_seed LARGE_PRIME statics_zero)).
  - repeat constructor; cbn; lia.
  - cbn [rnd_seed set_rnd_seed]. unfold LARGE_PRIME. lia.
Defined.

(** The values of successive calls on one range. *)
Lemma imap_const_range (a b c : Z) (n : nat) :
  imap (fun i (r : Z * Z) =>
          fst r + ((c + Z.of_nat i * LARGE_PRIME) mod 2 ^ 64)
                   mod (snd r - fst r + 1)) (repeat (a, b) n)
  = map (fun i => a + ((c + Z.of_nat i * LARGE_PRIME) mod 2 ^ 64) mod (b - a + 1))
        (seq 0 n).
Proof.
  assert (Hgen : forall k,
    imap (fun i (r : Z * Z) =>
          fst r + ((c + Z.of_nat (k + i) * LARGE_PRIME) mod 2 ^ 64)
                   mod (snd r - fst r + 1)) (repeat (a, b) n)
    = map (fun i => a + ((c + Z.of_nat i * LARGE_PRIME) mod 2 ^ 64) mod (b - a + 1))
        (seq k n)).
  { induction n as [| n IH]; intros k; [reflexivity |].
    cbn [repeat imap seq map fst snd]. rewrite Nat.add_0_r. f_equal.
    rewrite <- IH. apply imap_ext. intros i r _. cbn [compose].
    now replace (k + S i)%nat with (S k + i)%nat by lia. }
  exact (Hgen 0%nat).
Qed.

Lemma repeat_valid_range (a b : Z) (n : nat) :
  0 <= a <= b -> b < 2 ^ 32 -> b - a + 1 < 2 ^ 32 ->
  Forall valid_range (repeat (a, b) n).
Proof.
  intros Hab Hb Hw. apply List.Forall_forall. intros r Hr.
  apply repeat_spec in Hr. subst r. unfold valid_range. cbn [fst snd]. lia.
Qed.

(** X4.  The ids are unique.  On a range [[a, b]] whose width [w = b - a + 1]
    is not a multiple of 2147483647, and as long as the 64-bit counter does
    not wrap around, [n <= w] successive calls of [sb_rand_uniq] return [n]
    pairwise different values of [[a, b]]; [w] successive calls return every
    value of the range, each once. *)
Theorem sb_rand_uniq_distinct (a b : Z) (n : nat) (st : statics) :
  0 <= a <= b -> b < 2 ^ 32 -> b - a + 1 < 2 ^ 32 ->
  (b - a + 1) mod 2147483647 <> 0 ->
  0 <= rnd_seed st ->
  rnd_seed st + Z.of_nat n * 2147483647 <= 2 ^ 64 ->
  Z.of_nat n <= b - a + 1 ->
  exists (vs : list Z) (st' : statics),
    sb_rand_uniq_calls (repeat (a, b) n) st = Some (vs, st')
    /\ length vs = n
    /\ List.NoDup vs
    /\ Forall (fun v => a <= v <= b) vs
    /\ (Z.of_nat n = b - a + 1 -> forall v, a <= v <= b -> In v vs).
Proof.
  intros Hab Hb Hw Hmult Hc Hwrap Hn.
  set (w := b - a + 1) in *. set (c := rnd_seed st) in *.
  assert (Hw0 : 0 < w) by (unfold w; lia).
  destruct n as [| n'].
  { exists [], st. cbn. repeat split; try constructor. lia. }
  set (n := S n') in *.
  assert (Hc64 : 0 <= c < 2 ^ 64) by (unfold LARGE_PRIME in *; lia).
  eexists _, _. split.
  { rewrite sb_rand_uniq_calls_values; [reflexivity | | exact Hc64].
    now apply repeat_valid_range. }
  fold c. rewrite imap_const_range. fold w.
  set (f := fun i : nat => a + ((c + Z.of_nat i * LARGE_PRIME) mod 2 ^ 64) mod w).
  assert (Hf : forall i, (i < n)%nat ->
             f i = a + (c + Z.of_nat i * LARGE_PRIME) mod w).
  { intros i Hi. unfold f. rewrite (Z.mod_small _ (2 ^ 64)); [reflexivity |].
    unfold LARGE_PRIME in *. lia. }
  assert (Hrel : Z.gcd w LARGE_PRIME = 1).
  { rewrite Z.gcd_comm. apply Z.coprime_prime_l; [exact LARGE_PRIME_prime |].
    intros Hdiv. apply Hmult. apply Z.mod_divide in Hdiv; [exact Hdiv |].
    unfold LARGE_PRIME. lia. }
  assert (Hinj : forall i j, (i < n)%nat -> (j < n)%nat -> f i = f j -> i = j).
  { assert (Hlt : forall i j, (i < j)%nat -> (j < n)%nat -> f i <> f j).
    { intros i j Hij Hj E. rewrite !Hf in E by lia.
      assert (E' : (c + Z.of_nat j * LARGE_PRIME) mod w
                   = (c + Z.of_nat i * LARGE_PRIME) mod w) by lia.
      assert (Hdiv : (w | (Z.of_nat j - Z.of_nat i) * LARGE_PRIME)).
      { apply Z.mod_divide; [lia |].
        replace ((Z.of_nat j - Z.of_nat i) * LARGE_PRIME)
          with ((c + Z.of_nat j * LARGE_PRIME) - (c + Z.of_nat i * LARGE_PRIME))
          by ring.
        rewrite Zminus_mod, E', Z.sub_diag. apply Z.mod_0_l. lia. }
      rewrite Z.mul_comm in Hdiv.
      apply Z.gauss in Hdiv; [| exact Hrel].
      apply Z.divide_pos_le in Hdiv; lia. }
    intros i j Hi Hj E.
    destruct (Nat.lt_trichotomy i j) as [Hij | [Hij | Hij]]; [| exact Hij |].
    - exfalso. now apply (Hlt i j).
    - exfalso. now apply (Hlt j i). }
  assert (Hnodup : List.NoDup (map f (seq 0 n))).
  { apply NoDup_map_NoDup_ForallPairs; [| apply seq_NoDup].
    intros i j Hi Hj. apply in_seq in Hi, Hj. apply Hinj; lia. }
  assert (Hrange : Forall (fun v => a <= v <= b) (map f (seq 0 n))).
  { apply List.Forall_forall. intros v Hv. apply in_map_iff in Hv as (i & <- & Hi).
    apply in_seq in Hi. rewrite Hf by lia.
    pose proof (Z.mod_pos_bound (c + Z.of_nat i * LARGE_PRIME) w Hw0).
    unfold w in *. lia. }
  split; [now rewrite length_map, length_seq |].
  split; [exact Hnodup |]. split; [exact Hrange |].
  intros Hfull v Hv.
  assert (Hincl : incl (map (fun i => a + Z.of_nat i) (seq 0 n)) (map f (seq 0 n))).
  { apply NoDup_length_incl; [exact Hnodup | now rewrite !length_map |].
    intros x Hx. rewrite List.Forall_forall in Hrange. apply Hrange in Hx.
    apply in_map_iff. exists (Z.to_nat (x - a)). split; [lia |].
    apply in_seq. unfold w in *. lia. }
  apply Hincl. apply in_map_iff. exists (Z.to_nat (v - a)). split; [lia |].
  apply in_seq. unfold w in *. lia.
Qed.

Lemma sb_rand_uniq_distinct_witness :
  exists (vs : list Z) (st' : statics),
    sb_rand_uniq_calls (repeat (5, 9) 5) (set_rnd_seed LARGE_PRIME statics_zero)
    = Some (vs, st')
    /\ length vs = 5%nat
    /\ List.NoDup vs
    /\ Forall (fun v => 5 <= v <= 9) vs
    /\ (Z.of_nat 5 = 9 - 5 + 1 -> forall v, 5 <= v <= 9 -> In v vs).
Proof.
  apply (sb_rand_uniq_distinct 5 9 5 (set_rnd_seed LARGE_PRIME statics_zero));
    cbn [rnd_seed set_rnd_seed]; unfold LARGE_PRIME;
    first [lia | vm_compute; discriminate].
Defined.

(** X5.  The ids are not unique on a range of width 2147483647.  There, as
    long as the 64-bit counter does not wrap around, every call of
    [sb_rand_uniq] returns the same value, [a + c mod 2147483647] for the
    counter [c] of the first call: after [sb_rand_init], which sets the
    counter to 2147483647, that value is [a]. *)
Theorem sb_rand_uniq_constant (a b : Z) (n : nat) (st : statics) :
  0 <= a -> b < 2 ^ 32 -> b - a + 1 = 2147483647 ->
  0 <= rnd_seed st ->
  rnd_seed st + Z.of_nat n * 2147483647 <= 2 ^ 64 ->
  exists st' : statics,
    sb_rand_uniq_calls (repeat (a, b) n) st
    = Some (repeat (a + rnd_seed st mod 2147483647) n, st').
Proof.
  intros Ha Hb Hw Hc Hwrap.
  destruct n as [| n'].
  { exists st. reflexivity. }
  set (n := S n') in *.
  eexists. rewrite sb_rand_uniq_calls_values.
  - f_equal. f_equal. rewrite imap_const_range, Hw.
    set (c := rnd_seed st) in *.
    assert (Hall : forall m k, (k + m <= n)%nat ->
      map (fun i => a + ((c + Z.of_nat i * LARGE_PRIME) mod 2 ^ 64) mod 2147483647)
          (seq k m)
      = repeat (a + c mod 2147483647) m).
    { induction m as [| m IH]; intros k Hk; [reflexivity |].
      cbn [seq map repeat]. rewrite IH by lia. f_equal. f_equal.
      rewrite (Z.mod_small _ (2 ^ 64)) by (unfold LARGE_PRIME; lia).
      unfold LARGE_PRIME. apply Z.mod_add. lia. }
    apply (Hall n 0%nat). lia.
  - apply repeat_valid_range; lia.
  - lia.
Qed.

Lemma sb_rand_uniq_constant_witness :
  exists st' : statics,
    sb_rand_uniq_calls (repeat (10, 2147483656) 4) statics_default
    = Some (repeat (10 + rnd_seed statics_default mod 2147483647) 4, st').
Proof.
  apply (sb_rand_uniq_constant 10 2147483656 4 statics_default);
    cbn [rnd_seed statics_default configure]; unfold LARGE_PRIME; lia.
Defined.

(** ** Seeding: the words of the state *)

Lemma land_shiftl_low (hi lo : Z) :
  0 <= lo < 2 ^ 32 -> Z.land (Z.shiftl hi 32) lo = 0.
Proof.
  intros Hlo. apply Z.bits_inj'. intros k Hk.
  rewrite Z.land_spec, Z.bits_0.
  destruct (Z.lt_ge_cases k 32) as [Hlt | Hge].
  - now rewrite Z.shiftl_spec_low.
  - rewrite <- (Z.mod_small lo (2 ^ 32)) by assumption.
    rewrite Z.mod_pow2_bits_high by lia. apply andb_false_r.
Qed.

Lemma lor_shiftl_add (hi lo : Z) :
  0 <= lo < 2 ^ 32 -> Z.lor (Z.shiftl hi 32) lo = hi * 2 ^ 32 + lo.
Proof.
  intros Hlo.
  rewrite <- Z.shiftl_mul_pow2 by lia.
  rewrite <- Z.lxor_lor, <- Z.add_nocarry_lxor; try reflexivity;
    now apply land_shiftl_low.
Qed.

Lemma seed_word_value (r_hi r_lo : Z) :
  seed_word r_hi r_lo = seed_half r_hi * 2 ^ 32 + seed_half r_lo.
Proof.
  unfold seed_word.
  pose proof (seed_half_range r_hi) as Hh. pose proof (seed_half_range r_lo) as Hl.
  unfold UINT32_MAX in *.
  rewrite wrap64_small by (rewrite Z.shiftl_mul_pow2; lia).
  apply lor_shiftl_add. lia.
Qed.

Lemma seed_half_in_range r : 0 <= r <= 2147483647 -> seed_half r = r.
Proof.
  intros Hr. unfold seed_half, UINT32_MAX.
  rewrite wrap64_small by lia. apply Z.mod_small. lia.
Qed.

(** X6.  [sb_rand_thread_init] stores the four values of [random] as they
    are.  When they are in the range of [random], 0 to 2^31 - 1, the high and
    low 32-bit halves of the two state words are these four values, in the
    order of the calls: the state determines them, and bits 31 and 63 of
    each word are zero. *)
Theorem sb_rand_thread_init_words {L : Type} `{Libc L} (l : L) :
  Forall (fun r => 0 <= r <= 2147483647) (fst (randoms 4 l)) ->
  let (w0, w1) := fst (sb_rand_thread_init l) in
  [w0 / 2 ^ 32; w0 mod 2 ^ 32; w1 / 2 ^ 32;  w1 mod 2 ^ 32] = fst (randoms 4 l)
  /\ 0 <= w0 < 2 ^ 63 /\ w0 mod 2 ^ 32 < 2 ^ 31
  /\ 0 <= w1 < 2 ^ 63 /\ w1 mod 2 ^ 32 < 2 ^ 31
  /\ snd (sb_rand_thread_init l) = snd (randoms 4 l).
Proof.
  destruct (sb_rand_thread_init_randoms l) as (r1 & r2 & r3 & r4 & Hrs & Hinit).
  rewrite Hinit, Hrs. cbn [fst snd].
  rewrite !Forall_cons_iff. intros (R1 & R2 & R3 & R4 & _).
  rewrite !seed_word_value, !seed_half_in_range by assumption.
  rewrite !Z.div_add_l, !(Z.div_small _ (2 ^ 32)), !Z.add_0_r by lia.
  rewrite !(Z.add_comm (_ * 2 ^ 32)), !Z.mod_add, !Z.mod_small by lia.
  repeat split; lia.
Qed.

Lemma sb_rand_thread_init_words_witness :
  let (w0, w1) := fst (sb_rand_thread_init [1804289383; 846930886; 1681692777; 1714636915]) in
  [w0 / 2 ^ 32; w0 mod 2 ^ 32; w1 / 2 ^ 32;  w1 mod 2 ^ 32]
  = fst (randoms 4 [1804289383; 846930886; 1681692777; 1714636915])
  /\ 0 <= w0 < 2 ^ 63 /\ w0 mod 2 ^ 32 < 2 ^ 31
  /\ 0 <= w1 < 2 ^ 63 /\ w1 mod 2 ^ 32 < 2 ^ 31
  /\ snd (sb_rand_thread_init [1804289383; 846930886; 1681692777; 1714636915])
     = snd (randoms 4 [1804289383; 846930886; 1681692777; 1714636915]).
Proof.
  apply (sb_rand_thread_init_words [1804289383; 846930886; 1681692777; 1714636915]).
  change (fst (randoms 4 [1804289383; 846930886; 1681692777; 1714636915]))
    with [1804289383; 846930886; 1681692777; 1714636915].
  repeat constructor; lia.
Defined.

(** ** The string formatter: the size of the buffer *)

(** X7.  [sb_rand_str] stores one byte for every character of the template
    before its terminating null character, whatever the size of the buffer:
    when the buffer holds fewer than [strlen fmt] bytes the call writes past
    its end, and has no defined result. *)
Theorem sb_rand_str_overflow {G : Type} `{BitGenerator G}
  (fmt : string) (buf : list ascii) (g : G) :
  (length buf < strlen fmt)%nat -> sb_rand_str fmt buf g = None.
Proof.
  intros Hshort. unfold sb_rand_str.
  destruct (sb_rand_str_from 0 fmt buf g) as [[buf' g'] |] eqn:Hrun; [| reflexivity].
  apply sb_rand_str_from_frame in Hrun; [| lia]. lia.
Qed.

Lemma sb_rand_str_overflow_witness :
  sb_rand_str "a#" ["x"]%char [of_dyadic 1 (-1)] = None.
Proof.
  apply (sb_rand_str_overflow "a#" ["x"]%char [of_dyadic 1 (-1)]). cbn. lia.
Defined.

(** ** Option values the initialisation does not check *)

Lemma wrap32_range z : 0 <= wrap32 z < 2 ^ 32.
Proof. unfold wrap32. apply Z.mod_pos_bound. lia. Qed.

(** A converted [uint32_t] is zero or a positive finite double. *)
Lemma of_int_wrap32_nonneg z : nonneg (of_int (wrap32 z)).
Proof. apply of_int_exact. pose proof (wrap32_range z). lia. Qed.

(** X8.  [sb_rand_init] accepts [rand-spec-iter = 0].  It then computes
    [rand_iter_mult = 1.0 / 0] = plus infinity, the loops run no iteration,
    and the product of the zero sum and the infinity is not a number:
    [sb_rand_gaussian] reaches an undefined conversion on every call, and so
    does [sb_rand_special] whenever it takes its first branch. *)
Theorem sb_rand_zero_iterations {G : Type} `{BitGenerator G} `{Libm}
  (o : options) (ty : rand_dist_t) (f : rand_func_t) (a b : Z) (g : G) :
  wrap32 (opt_rand_spec_iter o) = 0 ->
  let st := configure o ty f in
  sb_rand_gaussian st a b g = None
  /\ (ltb (mul (fst (sb_rand_uniform_double g))
               (mul (of_int (wrap32 (b - a))) (rand_res_mult st)))
          (of_int (wrap32 (b - a))) = true ->
      sb_rand_special st a b g = None).
Proof.
  intros Hiter st. subst st. split.
  - unfold sb_rand_gaussian. cbn [rand_iter rand_iter_mult configure].
    rewrite Hiter. reflexivity.
  - intros Hcold. unfold sb_rand_special.
    destruct (sb_rand_uniform_double g) as [rnd g1] eqn:Hdraw. cbn [fst] in Hcold.
    rewrite (bind_draw _ _ _ _ Hdraw). cbv zeta. rewrite Hcold.
    cbn [rand_iter rand_iter_mult configure]. rewrite Hiter.
    change (Z.to_nat 0) with 0%nat. cbn [special_loop]. unfold bind, ret.
    pose proof (of_int_wrap32_nonneg (b - a)) as Ht.
    change (div one (of_int 0)) with (S754_infinity false).
    destruct (of_int (wrap32 (b - a))) as [s | s | | [|] m e]; try contradiction;
      destruct (of_int a) as [sa | sa | | sa ma ea]; reflexivity.
Qed.

Lemma sb_rand_zero_iterations_witness :
  let st := configure (options_with 0 1 75) DIST_TYPE_GAUSSIAN Ptr_sb_rand_gaussian in
  sb_rand_gaussian st 0 9 [of_dyadic 1 (-3)] = None
  /\ (ltb (mul (fst (sb_rand_uniform_double [of_dyadic 1 (-3)]))
               (mul (of_int (wrap32 (9 - 0))) (rand_res_mult st)))
          (of_int (wrap32 (9 - 0))) = true ->
      sb_rand_special st 0 9 [of_dyadic 1 (-3)] = None).
Proof.
  apply (sb_rand_zero_iterations (options_with 0 1 75) DIST_TYPE_GAUSSIAN
           Ptr_sb_rand_gaussian 0 9 [of_dyadic 1 (-3)]).
  reflexivity.
Defined.

(** X9.  [sb_rand_init] accepts [rand-spec-res = 100].  It then computes
    [rand_res_mult = 100.0 / 0] = plus infinity, and on every draw of [0, 1)
    the test [res < t] of [sb_rand_special] fails: the function never takes
    its first branch, consumes one draw and returns the value of the
    remapping formula. *)
Theorem sb_rand_special_res_100 {G : Type} `{BitGenerator G} `{Libm}
  (o : options) (ty : rand_dist_t) (f : rand_func_t) (a b : Z) (g : G) :
  wrap32 (opt_rand_spec_res o) = 100 ->
  in_unit_interval (fst (sb_rand_uniform_double g)) = true ->
  let st := configure o ty f in
  sb_rand_special st a b g
  = (k <~ cast_uint32 (special_offset st a b (fst (sb_rand_uniform_double g))) ;
     ret (wrap32 (a + k))) (snd (sb_rand_uniform_double g)).
Proof.
  intros Hres Hu st. subst st. unfold sb_rand_special.
  destruct (sb_rand_uniform_double g) as [rnd g1] eqn:Hdraw. cbn [fst snd] in *.
  rewrite (bind_draw _ _ _ _ Hdraw). cbv zeta.
  fold (special_offset (configure o ty f) a b rnd).
  replace (ltb _ _) with false; [reflexivity |].
  cbn [rand_res_mult configure]. rewrite Hres.
  change (div (of_int 100) (sub (of_int 100) (of_int 100)))
    with (S754_infinity false).
  apply in_unit_interval_val in Hu as [Hrnd _].
  pose proof (of_int_wrap32_nonneg (b - a)) as Ht.
  destruct (of_int (wrap32 (b - a))) as [s | s | | [|] m e]; try contradiction;
    destruct rnd as [sr | sr | | [|] mr er]; try contradiction; reflexivity.
Qed.

Lemma sb_rand_special_res_100_witness :
  let st := configure (options_with 12 1 100) DIST_TYPE_SPECIAL Ptr_sb_rand_special in
  sb_rand_special st 0 9 [of_dyadic 1 (-3)]
  = (k <~ cast_uint32
            (special_offset st 0 9 (fst (sb_rand_uniform_double [of_dyadic 1 (-3)]))) ;
     ret (wrap32 (0 + k))) (snd (sb_rand_uniform_double [of_dyadic 1 (-3)])).
Proof.
  apply (sb_rand_special_res_100 (options_with 12 1 100) DIST_TYPE_SPECIAL
           Ptr_sb_rand_special 0 9 [of_dyadic 1 (-3)]);
    vm_compute; reflexivity.
Defined.

(** ** The uniform distribution: ranges that start at 0, and the full range *)

(** The cast of a double between two integers. *)
Lemma cast_uint32_between {G : Type} (x : double) (lo hi : Z) (g : G) :
  nonneg x -> (IZR lo <= val x < IZR (hi + 1))%R -> hi < 2 ^ 32 ->
  exists k : Z, cast_uint32 x g = Some (k, g) /\ 0 <= k /\ lo <= k <= hi.
Proof.
  intros Hx Hv Hhi.
  destruct (to_uint32_between x lo hi Hx Hv Hhi) as (k & Hk & _ & Hk0 & Hrange).
  exists k. unfold cast_uint32. rewrite Hk. auto.
Qed.

(** X10.  On the full range of [uint32_t], where [b - a + 1] wraps around to
    0, [sb_rand_uniform] multiplies the draw by 0: it returns [a] on every
    draw of [0, 1). *)
Theorem sb_rand_uniform_full_range {G : Type} `{BitGenerator G} (a b : Z) (g : G) :
  0 <= a < 2 ^ 32 -> wrap32 (b - a + 1) = 0 ->
  in_unit_interval (fst (sb_rand_uniform_double g)) = true ->
  sb_rand_uniform a b g = Some (a, snd (sb_rand_uniform_double g)).
Proof.
  intros Ha Hwidth Hu.
  destruct (sb_rand_uniform_double g) as [u g1] eqn:Hdraw. cbn [fst snd] in *.
  apply in_unit_interval_val in Hu as [Hunn Huv].
  unfold sb_rand_uniform. rewrite (bind_draw _ _ _ _ Hdraw), Hwidth.
  destruct (of_int_exact a) as [Hann Hav]; [lia |].
  assert (Hx : nonneg (mul u (of_int 0)) /\ val (mul u (of_int 0)) = 0%R).
  { destruct u as [s | s | | [|] m e]; try contradiction; cbn; auto. }
  destruct Hx as [Hxnn Hxv].
  set (x := mul u (of_int 0)) in *.
  assert (H32 : (IZR a < IZR (2 ^ 32))%R) by (apply IZR_lt; lia).
  assert (Ha0 : (0 <= IZR a)%R) by (apply IZR_le; lia).
  assert (H64 : (IZR (2 ^ 32) <= IZR (2 ^ 52))%R) by (apply IZR_le; lia).
  assert (H52 : (IZR (2 ^ 52) <= IZR (2 ^ 64))%R) by (apply IZR_le; lia).
  destruct (add_upper (of_int a) x Hann Hxnn) as [Hynn Hyv]; [lra |].
  pose proof (add_lower a x ltac:(lia) Hxnn ltac:(lra)) as Hylow.
  assert (Hh : (half_ulp (val (of_int a) + val x) < IZR (2 ^ 32) * bpow (-53))%R).
  { apply half_ulp_lt; [lra |]. apply IZR_le. lia. }
  assert (Hsmall : (IZR (2 ^ 32) * bpow (-53) < 1)%R).
  { pose proof bpow_minus_53. pose proof (bpow_pos (-53)).
    assert (IZR (2 ^ 32) < IZR (2 ^ 53))%R by (apply IZR_lt; lia). nra. }
  destruct (cast_uint32_between (add (of_int a) x) a a g1 Hynn)
    as (k & Hk & _ & Hrange).
  - rewrite plus_IZR. lra.
  - lia.
  - rewrite Hk. f_equal. f_equal. lia.
Qed.

Lemma sb_rand_uniform_full_range_witness :
  sb_rand_uniform 0 4294967295 [u_max]
  = Some (0, snd (sb_rand_uniform_double [u_max])).
Proof.
  apply (sb_rand_uniform_full_range 0 4294967295 [u_max]);
    [lia | reflexivity | vm_compute; reflexivity].
Defined.

(** The product of a double of [0, 1) and an integer [t] is a double below
    [t]. *)
Lemma mul_unit_int_below (t : Z) (p : double) :
  1 <= t < 2 ^ 32 -> in_unit_interval p = true ->
  nonneg (mul p (of_int t)) /\ (val (mul p (of_int t)) < IZR t)%R.
Proof.
  intros Ht Hp.
  apply in_unit_interval_val in Hp as [Hpnn Hpv].
  pose proof (val_nonneg p Hpnn) as Hp0.
  destruct (of_int_exact t) as [Htnn Htv]; [lia |].
  assert (Ht1 : (1 <= IZR t)%R) by (apply IZR_le; lia).
  assert (H32 : (IZR t <= IZR (2 ^ 64))%R) by (apply IZR_le; lia).
  pose proof (bpow_pos (-53)) as H53.
  assert (Hprod : (0 <= val p * val (of_int t) < IZR t)%R) by (rewrite Htv; nra).
  destruct (mul_upper p (of_int t) Hpnn Htnn) as [Hxnn Hxv]; [lra |].
  split; [exact Hxnn |].
  pose proof (half_ulp_lt _ _ Hprod Ht1) as Hh.
  rewrite Htv in *. nra.
Qed.

(** X11.  A range that starts at 0 is not overshot: for [b] below
    [UINT32_MAX] and a draw of [0, 1), [sb_rand_uniform(0, b)] returns a
    value of [[0, b]].  (The sum [0 + x] is exact, and the product of the
    draw and [b + 1] is a double below [b + 1].) *)
Theorem sb_rand_uniform_from_zero {G : Type} `{BitGenerator G} (b : Z) (g : G) :
  0 <= b -> b + 1 < 2 ^ 32 ->
  in_unit_interval (fst (sb_rand_uniform_double g)) = true ->
  exists v : Z,
    sb_rand_uniform 0 b g = Some (v, snd (sb_rand_uniform_double g))
    /\ 0 <= v <= b.
Proof.
  intros Hb0 Hb Hu.
  destruct (sb_rand_uniform_double g) as [u g1] eqn:Hdraw. cbn [fst snd] in *.
  unfold sb_rand_uniform. rewrite (bind_draw _ _ _ _ Hdraw).
  rewrite (wrap32_small (b - 0 + 1)) by lia.
  destruct (mul_unit_int_below (b - 0 + 1) u ltac:(lia) Hu) as [Hxnn Hxv].
  set (x := mul u (of_int (b - 0 + 1))) in *.
  assert (Hadd : nonneg (add (of_int 0) x) /\ val (add (of_int 0) x) = val x).
  { destruct x as [s | s | | [|] m e]; try contradiction.
    - destruct s; cbn; auto.
    - cbn. auto. }
  destruct Hadd as [Hynn Hyv].
  destruct (cast_uint32_between (add (of_int 0) x) 0 b g1 Hynn)
    as (k & Hk & _ & Hrange).
  - rewrite Hyv. split; [now apply val_nonneg |].
    now replace (b + 1) with (b - 0 + 1) by lia.
  - lia.
  - exists k. split; [exact Hk | lia].
Qed.

Lemma sb_rand_uniform_from_zero_witness :
  exists v : Z,
    sb_rand_uniform 0 9 [u_max] = Some (v, snd (sb_rand_uniform_double [u_max]))
    /\ 0 <= v <= 9.
Proof.
  apply (sb_rand_uniform_from_zero 9 [u_max]); [lia | lia | vm_compute; reflexivity].
Defined.

(** ** Divisions: rounding from the record of a quotient *)

Lemma shr_1_unit M u mrs :
  0 < u -> shr_unit_invariant M u mrs -> shr_unit_invariant M (2 * u) (shr_1 mrs).
Proof.
  intros Hu (rem & Hrem & Hq & Hm & Hr & Hs).
  destruct mrs as [q r s]. cbn [shr_m shr_r shr_s] in *.
  assert (Hsticky : orb r s = true <-> rem <> 0).
  { rewrite orb_true_iff, Hr, Hs. lia. }
  unfold shr_unit_invariant.
  destruct q as [| [q | q |] | q]; cbn [shr_1 shr_m shr_r shr_s]; try lia.
  - exists rem.
    split; [lia | split; [lia | split; [lia | split]]].
    + apply false_iff. lia.
    + rewrite Hsticky. lia.
  - exists (u + rem).
    split; [lia | split; [lia | split; [lia | split]]].
    + apply true_iff. lia.
    + rewrite Hsticky. lia.
  - exists rem.
    split; [lia | split; [lia | split; [lia | split]]].
    + apply false_iff. lia.
    + rewrite Hsticky. lia.
  - exists (u + rem).
    split; [lia | split; [lia | split; [lia | split]]].
    + apply true_iff. lia.
    + rewrite Hsticky. lia.
Qed.

Lemma shr_iter_unit M u mrs k :
  0 < u -> shr_unit_invariant M u mrs ->
  shr_unit_invariant M (u * 2 ^ Z.of_nat k) (Nat.iter k shr_1 mrs).
Proof.
  intros Hu Hinv. induction k as [| k IH].
  - cbn [Nat.iter]. change (Z.of_nat 0) with 0. now rewrite Z.pow_0_r, Z.mul_1_r.
  - rewrite Nat2Z.inj_succ, Z.pow_succ_r by lia. cbn [Nat.iter].
    replace (u * (2 * 2 ^ Z.of_nat k)) with (2 * (u * 2 ^ Z.of_nat k)) by ring.
    apply shr_1_unit; [| exact IH].
    assert (0 < 2 ^ Z.of_nat k) by (apply Z.pow_pos_nonneg; lia). nia.
Qed.

Lemma shr_unit M u mrs e n :
  0 < u -> shr_unit_invariant M u mrs ->
  let (mrs', e') := shr mrs e n in
  e' = e + Z.max n 0 /\ shr_unit_invariant M (u * 2 ^ Z.max n 0) mrs'.
Proof.
  intros Hu Hinv. unfold shr. destruct n as [| p | p].
  - split; [lia |]. apply (shr_iter_unit M u mrs 0 Hu Hinv).
  - split; [lia |]. rewrite iter_pos_nat.
    replace (Z.max (Z.pos p) 0) with (Z.of_nat (Pos.to_nat p)) by lia.
    now apply shr_iter_unit.
  - split; [lia |]. apply (shr_iter_unit M u mrs 0 Hu Hinv).
Qed.

Lemma round_nearest_even_unit M u mrs :
  0 < u -> shr_unit_invariant M u mrs ->
  let m1 := round_nearest_even (shr_m mrs) (loc_of_shr_record mrs) in
  0 <= m1
  /\ 2 * (m1 * u) <= 2 * M + u
  /\ 2 * M <= 2 * (m1 * u) + u.
Proof.
  intros Hu (rem & Hrem & Hq & Hm & Hr & Hs).
  destruct mrs as [q r s]. cbn [shr_m shr_r shr_s] in *.
  destruct r, s; cbn [loc_of_shr_record round_nearest_even].
  - assert (u <= 2 * rem) by now apply Hr. nia.
  - assert (u <= 2 * rem) by now apply Hr.
    assert (2 * rem = u).
    { destruct (Z.eq_dec (2 * rem) u) as [E | E]; [exact E |].
      assert (false = true) by (apply Hs; lia). discriminate. }
    destruct (Z.even q); nia.
  - assert (~ u <= 2 * rem) by (intros E; apply Hr in E; discriminate). nia.
  - assert (~ u <= 2 * rem) by (intros E; apply Hr in E; discriminate). nia.
Qed.

(** The record the division starts the rounding from. *)
Lemma new_location_unit (M u q r : Z) :
  0 < u -> 0 <= q -> M = q * u + r -> 0 <= r < u ->
  shr_unit_invariant M u (shr_record_of_loc q (new_location u r)).
Proof.
  intros Hu Hq HM Hr. exists r.
  unfold new_location.
  destruct (Z.even u) eqn:Heven;
    unfold new_location_even, new_location_odd;
    (destruct (Z.eqb_spec r 0) as [Hr0 | Hr0];
     [ cbn [shr_record_of_loc shr_m shr_r shr_s];
       (split; [lia | split; [lia | split; [lia | split]]]);
       apply false_iff; lia |]).
  - destruct (Z.compare_spec (2 * r) u) as [E | E | E];
      cbn [shr_record_of_loc shr_m shr_r shr_s];
      (split; [lia | split; [lia | split; [lia | split]]]);
      first [apply true_iff; lia | apply false_iff; lia].
  - assert (Hodd : 2 * r <> u).
    { intros <-. rewrite Z.even_mul in Heven. discriminate. }
    destruct (Z.compare_spec (2 * r + 1) u) as [E | E | E];
      cbn [shr_record_of_loc shr_m shr_r shr_s];
      (split; [lia | split; [lia | split; [lia | split]]]);
      first [apply true_iff; lia | apply false_iff; lia].
Qed.

Lemma shr_record_of_loc_m q loc : shr_m (shr_record_of_loc q loc) = q.
Proof. destruct loc as [| []]; reflexivity. Qed.

(** The steps of [binary_round_aux] from the record of a quotient. *)
Lemma binary_round_aux_unit_steps s q e loc M u :
  0 < u -> shr_unit_invariant M u (shr_record_of_loc q loc) ->
  let n1 := Z.max (fexp prec emax (Zdigits2 q + e) - e) 0 in
  exists m1 m2 n2 : Z,
    0 <= m1
    /\ 2 * (m1 * (u * 2 ^ n1)) <= 2 * M + u * 2 ^ n1
    /\ 2 * M <= 2 * (m1 * (u * 2 ^ n1)) + u * 2 ^ n1
    /\ n2 = Z.max (fexp prec emax (Zdigits2 m1 + (e + n1)) - (e + n1)) 0
    /\ 0 <= m2 /\ m2 * 2 ^ n2 <= m1 < (m2 + 1) * 2 ^ n2
    /\ binary_round_aux prec emax s q e loc
       = match m2 with
         | Z0 => S754_zero s
         | Z.pos p =>
             if e + n1 + n2 <=? emax - prec then S754_finite s p (e + n1 + n2)
             else S754_infinity s
         | Z.neg _ => S754_nan
         end.
Proof.
  intros Hu Hinv n1. unfold binary_round_aux, shr_fexp.
  pose proof (shr_unit M u _ e (fexp prec emax (Zdigits2 q + e) - e) Hu Hinv) as H1.
  destruct (shr _ e _) as [mrs1 e1].
  destruct H1 as [He1 Hinv1]. fold n1 in He1, Hinv1.
  assert (Hn1 : 0 <= n1) by (unfold n1; lia).
  assert (Hu1 : 0 < u * 2 ^ n1).
  { assert (0 < 2 ^ n1) by (apply Z.pow_pos_nonneg; lia). nia. }
  pose proof (round_nearest_even_unit _ _ _ Hu1 Hinv1) as (Hm1 & Hup & Hlo).
  set (m1 := round_nearest_even (shr_m mrs1) (loc_of_shr_record mrs1)) in *.
  pose proof (shr_exact_invariant m1 e1
                (fexp prec emax (Zdigits2 m1 + e1) - e1) Hm1) as H2.
  cbn [shr_record_of_loc].
  destruct (shr _ e1 _) as [mrs2 e2].
  destruct H2 as [He2 (rem & Hrem & Hq & Hm & _)].
  exists m1, (shr_m mrs2), (Z.max (fexp prec emax (Zdigits2 m1 + e1) - e1) 0).
  subst e1.
  split; [assumption | split; [assumption | split; [assumption |]]].
  split; [reflexivity | split; [assumption | split; [lia |]]].
  subst e2. reflexivity.
Qed.

(** The rounding error of [binary_round_aux] from above, from the record of
    a quotient with at least 53 digits (or in the lowest binade): at most
    half a unit in the last place of the value [V = M / u * 2^e]. *)
Lemma binary_round_aux_unit_upper s q e loc M u (V : R) :
  0 < u -> shr_unit_invariant M u (shr_record_of_loc q loc) ->
  e <= -1074 \/ 2 ^ 52 <= q ->
  (V * IZR u = IZR M * bpow e)%R ->
  match binary_round_aux prec emax s q e loc with
  | S754_zero s' => s' = s
  | S754_finite s' m2 e2 => s' = s /\ (F2R (Z.pos m2) e2 <= V + half_ulp V)%R
  | S754_infinity s' => s' = s /\ (bpow 972 <= V + half_ulp V)%R
  | S754_nan => False
  end.
Proof.
  intros Hu Hinv Hdigits HV.
  destruct (binary_round_aux_unit_steps s q e loc M u Hu Hinv)
    as (m1 & m2 & n2 & Hm1 & Hup & _ & Hn2def & Hm2 & [Hfloor _] & ->).
  set (n1 := Z.max (fexp prec emax (Zdigits2 q + e) - e) 0) in *.
  assert (Hn1 : 0 <= n1) by (unfold n1; lia).
  assert (Hn2 : 0 <= n2) by lia.
  clear Hn2def.
  destruct Hinv as (rem & Hrem & Hq & HM & _).
  rewrite shr_record_of_loc_m in Hq, HM.
  assert (HU : (0 < IZR u)%R) by (apply IZR_lt; lia).
  pose proof (bpow_pos e) as HE.
  (* the quotient is below the value *)
  assert (HqV : (F2R q e <= V)%R).
  { unfold F2R. apply Rmult_le_reg_r with (IZR u); [exact HU |].
    rewrite HV. assert (Hle : q * u <= M) by lia.
    apply IZR_le in Hle. rewrite mult_IZR in Hle. nra. }
  assert (Hq0 : (0 <= F2R q e)%R).
  { unfold F2R. assert (0 <= IZR q)%R by (apply IZR_le; lia). nra. }
  assert (HV0 : (0 <= V)%R) by lra.
  (* the first rounding *)
  assert (Hhalf : (F2R m1 (e + n1) <= V + bpow (e + n1 - 1))%R).
  { apply IZR_le in Hup. rewrite !mult_IZR, plus_IZR, !mult_IZR in Hup.
    rewrite <- (bpow_IZR n1) in Hup by assumption.
    unfold F2R. rewrite bpow_add.
    replace (e + n1 - 1) with (n1 + (e - 1)) by lia.
    rewrite (bpow_add n1). rewrite (bpow_half e) in HV, HE |- *.
    pose proof (bpow_pos (e - 1)) as HE1. pose proof (bpow_pos n1) as HP.
    apply Rmult_le_reg_r with (IZR u); [exact HU |].
    rewrite Rmult_plus_distr_r, HV.
    change (IZR 2) with 2%R in Hup. nra. }
  assert (Hexp : e + n1 = fexp prec emax (Zdigits2 q + e)).
  { unfold n1, fexp, emin, emax, prec in *.
    destruct Hdigits as [He | Hq52]; [lia |].
    destruct q as [| p | p]; try lia. cbn [Zdigits2].
    pose proof (digits2_bounds p) as [_ Hhi].
    assert (52 < Z.pos (digits2_pos p)); [| lia].
    apply (Z.pow_lt_mono_r_iff 2); lia. }
  assert (Hulp : (bpow (e + n1 - 1) <= half_ulp V)%R).
  { unfold half_ulp. rewrite Hexp. unfold fexp, emin, emax, prec.
    destruct (Z.le_gt_cases (Zdigits2 q + e - 53) (-1074)) as [Hsub | Hnorm].
    - replace (Z.max (Zdigits2 q + e - 53) (3 - 1024 - 53) - 1) with (-1075) by lia.
      apply Rmax_r.
    - apply Rle_trans with (V * bpow (-53))%R; [| apply Rmax_l].
      replace (Z.max (Zdigits2 q + e - 53) (3 - 1024 - 53) - 1)
        with ((Zdigits2 q - 1 + e) + -53) by lia.
      rewrite bpow_add. pose proof (bpow_pos (-53)).
      assert (bpow (Zdigits2 q - 1 + e) <= V)%R; [| nra].
      apply Rle_trans with (2 := HqV).
      destruct q as [| p | p]; try lia.
      + exfalso. cbn [Zdigits2] in *.
        unfold n1, fexp, emin, emax, prec in Hexp. lia.
      + apply F2R_digits_lower. }
  assert (Hval : (F2R m2 (e + n1 + n2) <= V + half_ulp V)%R).
  { rewrite <- F2R_shift by assumption.
    apply Rle_trans with (F2R m1 (e + n1)); [now apply F2R_le | lra]. }
  destruct m2 as [| p | p]; [reflexivity | | lia].
  destruct (Z.leb_spec (e + n1 + n2) (emax - prec)) as [Hfin | Hinf].
  - split; [reflexivity | exact Hval].
  - split; [reflexivity |].
    apply Rle_trans with (2 := Hval). unfold emax, prec in Hinf.
    apply Rle_trans with (bpow (e + n1 + n2)); [apply bpow_le; lia |].
    unfold F2R. pose proof (bpow_pos (e + n1 + n2)).
    assert (1 <= IZR (Z.pos p))%R by (apply IZR_le; lia). nra.
Qed.

(** What [SFdiv_core_binary] hands to the rounding: the quotient [q] of
    [M = m1 * 2^s] by [m2], with its record, at an exponent [e'] that leaves
    [q] at least 53 digits (or is in the lowest binade). *)
Lemma SFdiv_core_binary_spec (m1 m2 : positive) (e1 e2 : Z) :
  let '(q, e', loc) := SFdiv_core_binary prec emax (Z.pos m1) e1 (Z.pos m2) e2 in
  exists M : Z,
    shr_unit_invariant M (Z.pos m2) (shr_record_of_loc q loc)
    /\ (e' <= -1074 \/ 2 ^ 52 <= q)
    /\ e' <= e1 - e2
    /\ M = Z.pos m1 * 2 ^ (e1 - e2 - e').
Proof.
  unfold SFdiv_core_binary. cbn [Zdigits2].
  set (d1 := Z.pos (digits2_pos m1)). set (d2 := Z.pos (digits2_pos m2)).
  set (e' := Z.min (fexp prec emax (d1 + e1 - (d2 + e2))) (e1 - e2)).
  set (s := e1 - e2 - e').
  assert (Hs : 0 <= s) by (unfold s, e'; lia).
  set (M := match s with
            | 0 => Z.pos m1
            | Z.pos _ => Z.shiftl (Z.pos m1) s
            | Z.neg _ => 0
            end).
  assert (HM : M = Z.pos m1 * 2 ^ s).
  { unfold M. destruct s as [| p | p]; [lia | | lia].
    now rewrite Z.shiftl_mul_pow2. }
  clearbody M.
  assert (Hp : 0 < 2 ^ s) by (apply Z.pow_pos_nonneg; lia).
  pose proof (Z_div_mod M (Z.pos m2) ltac:(lia)) as Hdiv.
  destruct (Z.div_eucl M (Z.pos m2)) as [q r]. destruct Hdiv as [Hqr Hr].
  assert (Hq : 0 <= q) by nia.
  exists M. split; [| split; [| split; [unfold e'; lia | exact HM]]].
  - apply new_location_unit; lia.
  - destruct (Z.le_gt_cases e' (-1074)) as [Hlow | Hhigh]; [now left | right].
    pose proof (digits2_bounds m1) as [Hlo1 _].
    pose proof (digits2_bounds m2) as [_ Hhi2].
    fold d1 in Hlo1. fold d2 in Hhi2.
    assert (Hs' : d2 + 52 <= d1 - 1 + s).
    { unfold s, e', fexp, emin, emax, prec in *. lia. }
    assert (Hd1 : 0 < d1) by (unfold d1; lia).
    assert (Hd2 : 0 < d2) by (unfold d2; lia).
    assert (HMlow : 2 ^ d2 * 2 ^ 52 <= M).
    { rewrite <- Z.pow_add_r by lia.
      apply Z.le_trans with (2 ^ (d1 - 1 + s)); [apply Z.pow_le_mono_r; lia |].
      rewrite Z.pow_add_r by lia. subst M. nia. }
    destruct (Z.le_gt_cases (2 ^ 52) q) as [Hok | Hsmall]; [exact Hok | exfalso].
    assert (q + 1 <= 2 ^ 52) by lia.
    assert (Z.pos m2 * (q + 1) <= Z.pos m2 * 2 ^ 52) by nia.
    assert (0 < 2 ^ 52) by lia.
    nia.
Qed.

(** The quotient of two doubles that are not negative, the divisor not
    zero: [V] is the quotient of the values. *)
Lemma div_upper (x y : double) (V : R) :
  nonneg x -> nonneg y -> (0 < val y)%R ->
  (V * val y = val x)%R -> (V <= IZR (2 ^ 64))%R ->
  nonneg (div x y) /\ (val (div x y) <= V + half_ulp V)%R.
Proof.
  intros Hx Hy Hy0 HV Hbig.
  pose proof (half_ulp_pos V) as Hh.
  destruct y as [sy | sy | | [|] my ey]; try contradiction;
    [cbn [val] in Hy0; lra |].
  assert (HV0 : (0 <= V)%R).
  { pose proof (val_nonneg x Hx). nra. }
  destruct x as [sx | sx | | [|] mx ex]; try contradiction.
  { cbn [div SFdiv nonneg val]. unfold div. cbn [SFdiv nonneg val].
    split; [exact I | lra]. }
  unfold div. cbn [SFdiv xorb].
  pose proof (SFdiv_core_binary_spec mx my ex ey) as Hcore.
  destruct (SFdiv_core_binary prec emax (Z.pos mx) ex (Z.pos my) ey) as [[q e'] loc].
  destruct Hcore as (M & Hinv & Hdigits & He' & HM).
  cbn [val cond_Zopp] in HV, Hy0.
  assert (HVM : (V * IZR (Z.pos my) = IZR M * bpow e')%R).
  { subst M. rewrite mult_IZR, <- bpow_IZR by lia.
    unfold F2R in HV.
    assert (Hsplit : bpow ex = (bpow (ex - ey - e') * bpow e' * bpow ey)%R).
    { rewrite <- !bpow_add. f_equal. lia. }
    rewrite Hsplit in HV. pose proof (bpow_pos ey). nra. }
  pose proof (binary_round_aux_unit_upper false q e' loc M (Z.pos my) V
                ltac:(lia) Hinv Hdigits HVM) as Hup.
  destruct (binary_round_aux prec emax false q e' loc) as [s | s | | s m2 e2];
    cbn [nonneg val].
  - split; [exact I | lra].
  - exfalso. destruct Hup as [_ Hup].
    pose proof bpow_972_large as Hlarge.
    assert (half_ulp V <= IZR (2 ^ 64) * bpow (-53))%R.
    { apply half_ulp_le; [lra |]. apply IZR_le. lia. }
    pose proof bpow_minus_53. pose proof (bpow_pos (-53)).
    assert (IZR (2 ^ 64) * bpow (-53) <= IZR (2 ^ 64))%R.
    { assert (1 <= IZR (2 ^ 53))%R by (apply IZR_le; lia).
      assert (0 < IZR (2 ^ 64))%R by (apply IZR_lt; lia). nra. }
    lra.
  - contradiction.
  - destruct Hup as [-> Hup]. split; [exact I | exact Hup].
Qed.

(** ** The gaussian distribution and the first branch of the special one *)

Lemma half_ulp_sum v :
  (0 <= v)%R -> (half_ulp v <= v * bpow (-53) + bpow (-1075))%R.
Proof.
  intros Hv. unfold half_ulp.
  pose proof (bpow_pos (-53)). pose proof (bpow_pos (-1075)).
  apply Rmax_lub; nra.
Qed.

(** A sum of [k] doubles of [[0, T]], accumulated from the left with one
    rounding per addition, exceeds [k * T] by a relative error of at most
    [2 * k * 2^-53]. *)
Lemma fold_add_upper (f : double -> double) (T : R) (us : list double) :
  (1 <= T <= IZR (2 ^ 32))%R ->
  Forall (fun u => nonneg (f u) /\ (val (f u) <= T)%R) us ->
  forall (s : double) (j : Z),
    0 <= j -> j + Z.of_nat (length us) <= 200000 ->
    nonneg s -> (val s <= IZR j * T * (1 + 2 * IZR j * bpow (-53)))%R ->
    let k := j + Z.of_nat (length us) in
    nonneg (fold_left (fun s u => add s (f u)) us s)
    /\ (val (fold_left (fun s u => add s (f u)) us s)
        <= IZR k * T * (1 + 2 * IZR k * bpow (-53)))%R.
Proof.
  intros HT Hus. induction Hus as [| u us [Hpnn Hpv] _ IH]; intros s j Hj0 Hlen Hs Hv.
  { cbn [fold_left length]. change (Z.of_nat 0) with 0. now rewrite Z.add_0_r. }
  cbn [fold_left length] in *. cbv zeta.
  replace (j + Z.of_nat (S (length us))) with ((j + 1) + Z.of_nat (length us)) by lia.
  pose proof (bpow_pos (-53)) as Hd. pose proof bpow_minus_53 as H53.
  assert (H1 : (IZR (2 ^ 53) = 9007199254740992)%R) by reflexivity.
  assert (H32 : (IZR (2 ^ 32) = 4294967296)%R) by reflexivity.
  assert (H64 : (IZR (2 ^ 64) = 18446744073709551616)%R) by reflexivity.
  assert (Hj : (0 <= IZR j <= 200000)%R).
  { split; apply IZR_le; lia. }
  assert (Hjd : (IZR j * bpow (-53) <= 1)%R) by nra.
  pose proof (val_nonneg s Hs) as Hs0. pose proof (val_nonneg (f u) Hpnn) as Hp0.
  set (x := IZR j) in *. set (d := bpow (-53)) in *.
  assert (HB : (val s + val (f u) <= x * T * (1 + 2 * x * d) + T)%R) by lra.
  assert (HBbig : (x * T * (1 + 2 * x * d) + T <= IZR (2 ^ 64))%R).
  { assert (x * T <= 200000 * 4294967296)%R by nra.
    assert (0 <= x * T)%R by nra.
    assert (2 * x * d <= 2)%R by nra. nra. }
  apply IH; [lia | lia | |].
  - apply add_upper; [assumption | assumption | lra].
  - destruct (add_upper s (f u) Hs Hpnn) as [_ Hsum]; [lra |].
    assert (Hh : (half_ulp (val s + val (f u))
                  <= (x * T * (1 + 2 * x * d) + T) * d)%R).
    { apply half_ulp_le; [lra |]. assert (0 <= x * T * (1 + 2 * x * d))%R; [| lra].
      assert (0 <= x * T)%R by nra. nra. }
    rewrite plus_IZR. fold x.
    apply Rle_trans with ((x * T * (1 + 2 * x * d) + T) * (1 + d))%R; [lra |].
    assert (Hkey : (0 <= 3 * x + 1 - 2 * x * (x * d))%R) by nra.
    replace ((x + 1) * T * (1 + 2 * (x + 1) * d))%R
      with ((x * T * (1 + 2 * x * d) + T) * (1 + d)
            + T * d * (3 * x + 1 - 2 * x * (x * d)))%R by ring.
    assert (0 <= T * d * (3 * x + 1 - 2 * x * (x * d)))%R; [| lra].
    apply Rmult_le_pos; [nra | exact Hkey].
Qed.

Lemma draws_length {G : Type} `{BitGenerator G} (n : nat) (g : G) :
  length (fst (draws n g)) = n.
Proof.
  revert g. induction n as [| n IH]; intros g; [reflexivity |].
  rewrite draws_S. cbn [fst length]. now rewrite IH.
Qed.

Lemma bpow_1075_small : (bpow (-1075) * IZR (2 ^ 100) <= 1)%R.
Proof.
  rewrite <- (bpow_IZR 100), <- bpow_add by lia.
  change 1%R with (bpow 0). apply bpow_le. lia.
Qed.

(** [rand_iter_mult = 1.0 / rand_iter]. *)
Lemma iter_mult_upper (N : Z) :
  1 <= N < 2 ^ 32 ->
  nonneg (div one (of_int N))
  /\ (val (div one (of_int N)) * IZR N
      <= 1 + bpow (-53) + IZR N * bpow (-1075))%R.
Proof.
  intros HN.
  destruct (of_int_exact N) as [Hnn Hv]; [lia |].
  destruct (of_int_exact 1) as [H1nn H1v]; [lia |].
  assert (HN1 : (1 <= IZR N)%R) by (apply IZR_le; lia).
  assert (HV : (/ IZR N * val (of_int N) = val one)%R).
  { unfold one. rewrite Hv, H1v. field. lra. }
  assert (Hinv : (0 < / IZR N <= 1)%R).
  { split; [apply Rinv_0_lt_compat; lra |].
    rewrite <- Rinv_1. apply Rinv_le_contravar; lra. }
  destruct (div_upper one (of_int N) (/ IZR N) H1nn Hnn) as [Hdnn Hdv].
  - rewrite Hv. lra.
  - exact HV.
  - apply Rle_trans with 1%R; [lra | apply IZR_le; lia].
  - split; [exact Hdnn |].
    pose proof (half_ulp_sum (/ IZR N) ltac:(lra)) as Hh.
    pose proof (bpow_pos (-53)). pose proof (bpow_pos (-1075)).
    assert (Hone : (/ IZR N * IZR N = 1)%R) by (field; lra).
    nra.
Qed.

(** The numbers the bounds below are computed with. *)
Lemma small_numbers :
  (0 < bpow (-53))%R /\ (bpow (-53) * 9007199254740992 = 1)%R
  /\ (0 < bpow (-1075))%R /\ (bpow (-1075) * 1267650600228229401496703205376 <= 1)%R.
Proof.
  split; [apply bpow_pos |]. split; [exact bpow_minus_53 |].
  split; [apply bpow_pos | exact bpow_1075_small].
Qed.

Lemma gaussian_sum_upper {G : Type} `{BitGenerator G} (N T : Z) (g : G) :
  1 <= N <= 100000 -> 1 <= T < 2 ^ 32 ->
  Forall (fun u => in_unit_interval u = true) (fst (draws (Z.to_nat N) g)) ->
  let sum := fold_left (fun s u => add s (mul u (of_int T)))
               (fst (draws (Z.to_nat N) g)) zero in
  nonneg sum
  /\ (val sum <= IZR N * IZR T * (1 + 2 * IZR N * bpow (-53)))%R.
Proof.
  intros HN HT Hus sum.
  assert (HT1 : (1 <= IZR T <= IZR (2 ^ 32))%R) by (split; apply IZR_le; lia).
  pose proof (fold_add_upper (fun u => mul u (of_int T)) (IZR T)
                (fst (draws (Z.to_nat N) g)) HT1) as Hfold.
  rewrite draws_length, Z2Nat.id in Hfold by lia.
  apply (Hfold ltac:(eapply Forall_impl; [exact Hus |]; intros u Hu; cbn beta;
                     destruct (mul_unit_int_below T u HT Hu); split; [assumption | lra])
               zero 0); try lia.
  - exact I.
  - change (val zero) with 0%R. lra.
Qed.

(** X12.  With [rand-spec-iter] from 1 to 100000, a range [a <= b] with [b]
    below [UINT32_MAX] and draws of [0, 1), [sb_rand_gaussian] consumes
    [rand_iter] draws and returns a value of [[a, b + 1]]: like
    [sb_rand_uniform] it can overshoot the range, by one at most. *)
Theorem sb_rand_gaussian_in_range {G : Type} `{BitGenerator G} `{Libm}
  (o : options) (ty : rand_dist_t) (f : rand_func_t) (a b : Z) (g : G) :
  let N := wrap32 (opt_rand_spec_iter o) in
  1 <= N <= 100000 ->
  0 <= a <= b -> b + 1 < 2 ^ 32 ->
  Forall (fun u => in_unit_interval u = true) (fst (draws (Z.to_nat N) g)) ->
  exists v : Z,
    sb_rand_gaussian (configure o ty f) a b g
    = Some (v, snd (draws (Z.to_nat N) g))
    /\ a <= v <= b + 1.
Proof.
  intros N HN Hab Hb Hus.
  unfold sb_rand_gaussian. cbn [rand_iter rand_iter_mult configure]. fold N.
  rewrite (wrap32_small (b - a + 1)) by lia.
  set (T := b - a + 1) in *.
  erewrite bind_Some; [| apply gaussian_loop_draws].
  destruct (gaussian_sum_upper N T g HN ltac:(unfold T; lia) Hus) as [Hsnn Hsv].
  set (sum := fold_left _ _ zero) in *.
  destruct (iter_mult_upper N ltac:(lia)) as [Hmnn Hmv].
  set (m := div one (of_int N)) in *.
  destruct small_numbers as (Hd & H53 & He & H100).
  set (d := bpow (-53)) in *. set (e := bpow (-1075)) in *.
  assert (HNr : (1 <= IZR N <= 100000)%R) by (split; apply IZR_le; lia).
  assert (HTr : (1 <= IZR T <= 4294967296)%R)
    by (split; [apply IZR_le; lia | apply (IZR_le T (2 ^ 32)); lia]).
  pose proof (val_nonneg sum Hsnn) as Hs0. pose proof (val_nonneg m Hmnn) as Hm0.
  (* the product before its rounding *)
  assert (Hprod : (val sum * val m <= IZR T + / 2)%R).
  { set (e1 := (2 * IZR N * d)%R) in *.
    set (e2 := (d + IZR N * e)%R) in *.
    assert (He1 : (0 <= e1 <= 200000 * d)%R) by (unfold e1; nra).
    assert (He2 : (0 <= e2 <= 2 * d)%R).
    { unfold e2. split; [nra |]. assert (IZR N * e <= d)%R; [| lra]. nra. }
    apply Rle_trans with (IZR T * (1 + e1) * (1 + e2))%R.
    - apply Rle_trans with (IZR N * IZR T * (1 + e1) * val m)%R.
      + apply Rmult_le_compat_r; [exact Hm0 | exact Hsv].
      + replace (IZR N * IZR T * (1 + e1) * val m)%R
          with (IZR T * (1 + e1) * (val m * IZR N))%R by ring.
        apply Rmult_le_compat_l; [nra | unfold e2; lra].
    - assert (IZR T * e1 <= 4294967296 * (200000 * d))%R by nra.
      assert (IZR T * e2 <= 4294967296 * (2 * d))%R by nra.
      assert (0 <= IZR T * e1)%R by nra.
      assert (IZR T * e1 * e2 <= IZR T * e1)%R by nra.
      nra. }
  destruct (mul_upper sum m Hsnn Hmnn) as [Hrnn Hrv].
  { apply Rle_trans with (1 := Hprod).
    change (IZR (2 ^ 64)) with 18446744073709551616%R. lra. }
  assert (Hh : (half_ulp (val sum * val m) <= (IZR T + / 2) * d)%R).
  { apply half_ulp_le; [split; [nra | exact Hprod] | lra]. }
  destruct (cast_uint32_between (mul sum m) 0 T (snd (draws (Z.to_nat N) g)) Hrnn)
    as (k & Hk & Hk0 & Hrange).
  - split; [now apply val_nonneg |]. rewrite plus_IZR. nra.
  - unfold T. lia.
  - exists (a + k). split; [| unfold T in *; lia].
    erewrite bind_Some; [| exact Hk].
    unfold ret. rewrite wrap32_small by (unfold T in *; lia). reflexivity.
Qed.

Lemma Rmul_bounds (a A b B : R) :
  (0 <= a <= A)%R -> (0 <= b <= B)%R -> (0 <= a * b <= A * B)%R.
Proof.
  intros [Ha0 Ha] [Hb0 Hb]. split; [now apply Rmult_le_pos |].
  apply Rmult_le_compat; assumption.
Qed.

Lemma special_sum_upper {G : Type} `{BitGenerator G} (N : Z) (g : G) :
  1 <= N <= 100000 ->
  Forall (fun u => in_unit_interval u = true) (fst (draws (Z.to_nat N) g)) ->
  let sum := fold_left add (fst (draws (Z.to_nat N) g)) zero in
  nonneg sum /\ (val sum <= IZR N * (1 + 2 * IZR N * bpow (-53)))%R.
Proof.
  intros HN Hus sum.
  assert (HT1 : (1 <= 1 <= IZR (2 ^ 32))%R) by (split; [lra | apply IZR_le; lia]).
  pose proof (fold_add_upper (fun u => u) 1 (fst (draws (Z.to_nat N) g)) HT1) as Hfold.
  rewrite draws_length, Z2Nat.id in Hfold by lia.
  assert (Hall : Forall (fun u => nonneg u /\ (val u <= 1)%R)
                   (fst (draws (Z.to_nat N) g))).
  { eapply Forall_impl; [exact Hus |]. intros u Hu. cbn beta.
    destruct (in_unit_interval_val u Hu). pose proof (bpow_pos (-53)).
    split; [assumption | lra]. }
  destruct (Hfold Hall zero 0) as [Hnn Hv]; try lia.
  - exact I.
  - change (val zero) with 0%R. lra.
  - split; [exact Hnn |]. rewrite Z.add_0_l in Hv.
    eapply Rle_trans; [exact Hv | lra].
Qed.

(** The first branch of [sb_rand_special] stays in the range. *)
Lemma sb_rand_special_cold_range {G : Type} `{BitGenerator G} `{Libm}
  (o : options) (ty : rand_dist_t) (f : rand_func_t) (a b : Z) (g : G) :
  let N := wrap32 (opt_rand_spec_iter o) in
  let st := configure o ty f in
  let rnd := fst (sb_rand_uniform_double g) in
  let g1 := snd (sb_rand_uniform_double g) in
  1 <= N <= 100000 ->
  0 <= a <= b -> b < 2 ^ 32 ->
  ltb (mul rnd (mul (of_int (wrap32 (b - a))) (rand_res_mult st)))
      (of_int (wrap32 (b - a))) = true ->
  Forall (fun u => in_unit_interval u = true) (fst (draws (Z.to_nat N) g1)) ->
  exists v : Z,
    sb_rand_special st a b g = Some (v, snd (draws (Z.to_nat N) g1))
    /\ a <= v <= b.
Proof.
  intros N st rnd g1 HN Hab Hb Hcold Hus. subst st rnd g1.
  unfold sb_rand_special.
  destruct (sb_rand_uniform_double g) as [rnd g1] eqn:Hdraw. cbn [fst snd] in *.
  rewrite (bind_draw _ _ _ _ Hdraw). cbv zeta. rewrite Hcold.
  cbn [rand_iter rand_iter_mult configure]. fold N.
  rewrite (wrap32_small (b - a)) by lia.
  set (T := b - a) in *.
  erewrite bind_Some; [| apply special_loop_draws].
  destruct (special_sum_upper N g1 HN Hus) as [Hsnn Hsv].
  set (sum := fold_left add _ zero) in *.
  destruct (iter_mult_upper N ltac:(lia)) as [Hmnn Hmv].
  set (m := div one (of_int N)) in *.
  destruct (of_int_exact T) as [Htnn Htv]; [unfold T; lia |].
  destruct (of_int_exact a) as [Hann Hav]; [lia |].
  destruct small_numbers as (Hd & H53 & He & H100).
  set (d := bpow (-53)) in *. set (e := bpow (-1075)) in *.
  assert (HNr : (1 <= IZR N <= 100000)%R) by (split; apply IZR_le; lia).
  assert (HTr : (0 <= IZR T <= 4294967296)%R)
    by (split; [apply IZR_le; unfold T; lia | apply (IZR_le T (2 ^ 32)); unfold T; lia]).
  assert (Har : (0 <= IZR a)%R) by (apply IZR_le; lia).
  assert (Hbr : (IZR a + IZR T = IZR b)%R).
  { rewrite <- plus_IZR. f_equal. unfold T. lia. }
  assert (Hbr' : (IZR b <= 4294967296)%R) by (apply (IZR_le b (2 ^ 32)); lia).
  pose proof (val_nonneg sum Hsnn) as Hs0. pose proof (val_nonneg m Hmnn) as Hm0.
  set (e1 := (2 * IZR N * d)%R) in *.
  set (e2 := (d + IZR N * e)%R) in *.
  assert (He1 : (0 <= e1 <= 200000 * d)%R) by (unfold e1; nra).
  assert (He2 : (0 <= e2 <= 2 * d)%R).
  { unfold e2. split; [nra |]. assert (IZR N * e <= d)%R; [| lra]. nra. }
  assert (Hm1 : (val m <= 1 + e2)%R) by (unfold e2; nra).
  (* sum * t *)
  assert (HX1 : (0 <= IZR T * e1 <= 4294967296 * (200000 * d))%R)
    by (apply Rmul_bounds; lra).
  assert (HNT : (0 <= IZR N * IZR T <= 100000 * 4294967296)%R)
    by (apply Rmul_bounds; lra).
  assert (Hv1 : (val sum * val (of_int T) <= IZR N * IZR T * (1 + e1))%R).
  { rewrite Htv. replace (IZR N * IZR T * (1 + e1))%R
      with (IZR N * (1 + e1) * IZR T)%R by ring.
    apply Rmult_le_compat_r; lra. }
  assert (Hv1' : (0 <= IZR N * IZR T * (1 + e1) <= 100000 * 4294967296 * 2)%R)
    by (apply Rmul_bounds; lra).
  assert (Hv10 : (0 <= val sum * val (of_int T))%R)
    by (apply Rmult_le_pos; [exact Hs0 | now apply val_nonneg]).
  destruct (mul_upper sum (of_int T) Hsnn Htnn) as [Hp1nn Hp1v].
  { change (IZR (2 ^ 64)) with 18446744073709551616%R. lra. }
  set (p1 := mul sum (of_int T)) in *.
  pose proof (val_nonneg p1 Hp1nn) as Hp10.
  set (Y2 := (IZR T * (1 + e1) * (1 + d))%R).
  assert (HY1 : (0 <= IZR T * (1 + e1) <= 4294967297)%R).
  { replace (IZR T * (1 + e1))%R with (IZR T + IZR T * e1)%R by ring. lra. }
  assert (HY2 : (0 <= Y2 <= IZR T + 4294967296 * (200000 * d) + 4294967297 * d)%R).
  { pose proof (Rmul_bounds _ _ d d HY1 ltac:(lra)) as HX2.
    unfold Y2.
    replace (IZR T * (1 + e1) * (1 + d))%R
      with (IZR T + IZR T * e1 + IZR T * (1 + e1) * d)%R by ring. lra. }
  assert (Hp1 : (val p1 <= IZR N * Y2 + e)%R).
  { pose proof (half_ulp_sum (val sum * val (of_int T)) Hv10) as Hh.
    fold d e in Hh.
    assert ((val sum * val (of_int T)) * (1 + d)
            <= (IZR N * IZR T * (1 + e1)) * (1 + d))%R
      by (apply Rmult_le_compat_r; lra).
    replace (IZR N * Y2)%R with ((IZR N * IZR T * (1 + e1)) * (1 + d))%R
      by (unfold Y2; ring).
    lra. }
  (* ... * rand_iter_mult *)
  assert (Hv2 : (val p1 * val m <= IZR T + / 4)%R).
  { apply Rle_trans with (Y2 * (1 + e2) + e * (1 + e2))%R.
    - apply Rle_trans with ((IZR N * Y2 + e) * val m)%R.
      + apply Rmult_le_compat_r; [exact Hm0 | exact Hp1].
      + replace ((IZR N * Y2 + e) * val m)%R
          with (Y2 * (val m * IZR N) + e * val m)%R by ring.
        apply Rplus_le_compat.
        * apply Rmult_le_compat_l; [lra | unfold e2; lra].
        * apply Rmult_le_compat_l; lra.
    - assert (HY2' : (0 <= Y2 <= 4294967298)%R) by lra.
      pose proof (Rmul_bounds _ _ e2 (2 * d) HY2' He2) as HX3.
      assert (He' : (0 <= e <= d)%R) by lra.
      pose proof (Rmul_bounds _ _ (1 + e2) 2 He' ltac:(lra)) as HX4.
      replace (Y2 * (1 + e2))%R with (Y2 + Y2 * e2)%R by ring.
      lra. }
  assert (Hv20 : (0 <= val p1 * val m)%R) by (now apply Rmult_le_pos).
  destruct (mul_upper p1 m Hp1nn Hmnn) as [Hp2nn Hp2v].
  { change (IZR (2 ^ 64)) with 18446744073709551616%R. lra. }
  set (p2 := mul p1 m) in *.
  pose proof (val_nonneg p2 Hp2nn) as Hp20.
  assert (Hp2 : (val p2 <= IZR T + / 4 + (IZR T + 1) * d)%R).
  { assert (half_ulp (val p1 * val m) <= (IZR T + 1) * d)%R; [| lra].
    apply half_ulp_le; [split; [exact Hv20 | lra] | lra]. }
  (* a + ... *)
  assert (HTd : (0 <= (IZR T + 1) * d <= 4294967297 * d)%R)
    by (apply Rmul_bounds; lra).
  assert (Hv3 : (val (of_int a) + val p2 <= IZR b + / 2)%R) by (rewrite Hav; lra).
  destruct (add_upper (of_int a) p2 Hann Hp2nn) as [Hp3nn Hp3v].
  { change (IZR (2 ^ 64)) with 18446744073709551616%R. lra. }
  pose proof (add_lower a p2 ltac:(lia) Hp2nn
                ltac:(change (IZR (2 ^ 52)) with 4503599627370496%R; rewrite Hav in Hv3; lra))
    as Hp3low.
  assert (Hh3 : (half_ulp (val (of_int a) + val p2) <= (IZR b + 1) * d)%R).
  { apply half_ulp_le; [split; [rewrite Hav; lra | lra] | lra]. }
  assert (Hbd : (0 <= (IZR b + 1) * d <= 4294967297 * d)%R)
    by (apply Rmul_bounds; lra).
  destruct (cast_uint32_between (add (of_int a) p2) a b
              (snd (draws (Z.to_nat N) g1)) Hp3nn) as (k & Hk & _ & Hrange).
  - split; [exact Hp3low |]. rewrite plus_IZR. lra.
  - lia.
  - exists k. split; [exact Hk | lia].
Qed.

(** ** Rounding from below *)

Lemma Zdigits2_bounds q : 0 <= q -> q < 2 ^ Zdigits2 q.
Proof.
  intros Hq. destruct q as [| p | p]; [reflexivity | | lia].
  cbn [Zdigits2]. apply digits2_bounds.
Qed.

Lemma Zdigits2_nonneg q : 0 <= Zdigits2 q.
Proof. destruct q; cbn; lia. Qed.

(** A record with both bits clear is an exact quotient. *)
Lemma shr_unit_exact M u q :
  0 < u -> shr_unit_invariant M u (Build_shr_record q false false) -> M = q * u.
Proof.
  intros Hu (rem & Hrem & _ & HM & Hr & Hs). cbn [shr_m shr_r shr_s] in *.
  assert (Hr' : ~ u <= 2 * rem) by (intros E; apply Hr in E; discriminate).
  assert (Hs' : ~ (rem <> 0 /\ 2 * rem <> u)) by (intros E; apply Hs in E; discriminate).
  assert (rem = 0) by lia. subst rem. lia.
Qed.

(** The rounding error of [binary_round_aux] from below. *)
Lemma binary_round_aux_unit_lower s q e loc M u (V : R) :
  0 < u -> shr_unit_invariant M u (shr_record_of_loc q loc) ->
  loc = loc_Exact \/ e <= -1074 \/ 2 ^ 52 <= q ->
  (V * IZR u = IZR M * bpow e)%R ->
  match binary_round_aux prec emax s q e loc with
  | S754_zero _ => (V <= half_ulp V)%R
  | S754_finite _ m2 e2 => (V - half_ulp V <= F2R (Z.pos m2) e2)%R
  | _ => True
  end.
Proof.
  intros Hu Hinv Hcase HV.
  pose proof (half_ulp_pos V) as Hh.
  assert (HU : (0 < IZR u)%R) by (apply IZR_lt; lia).
  pose proof (bpow_pos e) as HE.
  pose proof Hinv as (rem & Hrem & Hq & HM & _).
  rewrite shr_record_of_loc_m in Hq, HM.
  pose proof (Zdigits2_bounds q Hq) as Hdq. pose proof (Zdigits2_nonneg q) as Hdq0.
  destruct (Z.le_gt_cases e (fexp prec emax (Zdigits2 q + e))) as [HA | HB].
  - (* the first shift brings the quotient to its exponent *)
    destruct (binary_round_aux_unit_steps s q e loc M u Hu Hinv)
      as (m1 & m2 & n2 & Hm1 & Hup & Hlo & Hn2def & Hm2 & [Hfloor Hceil] & ->).
    set (n1 := Z.max (fexp prec emax (Zdigits2 q + e) - e) 0) in *.
    assert (Hn1 : 0 <= n1) by (unfold n1; lia).
    assert (Hexp : e + n1 = fexp prec emax (Zdigits2 q + e)) by (unfold n1; lia).
    assert (Hp1 : 0 < 2 ^ n1) by (apply Z.pow_pos_nonneg; lia).
    assert (HqV : (F2R q e <= V)%R).
    { unfold F2R. apply Rmult_le_reg_r with (IZR u); [exact HU |].
      rewrite HV. assert (Hle : q * u <= M) by lia.
      apply IZR_le in Hle. rewrite mult_IZR in Hle. nra. }
    assert (Hq0 : (0 <= F2R q e)%R).
    { unfold F2R. assert (0 <= IZR q)%R by (apply IZR_le; lia). nra. }
    assert (Hulp : (bpow (e + n1 - 1) <= half_ulp V)%R).
    { unfold half_ulp. rewrite Hexp. unfold fexp, emin, emax, prec.
      destruct (Z.le_gt_cases (Zdigits2 q + e - 53) (-1074)) as [Hsub | Hnorm].
      - replace (Z.max (Zdigits2 q + e - 53) (3 - 1024 - 53) - 1) with (-1075) by lia.
        apply Rmax_r.
      - apply Rle_trans with (V * bpow (-53))%R; [| apply Rmax_l].
        replace (Z.max (Zdigits2 q + e - 53) (3 - 1024 - 53) - 1)
          with ((Zdigits2 q - 1 + e) + -53) by lia.
        rewrite bpow_add. pose proof (bpow_pos (-53)).
        assert (bpow (Zdigits2 q - 1 + e) <= V)%R; [| nra].
        apply Rle_trans with (2 := HqV).
        destruct q as [| p | p]; try lia.
        + exfalso. cbn [Zdigits2] in *.
          unfold n1, fexp, emin, emax, prec in Hexp. lia.
        + apply F2R_digits_lower. }
    assert (Hhalf : (V <= F2R m1 (e + n1) + bpow (e + n1 - 1))%R).
    { apply IZR_le in Hlo. rewrite !mult_IZR, plus_IZR, !mult_IZR in Hlo.
      rewrite <- (bpow_IZR n1) in Hlo by assumption.
      unfold F2R. rewrite bpow_add.
      replace (e + n1 - 1) with (n1 + (e - 1)) by lia.
      rewrite (bpow_add n1). rewrite (bpow_half e) in HV, HE |- *.
      pose proof (bpow_pos (e - 1)) as HE1. pose proof (bpow_pos n1) as HP.
      apply Rmult_le_reg_r with (IZR u); [exact HU |].
      rewrite Rmult_plus_distr_r, HV.
      change (IZR 2) with 2%R in Hlo. nra. }
    (* the rounded quotient has at most 53 digits, or is 2^53 *)
    assert (Hm1max : m1 <= 2 ^ 53).
    { assert (Hd : Zdigits2 q <= 53 + n1)
        by (unfold fexp, emin, emax, prec in Hexp; lia).
      assert (Hq' : q + 1 <= 2 ^ 53 * 2 ^ n1).
      { rewrite <- Z.pow_add_r by lia.
        assert (2 ^ Zdigits2 q <= 2 ^ (53 + n1)) by (apply Z.pow_le_mono_r; lia).
        lia. }
      assert (HMlt : M < (q + 1) * u) by lia.
      assert (H2 : 2 * (m1 * 2 ^ n1) * u < (2 * (q + 1) + 2 ^ n1) * u) by nia.
      assert (H3 : 2 * (m1 * 2 ^ n1) < 2 * (q + 1) + 2 ^ n1).
      { apply Z.mul_lt_mono_pos_r with u; assumption. }
      assert (H4 : 2 * (m1 * 2 ^ n1) < (2 * 2 ^ 53 + 1) * 2 ^ n1) by nia.
      assert (H5 : 2 * m1 < 2 * 2 ^ 53 + 1).
      { apply Z.mul_lt_mono_pos_r with (2 ^ n1); [assumption | lia]. }
      lia. }
    assert (He1 : -1074 <= e + n1) by (unfold fexp, emin, emax, prec in Hexp; lia).
    assert (Hexact : m2 * 2 ^ n2 = m1).
    { destruct (Z.eq_dec m1 (2 ^ 53)) as [E | Hne].
      - subst m1. change (Zdigits2 (2 ^ 53)) with 54 in Hn2def.
        assert (n2 = 1) by (unfold fexp, emin, emax, prec in Hn2def; lia).
        clear Hn2def. subst n2. change (2 ^ 1) with 2 in *. lia.
      - assert (Hdig : Zdigits2 m1 <= 53).
        { destruct m1 as [| p | p]; [cbn; lia | | lia].
          cbn [Zdigits2]. pose proof (digits2_bounds p) as [Hlo1 _].
          assert (Hlt : 2 ^ (Z.pos (digits2_pos p) - 1) < 2 ^ 53) by lia.
          apply Z.pow_lt_mono_r_iff in Hlt; lia. }
        assert (n2 = 0) by (unfold fexp, emin, emax, prec in Hn2def; lia).
        clear Hn2def. subst n2. change (2 ^ 0) with 1 in *. lia. }
    assert (Hn2 : 0 <= n2) by lia.
    assert (Hval : (V - half_ulp V <= F2R m2 (e + n1 + n2))%R).
    { rewrite <- F2R_shift, Hexact by assumption. lra. }
    destruct m2 as [| p | p]; [| | exact I].
    + unfold F2R in Hval. lra.
    + destruct (e + n1 + n2 <=? emax - prec); [exact Hval | exact I].
  - (* no shift: the mantissa is exact *)
    assert (Hloc : loc = loc_Exact).
    { destruct Hcase as [Hloc | [He | Hq52]]; [exact Hloc | exfalso | exfalso].
      - unfold fexp, emin, emax, prec in HB. lia.
      - assert (52 < Zdigits2 q).
        { apply (Z.pow_lt_mono_r_iff 2); lia. }
        unfold fexp, emin, emax, prec in HB. lia. }
    subst loc. cbn [shr_record_of_loc] in Hinv.
    pose proof (shr_unit_exact M u q Hu Hinv) as HMq.
    assert (HVq : V = F2R q e).
    { unfold F2R. apply Rmult_eq_reg_r with (IZR u); [| lra].
      rewrite HV, HMq, mult_IZR. ring. }
    unfold binary_round_aux, shr_fexp. cbn [shr_record_of_loc].
    assert (Hshr : forall mrs, shr mrs e (fexp prec emax (Zdigits2 q + e) - e)
                               = (mrs, e)).
    { intros mrs. unfold shr.
      destruct (fexp prec emax (Zdigits2 q + e) - e) eqn:E; try reflexivity.
      lia. }
    rewrite Hshr. cbn [shr_m loc_of_shr_record round_nearest_even].
    rewrite Hshr. cbn [shr_m].
    destruct q as [| p | p]; [| | exact I].
    + assert (V = 0)%R by (rewrite HVq; unfold F2R; lra). lra.
    + destruct (e <=? emax - prec); [| exact I]. rewrite <- HVq. lra.
Qed.

Lemma shr_unit_of_exact (m : Z) :
  0 <= m -> shr_unit_invariant m 1 (shr_record_of_loc m loc_Exact).
Proof.
  intros Hm. exists 0. cbn [shr_record_of_loc shr_m shr_r shr_s].
  split; [lia | split; [lia | split; [lia | split]]]; apply false_iff; lia.
Qed.

(** The product of two doubles that are not negative, from below. *)
Lemma mul_lower (x y : double) :
  nonneg x -> nonneg y -> (val x * val y <= IZR (2 ^ 64))%R ->
  (val x * val y - half_ulp (val x * val y) <= val (mul x y))%R.
Proof.
  intros Hx Hy Hv.
  pose proof (half_ulp_pos (val x * val y)) as Hh.
  destruct (mul_upper x y Hx Hy Hv) as [Hnn _].
  destruct x as [sx | sx | | [|] mx ex]; try contradiction;
    destruct y as [sy | sy | | [|] my ey]; try contradiction;
    unfold mul in *; cbn [SFmul val nonneg] in *; try lra.
  cbn [xorb] in *.
  change (cond_Zopp false (Z.pos mx)) with (Z.pos mx) in *.
  change (cond_Zopp false (Z.pos my)) with (Z.pos my) in *.
  rewrite <- F2R_mul in *. rewrite <- Pos2Z.inj_mul in *.
  pose proof (binary_round_aux_unit_lower false (Z.pos (mx * my)) (ex + ey) loc_Exact
                (Z.pos (mx * my)) 1 (F2R (Z.pos (mx * my)) (ex + ey))
                ltac:(lia) (shr_unit_of_exact (Z.pos (mx * my)) ltac:(lia)) ltac:(now left)
                ltac:(unfold F2R; lra)) as Hlow.
  destruct (binary_round_aux prec emax false (Z.pos (mx * my)) (ex + ey) loc_Exact)
    as [s | s | | [|] m2 e2]; cbn [val nonneg cond_Zopp] in *;
    try contradiction; lra.
Qed.

(** The quotient of two doubles that are not negative, from below. *)
Lemma div_lower (x y : double) (V : R) :
  nonneg x -> nonneg y -> (0 < val y)%R ->
  (V * val y = val x)%R -> (V <= IZR (2 ^ 64))%R ->
  (V - half_ulp V <= val (div x y))%R.
Proof.
  intros Hx Hy Hy0 HV Hbig.
  pose proof (half_ulp_pos V) as Hh.
  destruct (div_upper x y V Hx Hy Hy0 HV Hbig) as [Hnn _].
  destruct y as [sy | sy | | [|] my ey]; try contradiction;
    [cbn [val] in Hy0; lra |].
  destruct x as [sx | sx | | [|] mx ex]; try contradiction.
  { change (val (S754_zero sx)) with 0%R in HV.
    destruct (Rmult_integral _ _ HV) as [E | E]; [| lra].
    unfold div. cbn [SFdiv val]. lra. }
  unfold div in *. cbn [SFdiv xorb] in *.
  pose proof (SFdiv_core_binary_spec mx my ex ey) as Hcore.
  destruct (SFdiv_core_binary prec emax (Z.pos mx) ex (Z.pos my) ey) as [[q e'] loc].
  destruct Hcore as (M & Hinv & Hdigits & He' & HM).
  cbn [val cond_Zopp] in HV, Hy0.
  assert (HVM : (V * IZR (Z.pos my) = IZR M * bpow e')%R).
  { subst M. rewrite mult_IZR, <- bpow_IZR by lia.
    unfold F2R in HV.
    assert (Hsplit : bpow ex = (bpow (ex - ey - e') * bpow e' * bpow ey)%R).
    { rewrite <- !bpow_add. f_equal. lia. }
    rewrite Hsplit in HV. pose proof (bpow_pos ey). nra. }
  pose proof (binary_round_aux_unit_lower false q e' loc M (Z.pos my) V
                ltac:(lia) Hinv ltac:(now right) HVM) as Hlow.
  destruct (binary_round_aux prec emax false q e' loc) as [s | s | | [|] m2 e2];
    cbn [val nonneg cond_Zopp] in *; try contradiction; lra.
Qed.

Lemma val_finite_pos (m : positive) (e : Z) : (0 < val (S754_finite false m e))%R.
Proof.
  cbn [val cond_Zopp]. unfold F2R. pose proof (bpow_pos e).
  assert (0 < IZR (Z.pos m))%R by (apply IZR_lt; lia). nra.
Qed.

(** The difference of two doubles that are not negative, the second not
    above the first. *)
Lemma sub_upper (x y : double) :
  nonneg x -> nonneg y -> (val y <= val x)%R -> (val x <= IZR (2 ^ 64))%R ->
  nonneg (sub x y)
  /\ (val (sub x y) <= val x - val y + half_ulp (val x - val y))%R.
Proof.
  intros Hx Hy Hle Hbig.
  pose proof (half_ulp_pos (val x - val y)) as Hh.
  destruct x as [sx | sx | | [|] mx ex]; try contradiction;
    destruct y as [sy | sy | | [|] my ey]; try contradiction;
    unfold sub; cbn [SFsub].
  - destruct sx, sy; cbn [nonneg val] in *; (split; [exact I | lra]).
  - exfalso. pose proof (val_finite_pos my ey).
    change (val (S754_zero sx)) with 0%R in Hle. lra.
  - cbn [nonneg val] in *. split; [exact I | lra].
  - pose proof (val_finite_pos my ey) as Hy0.
    cbn [val cond_Zopp] in *.
    pose proof (shl_align_value mx ex (Z.min ex ey)) as (Hvx & Hex & _).
    pose proof (shl_align_value my ey (Z.min ex ey)) as (Hvy & Hey & _).
    rewrite Hex in Hvx by lia. rewrite Hey in Hvy by lia.
    set (mx' := Z.pos (fst (shl_align mx ex (Z.min ex ey)))) in *.
    set (my' := Z.pos (fst (shl_align my ey (Z.min ex ey)))) in *.
    rewrite <- Hvx, <- Hvy in *.
    assert (Hm : my' <= mx').
    { apply le_IZR. unfold F2R in Hle. pose proof (bpow_pos (Z.min ex ey)). nra. }
    assert (Hdiff : (F2R mx' (Z.min ex ey) - F2R my' (Z.min ex ey)
                     = F2R (mx' - my') (Z.min ex ey))%R).
    { unfold F2R. rewrite minus_IZR. ring. }
    rewrite Hdiff in *.
    destruct (mx' - my') as [| p | p] eqn:Ediff; [| | lia];
      cbn [binary_normalize].
    + cbn [nonneg val]. unfold F2R in *. split; [exact I | lra].
    + apply binary_round_nonneg.
      assert (0 < F2R my' (Z.min ex ey))%R by lra. lra.
Qed.

Lemma binary_round_lower_half (m : positive) (e : Z) :
  (F2R (Z.pos m) e <= IZR (2 ^ 64))%R ->
  (F2R (Z.pos m) e - half_ulp (F2R (Z.pos m) e)
   <= val (binary_round prec emax false m e))%R.
Proof.
  intros Hv. pose proof (binary_round_nonneg m e Hv) as [Hnn _].
  unfold binary_round in *.
  pose proof (shl_align_value m e (fexp prec emax (Z.pos (digits2_pos m) + e)))
    as [Hval _].
  destruct (shl_align m e _) as [mz ez]. cbn [fst snd] in Hval.
  rewrite <- Hval in *.
  pose proof (half_ulp_pos (F2R (Z.pos mz) ez)) as Hh.
  pose proof (binary_round_aux_unit_lower false (Z.pos mz) ez loc_Exact
                (Z.pos mz) 1 (F2R (Z.pos mz) ez)
                ltac:(lia) (shr_unit_of_exact (Z.pos mz) ltac:(lia)) ltac:(now left)
                ltac:(unfold F2R; lra)) as Hlow.
  destruct (binary_round_aux prec emax false (Z.pos mz) ez loc_Exact)
    as [s | s | | [|] m2 e2]; cbn [val nonneg cond_Zopp] in *;
    try contradiction; lra.
Qed.

(** The sum of two doubles that are not negative, from below. *)
Lemma add_lower_half (x y : double) :
  nonneg x -> nonneg y -> (val x + val y <= IZR (2 ^ 64))%R ->
  (val x + val y - half_ulp (val x + val y) <= val (add x y))%R.
Proof.
  intros Hx Hy Hv.
  pose proof (half_ulp_pos (val x + val y)) as Hh.
  destruct x as [sx | sx | | [|] mx ex]; try contradiction;
    destruct y as [sy | sy | | [|] my ey]; try contradiction;
    unfold add; cbn [SFadd].
  - destruct sx, sy; cbn [val] in *; lra.
  - cbn [val] in *. lra.
  - cbn [val] in *. lra.
  - cbn [val cond_Zopp] in *.
    pose proof (shl_align_value mx ex (Z.min ex ey)) as (Hvx & Hex & _).
    pose proof (shl_align_value my ey (Z.min ex ey)) as (Hvy & Hey & _).
    rewrite Hex in Hvx by lia. rewrite Hey in Hvy by lia.
    rewrite <- Hvx, <- Hvy, <- F2R_add in *.
    cbn [binary_normalize Z.add].
    now apply binary_round_lower_half.
Qed.

(** The difference of two doubles that are not negative, from below. *)
Lemma sub_lower (x y : double) :
  nonneg x -> nonneg y -> (val y <= val x)%R -> (val x <= IZR (2 ^ 64))%R ->
  (val x - val y - half_ulp (val x - val y) <= val (sub x y))%R.
Proof.
  intros Hx Hy Hle Hbig.
  pose proof (half_ulp_pos (val x - val y)) as Hh.
  destruct x as [sx | sx | | [|] mx ex]; try contradiction;
    destruct y as [sy | sy | | [|] my ey]; try contradiction;
    unfold sub; cbn [SFsub].
  - destruct sx, sy; cbn [val] in *; lra.
  - exfalso. pose proof (val_finite_pos my ey).
    change (val (S754_zero sx)) with 0%R in Hle. lra.
  - cbn [val] in *. lra.
  - pose proof (val_finite_pos my ey) as Hy0.
    cbn [val cond_Zopp] in *.
    pose proof (shl_align_value mx ex (Z.min ex ey)) as (Hvx & Hex & _).
    pose proof (shl_align_value my ey (Z.min ex ey)) as (Hvy & Hey & _).
    rewrite Hex in Hvx by lia. rewrite Hey in Hvy by lia.
    set (mx' := Z.pos (fst (shl_align mx ex (Z.min ex ey)))) in *.
    set (my' := Z.pos (fst (shl_align my ey (Z.min ex ey)))) in *.
    rewrite <- Hvx, <- Hvy in *.
    assert (Hm : my' <= mx').
    { apply le_IZR. unfold F2R in Hle. pose proof (bpow_pos (Z.min ex ey)). nra. }
    assert (Hdiff : (F2R mx' (Z.min ex ey) - F2R my' (Z.min ex ey)
                     = F2R (mx' - my') (Z.min ex ey))%R).
    { unfold F2R. rewrite minus_IZR. ring. }
    rewrite Hdiff in *.
    destruct (mx' - my') as [| p | p] eqn:Ediff; [| | lia];
      cbn [binary_normalize].
    + cbn [val]. unfold F2R in *. lra.
    + apply binary_round_lower_half.
      assert (0 < F2R my' (Z.min ex ey))%R by lra. lra.
Qed.

(** ** The second branch of the special distribution *)

(** A quotient of two small integers, as [sb_rand_init] computes
    [rand_pct_mult] and [rand_pct_2_mult]: within [2 * 2^-53] of the quotient
    when that is at most 1. *)
Lemma div_int_bounds (p q : Z) :
  0 <= p <= q -> 1 <= q < 2 ^ 32 ->
  nonneg (div (of_int p) (of_int q))
  /\ (IZR p / IZR q - 2 * bpow (-53) <= val (div (of_int p) (of_int q))
      <= IZR p / IZR q + 2 * bpow (-53))%R.
Proof.
  intros Hp Hq.
  destruct (of_int_exact p) as [Hpnn Hpv]; [lia |].
  destruct (of_int_exact q) as [Hqnn Hqv]; [lia |].
  assert (Hq1 : (1 <= IZR q)%R) by (apply IZR_le; lia).
  assert (Hp0 : (0 <= IZR p <= IZR q)%R) by (split; apply IZR_le; lia).
  set (V := (IZR p / IZR q)%R).
  assert (HVq : (V * IZR q = IZR p)%R) by (unfold V; field; lra).
  assert (HV : (0 <= V <= 1)%R).
  { split.
    - unfold V. apply Rmult_le_pos; [lra |]. apply Rlt_le, Rinv_0_lt_compat. lra.
    - apply Rmult_le_reg_r with (IZR q); [lra |]. rewrite HVq. lra. }
  destruct small_numbers as (Hd & H53 & He & H100).
  assert (Hh : (half_ulp V <= 2 * bpow (-53))%R).
  { pose proof (half_ulp_sum V ltac:(lra)) as Hs.
    assert (V * bpow (-53) <= 1 * bpow (-53))%R by (apply Rmult_le_compat_r; lra).
    lra. }
  assert (Hbig : (V <= IZR (2 ^ 64))%R).
  { change (IZR (2 ^ 64)) with 18446744073709551616%R. lra. }
  destruct (div_upper (of_int p) (of_int q) V Hpnn Hqnn) as [Hnn Hup];
    try (rewrite ?Hqv, ?Hpv; first [lra | assumption]).
  pose proof (div_lower (of_int p) (of_int q) V Hpnn Hqnn
                ltac:(rewrite Hqv; lra) ltac:(rewrite Hqv, Hpv; exact HVq) Hbig)
    as Hlow.
  split; [exact Hnn | lra].
Qed.

(** 2^32 * 2^-53 = 2^-21. *)
Lemma c21 : (4294967296 * bpow (-53) * 2097152 = 1)%R.
Proof.
  pose proof bpow_minus_53 as H.
  change (IZR (2 ^ 53)) with 9007199254740992%R in H. lra.
Qed.

(** One rounded operation on values not above 2^33 errs by 2^-20 at most. *)
Lemma half_ulp_small v :
  (0 <= v <= 8589934592)%R -> (half_ulp v <= 8589934592 * bpow (-53))%R.
Proof. intros Hv. apply half_ulp_le; lra. Qed.

(** The expression of the second branch of [sb_rand_special], for a
    percentage of at most 99: its value is a double that is not negative, below
    [t + 1], and within 2^-16 of the exact value of the specification's
    formula. *)
Lemma special_offset_bound `{Libm}
  (o : options) (ty : rand_dist_t) (f : rand_func_t) (a b : Z) (rnd : double) :
  0 <= wrap32 (opt_rand_spec_pct o) <= 99 ->
  0 <= a <= b -> b < 2 ^ 32 ->
  in_unit_interval rnd = true ->
  let P := wrap32 (opt_rand_spec_pct o) in
  nonneg (special_offset (configure o ty f) a b rnd)
  /\ (val (special_offset (configure o ty f) a b rnd) < IZR (b - a + 1))%R
  /\ (IZR (b - a) * IZR (100 - P) / 200 - / 1024
      <= val (special_offset (configure o ty f) a b rnd)
      <= IZR (b - a) * IZR (100 + P) / 200 + 1 + / 1024)%R
  /\ (spec_special_offset a b P (val rnd) - / 65536
      <= val (special_offset (configure o ty f) a b rnd)
      <= spec_special_offset a b P (val rnd) + / 65536)%R.
Proof.
  intros HP Hab Hb Hrnd. cbv zeta.
  unfold special_offset, spec_special_offset. cbv zeta.
  cbn [rand_pct_mult rand_pct_2_mult configure].
  set (P := wrap32 (opt_rand_spec_pct o)) in *.
  rewrite (wrap32_small (b - a)) by lia.
  set (T := b - a) in *.
  replace (b - a + 1) with (T + 1) by (unfold T; lia).
  destruct (div_int_bounds P 100 ltac:(lia) ltac:(lia)) as [Hpmnn Hpmv].
  destruct (div_int_bounds P 200 ltac:(lia) ltac:(lia)) as [Hp2nn Hp2v].
  set (pm := div (of_int P) (of_int 100)) in *.
  set (p2 := div (of_int P) (of_int 200)) in *.
  destruct (Z.eq_dec T 0) as [HT0 | HT0].
  { (* a = b: every term but the draw is zero *)
    rewrite HT0. change (of_int 0) with (S754_zero false).
    destruct (mul_unit_int_below 1 rnd ltac:(lia) Hrnd) as [Hrnn Hrv].
    change (of_int 1) with one in Hrnn, Hrv.
    assert (Hd1 : add (mul (S754_zero false) pm) one = one).
    { destruct pm as [s | s | | [|] m e]; try contradiction; reflexivity. }
    assert (HB : exists s, sub (div (S754_zero false) two) (mul (S754_zero false) p2)
                           = S754_zero s).
    { destruct p2 as [s | s | | [|] m e]; try contradiction;
        [destruct s |]; eexists; reflexivity. }
    destruct HB as [s HB]. rewrite Hd1, HB.
    change (IZR (0 + 1)) with 1%R. change (IZR 0) with 0%R.
    pose proof (val_nonneg _ Hrnn) as Hr0.
    assert (Hres : nonneg (add (mul rnd one) (S754_zero s))
                   /\ val (add (mul rnd one) (S754_zero s)) = val (mul rnd one)).
    { destruct (mul rnd one) as [s1 | s1 | | [|] m1 e1]; try contradiction.
      - destruct s1, s; cbn; auto.
      - cbn. auto. }
    destruct Hres as [Hresnn ->].
    destruct (in_unit_interval_val rnd Hrnd) as [Hunn Huv].
    pose proof (val_nonneg rnd Hunn) as Hu0.
    destruct (of_int_exact 1) as [H1nn H1v]; [lia |]. fold one in H1nn, H1v.
    destruct small_numbers as (Hd & H53 & _ & _).
    pose proof c21 as Hc.
    assert (Hprod : (val rnd * val one = val rnd)%R) by (rewrite H1v; ring).
    destruct (mul_upper rnd one Hunn H1nn) as [_ Hmv];
      [rewrite Hprod; change (IZR (2 ^ 64)) with 18446744073709551616%R; lra |].
    pose proof (mul_lower rnd one Hunn H1nn) as Hml.
    rewrite Hprod in Hmv, Hml.
    pose proof (half_ulp_small (val rnd) ltac:(lra)) as Hhu.
    assert (Hml' : (val rnd - half_ulp (val rnd) <= val (mul rnd one))%R).
    { apply Hml. change (IZR (2 ^ 64)) with 18446744073709551616%R. lra. }
    split; [exact Hresnn | split; [exact Hrv | split; lra]]. }
  assert (HT : 1 <= T < 2 ^ 32) by (unfold T in *; lia).
  destruct (of_int_exact T) as [Htnn Htv]; [lia |].
  destruct (of_int_exact 1) as [H1nn H1v]; [lia |]. fold one in H1nn, H1v.
  destruct (of_int_exact 2) as [H2nn H2v]; [lia |]. fold two in H2nn, H2v.
  apply in_unit_interval_val in Hrnd as [Hrnn Hrv].
  pose proof (val_nonneg rnd Hrnn) as Hr0.
  pose proof (val_nonneg pm Hpmnn) as Hpm0. pose proof (val_nonneg p2 Hp2nn) as Hp20.
  destruct small_numbers as (Hd & H53 & _ & _).
  pose proof c21 as Hc.
  set (t := of_int T) in *. set (Tt := IZR T) in *.
  assert (HTt : (1 <= Tt <= 4294967296)%R).
  { split; [apply IZR_le; lia | apply (IZR_le T (2 ^ 32)); lia]. }
  assert (H64 : (IZR (2 ^ 64) = 18446744073709551616)%R) by reflexivity.
  (* the two quotients of the percentage *)
  set (V2 := (IZR P / IZR 200)%R) in *.
  assert (HV1 : (IZR P / IZR 100 = 2 * V2)%R) by (unfold V2; field).
  rewrite HV1 in Hpmv.
  assert (HV2 : (0 <= V2 <= 99 / 200)%R).
  { assert (0 <= IZR P <= 99)%R by (split; apply IZR_le; lia). unfold V2. lra. }
  set (X2 := (Tt * V2)%R).
  assert (HX2 : (0 <= X2 <= Tt * (99 / 200))%R).
  { unfold X2. split; [apply Rmult_le_pos; lra | apply Rmult_le_compat_l; lra]. }
  assert (HTd : (0 <= Tt * (2 * bpow (-53)) <= 2 * (4294967296 * bpow (-53)))%R).
  { split; [apply Rmult_le_pos; lra |].
    replace (2 * (4294967296 * bpow (-53)))%R
      with (4294967296 * (2 * bpow (-53)))%R by ring.
    apply Rmult_le_compat_r; lra. }
  (* d = t * rand_pct_mult *)
  assert (Hvd : (0 <= val t * val pm <= 2 * X2 + 2 * (4294967296 * bpow (-53)))%R).
  { rewrite Htv. split; [apply Rmult_le_pos; lra |].
    apply Rle_trans with (Tt * (2 * V2 + 2 * bpow (-53)))%R;
      [apply Rmult_le_compat_l; lra |].
    unfold X2. replace (Tt * (2 * V2 + 2 * bpow (-53)))%R
      with (2 * (Tt * V2) + Tt * (2 * bpow (-53)))%R by ring. lra. }
  assert (HvdL : (2 * X2 - 2 * (4294967296 * bpow (-53)) <= val t * val pm)%R).
  { rewrite Htv.
    apply Rle_trans with (Tt * (2 * V2 - 2 * bpow (-53)))%R;
      [| apply Rmult_le_compat_l; lra].
    unfold X2. replace (Tt * (2 * V2 - 2 * bpow (-53)))%R
      with (2 * (Tt * V2) - Tt * (2 * bpow (-53)))%R by ring. lra. }
  destruct (mul_upper t pm Htnn Hpmnn) as [Hdnn Hdv]; [lra |].
  pose proof (mul_lower t pm Htnn Hpmnn ltac:(lra)) as Hdlow.
  pose proof (half_ulp_small (val t * val pm) ltac:(lra)) as Hhd.
  set (dd := mul t pm) in *. pose proof (val_nonneg dd Hdnn) as Hdd0.
  (* d + 1 *)
  destruct (add_upper dd one Hdnn H1nn) as [Hd1nn Hd1v]; [lra |].
  pose proof (add_lower_half dd one Hdnn H1nn ltac:(lra)) as Hd1low.
  pose proof (half_ulp_small (val dd + val one) ltac:(lra)) as Hhd1.
  set (d1 := add dd one) in *. pose proof (val_nonneg d1 Hd1nn) as Hd10.
  (* rnd * (d + 1) *)
  assert (Hvr : (0 <= val rnd * val d1 <= val d1)%R).
  { split; [apply Rmult_le_pos; lra |].
    rewrite <- (Rmult_1_l (val d1)) at 2. apply Rmult_le_compat_r; lra. }
  destruct (mul_upper rnd d1 Hrnn Hd1nn) as [Hr1nn Hr1v]; [lra |].
  pose proof (mul_lower rnd d1 Hrnn Hd1nn ltac:(lra)) as Hr1low.
  pose proof (half_ulp_small (val rnd * val d1) ltac:(lra)) as Hhr1.
  (* the product against the exact one: [d + 1] is within 6 * 2^-21 of
     [2 * X2 + 1], and the draw is at most 1 *)
  assert (Hrd : (val rnd * (2 * X2 + 1) - 6 * (4294967296 * bpow (-53))
                 <= val rnd * val d1
                 <= val rnd * (2 * X2 + 1) + 6 * (4294967296 * bpow (-53)))%R).
  { assert (Hslack : (0 <= val rnd * (6 * (4294967296 * bpow (-53)))
                      <= 6 * (4294967296 * bpow (-53)))%R).
    { split; [apply Rmult_le_pos; lra |].
      rewrite <- (Rmult_1_l (6 * (4294967296 * bpow (-53)))) at 2.
      apply Rmult_le_compat_r; lra. }
    split.
    - apply Rle_trans
        with (val rnd * (2 * X2 + 1 - 6 * (4294967296 * bpow (-53))))%R;
        [| apply Rmult_le_compat_l; lra].
      replace (val rnd * (2 * X2 + 1 - 6 * (4294967296 * bpow (-53))))%R
        with (val rnd * (2 * X2 + 1)
              - val rnd * (6 * (4294967296 * bpow (-53))))%R by ring.
      lra.
    - apply Rle_trans
        with (val rnd * (2 * X2 + 1 + 6 * (4294967296 * bpow (-53))))%R;
        [apply Rmult_le_compat_l; lra |].
      replace (val rnd * (2 * X2 + 1 + 6 * (4294967296 * bpow (-53))))%R
        with (val rnd * (2 * X2 + 1)
              + val rnd * (6 * (4294967296 * bpow (-53))))%R by ring.
      lra. }
  set (r1 := mul rnd d1) in *. pose proof (val_nonneg r1 Hr1nn) as Hr10.
  (* t / 2 *)
  assert (Hh2 : ((Tt / 2) * val two = val t)%R) by (rewrite H2v, Htv; field).
  destruct (div_upper t two (Tt / 2) Htnn H2nn) as [Hhnn Hhv];
    [lra | exact Hh2 | lra |].
  pose proof (div_lower t two (Tt / 2) Htnn H2nn ltac:(lra) Hh2 ltac:(lra)) as Hhlow.
  pose proof (half_ulp_small (Tt / 2) ltac:(lra)) as Hhh.
  set (h := div t two) in *.
  (* t * rand_pct_2_mult *)
  assert (Hvy : (X2 - 2 * (4294967296 * bpow (-53)) <= val t * val p2
                 <= X2 + 2 * (4294967296 * bpow (-53)))%R).
  { rewrite Htv. unfold X2. split.
    - apply Rle_trans with (Tt * (V2 - 2 * bpow (-53)))%R;
        [| apply Rmult_le_compat_l; lra].
      replace (Tt * (V2 - 2 * bpow (-53)))%R
        with (Tt * V2 - Tt * (2 * bpow (-53)))%R by ring. lra.
    - apply Rle_trans with (Tt * (V2 + 2 * bpow (-53)))%R;
        [apply Rmult_le_compat_l; lra |].
      replace (Tt * (V2 + 2 * bpow (-53)))%R
        with (Tt * V2 + Tt * (2 * bpow (-53)))%R by ring. lra. }
  assert (Hvy0 : (0 <= val t * val p2)%R) by (apply Rmult_le_pos; lra).
  destruct (mul_upper t p2 Htnn Hp2nn) as [Hynn Hyv]; [lra |].
  pose proof (mul_lower t p2 Htnn Hp2nn ltac:(lra)) as Hylow.
  pose proof (half_ulp_small (val t * val p2) ltac:(lra)) as Hhy.
  set (y := mul t p2) in *. pose proof (val_nonneg y Hynn) as Hy0.
  (* t / 2 - t * rand_pct_2_mult *)
  destruct (sub_upper h y Hhnn Hynn) as [Hbnn Hbv]; [lra | lra |].
  pose proof (sub_lower h y Hhnn Hynn ltac:(lra) ltac:(lra)) as Hblow.
  pose proof (half_ulp_small (val h - val y) ltac:(lra)) as Hhb.
  set (bb := sub h y) in *. pose proof (val_nonneg bb Hbnn) as Hb0.
  (* the sum *)
  destruct (add_upper r1 bb Hr1nn Hbnn) as [Hresnn Hresv]; [lra |].
  pose proof (add_lower_half r1 bb Hr1nn Hbnn ltac:(lra)) as Hreslow.
  pose proof (half_ulp_small (val r1 + val bb) ltac:(lra)) as Hhres.
  assert (HwinL : (Tt * IZR (100 - P) / 200 = Tt / 2 - X2)%R).
  { unfold X2, V2. rewrite minus_IZR. field. }
  assert (HwinU : (Tt * IZR (100 + P) / 200 = Tt / 2 + X2)%R).
  { unfold X2, V2. rewrite plus_IZR. field. }
  rewrite HwinL, HwinU.
  assert (HE1 : (Tt * IZR P / 100 = 2 * X2)%R) by (unfold X2, V2; field).
  assert (HE2 : (Tt * IZR P / 200 = X2)%R) by (unfold X2, V2; field).
  rewrite HE1, HE2.
  split; [exact Hresnn |].
  rewrite plus_IZR. fold Tt. split; [lra | split; split; lra].
Qed.

(** The conversion of a double that is not negative and below 2^32. *)
Lemma cast_uint32_floor {G : Type} (x : double) (g : G) :
  nonneg x -> (val x < IZR (2 ^ 32))%R ->
  exists k : Z,
    cast_uint32 x g = Some (k, g) /\ 0 <= k < 2 ^ 32
    /\ (IZR k <= val x < IZR k + 1)%R.
Proof.
  intros Hx Hv.
  destruct (integral_part_nonneg x Hx) as (k & Hint & _ & Hk & Hle & Hgt).
  assert (Hlt : (IZR k < IZR (2 ^ 32))%R) by lra.
  apply lt_IZR in Hlt.
  exists k. unfold cast_uint32, to_uint32. rewrite Hint.
  destruct (Z.leb_spec 0 k); [| lia].
  destruct (Z.ltb_spec k (2 ^ 32)); [| lia].
  repeat split; (assumption || lia).
Qed.

Lemma sb_rand_special_hot_range {G : Type} `{BitGenerator G} `{Libm}
  (o : options) (ty : rand_dist_t) (f : rand_func_t) (a b : Z) (g : G) :
  let st := configure o ty f in
  let P := wrap32 (opt_rand_spec_pct o) in
  let rnd := fst (sb_rand_uniform_double g) in
  0 <= P <= 99 ->
  0 <= a <= b -> b < 2 ^ 32 ->
  in_unit_interval rnd = true ->
  ltb (mul rnd (mul (of_int (wrap32 (b - a))) (rand_res_mult st)))
      (of_int (wrap32 (b - a))) = false ->
  exists v : Z,
    sb_rand_special st a b g = Some (v, snd (sb_rand_uniform_double g))
    /\ a <= v <= b
    /\ (b - a) * (100 - P) <= 200 * (v - a + 1)
    /\ 200 * (v - a) <= (b - a) * (100 + P) + 200.
Proof.
  intros st P rnd HP Hab Hb Hrnd Hhot. subst st rnd.
  destruct (sb_rand_uniform_double g) as [rnd g1] eqn:Hdraw. cbn [fst snd] in *.
  destruct (special_offset_bound o ty f a b rnd HP Hab Hb Hrnd)
    as (Hnn & Hlt & (Hlow & Hup) & _).
  fold P in Hlow, Hup.
  assert (H32 : (IZR (b - a + 1) <= IZR (2 ^ 32))%R) by (apply IZR_le; lia).
  destruct (cast_uint32_floor (special_offset (configure o ty f) a b rnd) g1 Hnn)
    as (k & Hk & Hk32 & Hkle & Hkgt); [lra |].
  assert (Hkb : k < b - a + 1) by (apply lt_IZR; lra).
  exists (a + k). split; [| split; [lia | split]].
  - unfold sb_rand_special.
    rewrite (bind_draw _ _ _ _ Hdraw). cbv zeta. rewrite Hhot.
    fold (special_offset (configure o ty f) a b rnd).
    erewrite bind_Some; [| exact Hk].
    unfold ret. now rewrite wrap32_small by lia.
  - replace (a + k - a + 1) with (k + 1) by lia.
    assert (Hr : (IZR ((b - a) * (100 - P)) < IZR (200 * (k + 1) + 1))%R).
    { rewrite plus_IZR, !mult_IZR, plus_IZR. lra. }
    apply lt_IZR in Hr. lia.
  - replace (a + k - a) with k by lia.
    assert (Hr : (IZR (200 * k) < IZR ((b - a) * (100 + P) + 200 + 1))%R).
    { rewrite !plus_IZR, !mult_IZR. lra. }
    apply lt_IZR in Hr. lia.
Qed.

(** ** The second branch of the special distribution and the formula *)

Lemma sb_rand_special_hot_exact {G : Type} `{BitGenerator G}
  (st : statics) (a b P : Z) (g : G) :
  let rnd := fst (sb_rand_uniform_double g) in
  let exact := spec_special_offset a b P (val rnd) in
  0 <= P <= 99 ->
  rand_pct_mult st = div (of_int P) (of_int 100) ->
  rand_pct_2_mult st = div (of_int P) (of_int 200) ->
  0 <= a <= b -> b < 2 ^ 32 ->
  in_unit_interval rnd = true ->
  ltb (mul rnd (mul (of_int (wrap32 (b - a))) (rand_res_mult st)))
      (of_int (wrap32 (b - a))) = false ->
  exists k : Z,
    floor (special_offset st a b rnd) = Some k
    /\ sb_rand_special st a b g = Some (a + k, snd (sb_rand_uniform_double g))
    /\ Int_part (exact - / 65536) <= k <= Int_part (exact + / 65536)
    /\ Int_part exact - 1 <= k <= Int_part exact + 1.
Proof.
  intros rnd exact HP Hpm Hp2 Hab Hb Hrnd Hhot. subst rnd exact.
  destruct (sb_rand_uniform_double g) as [rnd g1] eqn:Hdraw. cbn [fst snd] in *.
  assert (HPw : wrap32 (opt_rand_spec_pct (options_with 12 P 75)) = P)
    by (cbn [opt_rand_spec_pct options_with]; apply wrap32_small; lia).
  destruct (special_offset_bound (H := tabulated_libm) (options_with 12 P 75)
              DIST_TYPE_SPECIAL Ptr_sb_rand_special a b rnd
              ltac:(rewrite HPw; exact HP) Hab Hb Hrnd)
    as (Hnn & Hlt & _ & Hclose).
  rewrite HPw in Hclose.
  assert (Hsame : special_offset
                    (configure (H := tabulated_libm) (options_with 12 P 75)
                       DIST_TYPE_SPECIAL Ptr_sb_rand_special) a b rnd
                  = special_offset st a b rnd).
  { unfold special_offset. cbn [rand_pct_mult rand_pct_2_mult configure].
    rewrite HPw, Hpm, Hp2. reflexivity. }
  rewrite Hsame in Hnn, Hlt, Hclose.
  set (x := special_offset st a b rnd) in *.
  set (E := spec_special_offset a b P (val rnd)) in *.
  destruct (integral_part_nonneg x Hnn) as (k & _ & Hfloor & Hk0 & Hkle & Hkgt).
  assert (Hkb : k < b - a + 1) by (apply lt_IZR; lra).
  exists k. split; [exact Hfloor |]. split.
  - rewrite (sb_rand_special_hot_value st a b g g1 rnd k
               Hdraw Hhot Hfloor ltac:(lia)).
    now rewrite wrap32_small by lia.
  - destruct (base_Int_part (E - / 65536)) as [Hlo1 Hlo2].
    destruct (base_Int_part (E + / 65536)) as [Hhi1 Hhi2].
    destruct (base_Int_part E) as [Hmid1 Hmid2].
    assert (Ha : (IZR (Int_part (E - / 65536)) < IZR (k + 1))%R)
      by (rewrite plus_IZR; lra).
    assert (Hb' : (IZR k < IZR (Int_part (E + / 65536) + 1))%R)
      by (rewrite plus_IZR; lra).
    assert (Hc : (IZR (Int_part E - 2) < IZR k)%R)
      by (rewrite minus_IZR; lra).
    assert (Hd : (IZR k < IZR (Int_part E + 2))%R)
      by (rewrite plus_IZR; lra).
    apply lt_IZR in Ha, Hb', Hc, Hd. lia.
Qed.

(** C6.  When [sb_rand_special] takes its second branch it consumes no
    further draw and returns [a + k] in 32-bit arithmetic, where [k] is the
    floor of the branch's expression as the source computes it in doubles on
    the branch draw [rnd], whenever that floor is a [uint32_t] value.  When
    the two constants are those of a percentage [P] of at most 99, the range
    is [a <= b] and the draw is of [0, 1), that floor exists, the sum does not
    wrap, and [k] lies between the floors of [E - 2^-16] and [E + 2^-16] for
    the exact value [E] of the specification's formula at [rnd]: it is the
    floor of [E] or one of its two neighbours. *)
Theorem sb_rand_special_hot_branch {G : Type} `{BitGenerator G}
  (st : statics) (a b : Z) (g : G) :
  let rnd := fst (sb_rand_uniform_double g) in
  let g1 := snd (sb_rand_uniform_double g) in
  ltb (mul rnd (mul (of_int (wrap32 (b - a))) (rand_res_mult st)))
      (of_int (wrap32 (b - a))) = false ->
  (forall k : Z,
      floor (special_offset st a b rnd) = Some k ->
      0 <= k < 2 ^ 32 ->
      sb_rand_special st a b g = Some (wrap32 (a + k), g1))
  /\ (forall P : Z,
        0 <= P <= 99 ->
        rand_pct_mult st = div (of_int P) (of_int 100) ->
        rand_pct_2_mult st = div (of_int P) (of_int 200) ->
        0 <= a <= b -> b < 2 ^ 32 ->
        in_unit_interval rnd = true ->
        let exact := spec_special_offset a b P (val rnd) in
        exists k : Z,
          floor (special_offset st a b rnd) = Some k
          /\ sb_rand_special st a b g = Some (a + k, g1)
          /\ Int_part (exact - / 65536) <= k <= Int_part (exact + / 65536)
          /\ Int_part exact - 1 <= k <= Int_part exact + 1).
Proof.
  intros rnd g1 Hhot. split.
  - intros k Hfloor Hk.
    apply (sb_rand_special_hot_value st a b g g1 rnd k); try assumption.
    subst rnd g1. now destruct (sb_rand_uniform_double g).
  - intros P HP Hpm Hp2 Hab Hb Hrnd.
    exact (sb_rand_special_hot_exact st a b P g HP Hpm Hp2 Hab Hb Hrnd Hhot).
Qed.

Lemma sb_rand_special_hot_branch_witness :
  sb_rand_special statics_default 0 9 [of_dyadic 1 (-1)]
  = Some (wrap32 (0 + 5), [])
  /\ exists k : Z,
      floor (special_offset statics_default 0 9 (of_dyadic 1 (-1))) = Some k
      /\ sb_rand_special statics_default 0 9 [of_dyadic 1 (-1)] = Some (0 + k, [])
      /\ Int_part (spec_special_offset 0 9 1 (val (of_dyadic 1 (-1))) - / 65536)
         <= k
         <= Int_part (spec_special_offset 0 9 1 (val (of_dyadic 1 (-1))) + / 65536)
      /\ Int_part (spec_special_offset 0 9 1 (val (of_dyadic 1 (-1)))) - 1
         <= k
         <= Int_part (spec_special_offset 0 9 1 (val (of_dyadic 1 (-1)))) + 1.
Proof.
  pose proof (sb_rand_special_hot_branch statics_default 0 9
                [of_dyadic 1 (-1)]) as W.
  cbv zeta in W.
  change (sb_rand_uniform_double [of_dyadic 1 (-1)])
    with (of_dyadic 1 (-1), @nil double) in W.
  cbn [fst snd] in W.
  destruct W as [W1 W2]; [vm_compute; reflexivity |].
  split.
  - apply (W1 5); [vm_compute; reflexivity | lia].
  - apply (W2 1); [lia | reflexivity | reflexivity | lia | lia
                   | vm_compute; reflexivity].
Defined.

(** The source's doubles are not the formula.  With the default options, both
    calls below take the second branch.  On the range [[0, 9]] and the draw
    1/2 - 2^-52 the exact value of the formula is 5 - 1.09 * 2^-52, of floor 4,
    and [sb_rand_special] returns 5.  On the range [[0, 1]] and the draw 1/2
    the formula evaluated on doubles in the order it is written gives
    1 - 2^-53, of floor 0, and [sb_rand_special], which subtracts before it
    adds, returns 1. *)
Lemma sb_rand_special_hot_differs_from_formula :
  (ltb (mul below_half
          (mul (of_int (wrap32 (9 - 0))) (rand_res_mult statics_default)))
       (of_int (wrap32 (9 - 0))) = false
   /\ sb_rand_special statics_default 0 9 [below_half] = Some (5, [])
   /\ Int_part (spec_special_offset 0 9 1 (val below_half)) = 4)
  /\ (ltb (mul (of_dyadic 1 (-1))
             (mul (of_int (wrap32 (1 - 0))) (rand_res_mult statics_default)))
          (of_int (wrap32 (1 - 0))) = false
      /\ sb_rand_special statics_default 0 1 [of_dyadic 1 (-1)] = Some (1, [])
      /\ floor (spec_special_offset_double 0 1 1 (of_dyadic 1 (-1))) = Some 0).
Proof.
  split; [| vm_compute; repeat split].
  split; [vm_compute; reflexivity |]. split; [vm_compute; reflexivity |].
  symmetry. apply Int_part_spec.
  assert (Hb : below_half = S754_finite false 9007199254740988 (-54))
    by (vm_compute; reflexivity).
  rewrite Hb. unfold spec_special_offset, val, F2R. cbn [cond_Zopp].
  change (9 - 0) with 9.
  pose proof (bpow_opp 54) as H54. rewrite (bpow_IZR 54) in H54 by lia.
  change (2 ^ 54) with 18014398509481984 in H54.
  change (- (54)) with (-54) in H54.
  pose proof (bpow_pos (-54)) as Hpos.
  lra.
Qed.

(** ** The ranges of the gaussian and special distributions *)

Lemma sb_rand_gaussian_in_range_witness :
  exists v : Z,
    sb_rand_gaussian
      (configure (options_with 12 1 75) DIST_TYPE_GAUSSIAN Ptr_sb_rand_gaussian)
      0 9 twelve_draws
    = Some (v, snd (draws (Z.to_nat 12) twelve_draws))
    /\ 0 <= v <= 9 + 1.
Proof.
  refine (sb_rand_gaussian_in_range (options_with 12 1 75) DIST_TYPE_GAUSSIAN
            Ptr_sb_rand_gaussian 0 9 twelve_draws _ _ _ _).
  - change (wrap32 (opt_rand_spec_iter (options_with 12 1 75))) with 12. lia.
  - lia.
  - lia.
  - change (fst (draws (Z.to_nat (wrap32 (opt_rand_spec_iter (options_with 12 1 75))))
                   twelve_draws))
      with twelve_draws.
    repeat constructor.
Defined.

(** The bound [b + 1] is reached: with five iterations, the range [[0, 4]]
    and five draws of 1 - 2^-52, each product rounds to 5 - 2^-50, their sum
    to 25 - 2^-48, and the product of that sum and the double nearest to 1/5
    rounds to 5. *)
Lemma sb_rand_gaussian_overshoot :
  sb_rand_gaussian
    (configure (options_with 5 1 75) DIST_TYPE_GAUSSIAN Ptr_sb_rand_gaussian)
    0 4 (repeat u_max 5)
  = Some (5, []).
Proof. vm_compute. reflexivity. Qed.

(** X13.  The first branch of [sb_rand_special] stays in the range.  With
    [rand-spec-iter] from 1 to 100000 and a range [a <= b], when the branch
    test [res < t] succeeds and the [rand_iter] draws that follow are doubles
    of [0, 1), the function returns a value of [[a, b]]. *)
Theorem sb_rand_special_cold_in_range {G : Type} `{BitGenerator G} `{Libm}
  (o : options) (ty : rand_dist_t) (f : rand_func_t) (a b : Z) (g : G) :
  let N := wrap32 (opt_rand_spec_iter o) in
  let st := configure o ty f in
  let rnd := fst (sb_rand_uniform_double g) in
  let g1 := snd (sb_rand_uniform_double g) in
  1 <= N <= 100000 ->
  0 <= a <= b -> b < 2 ^ 32 ->
  ltb (mul rnd (mul (of_int (wrap32 (b - a))) (rand_res_mult st)))
      (of_int (wrap32 (b - a))) = true ->
  Forall (fun u => in_unit_interval u = true) (fst (draws (Z.to_nat N) g1)) ->
  exists v : Z,
    sb_rand_special st a b g = Some (v, snd (draws (Z.to_nat N) g1))
    /\ a <= v <= b.
Proof. exact (sb_rand_special_cold_range o ty f a b g). Qed.

Lemma sb_rand_special_cold_in_range_witness :
  exists v : Z,
    sb_rand_special statics_default 0 9 (of_dyadic 1 (-3) :: twelve_draws)
    = Some (v, snd (draws (Z.to_nat 12) twelve_draws))
    /\ 0 <= v <= 9.
Proof.
  refine (sb_rand_special_cold_in_range options_default DIST_TYPE_SPECIAL
            Ptr_sb_rand_special 0 9 (of_dyadic 1 (-3) :: twelve_draws) _ _ _ _ _).
  - change (wrap32 (opt_rand_spec_iter options_default)) with 12. lia.
  - lia.
  - lia.
  - vm_compute. reflexivity.
  - change (fst (draws (Z.to_nat (wrap32 (opt_rand_spec_iter options_default)))
                   (snd (sb_rand_uniform_double (of_dyadic 1 (-3) :: twelve_draws)))))
      with twelve_draws.
    repeat constructor.
Defined.

(** X14.  The second branch of [sb_rand_special] stays in the range, and in
    its centre.  With [rand-spec-pct] [P] from 0 to 99 and a range [a <= b]
    of width [t = b - a], when the branch draw is a double of [0, 1) and the
    branch test [res < t] fails, the function consumes no other draw and
    returns a value [v] of [[a, b]] with
    [t * (100 - P) / 200 - 1 <= v - a <= t * (100 + P) / 200 + 1]. *)
Theorem sb_rand_special_hot_in_range {G : Type} `{BitGenerator G} `{Libm}
  (o : options) (ty : rand_dist_t) (f : rand_func_t) (a b : Z) (g : G) :
  let st := configure o ty f in
  let P := wrap32 (opt_rand_spec_pct o) in
  let rnd := fst (sb_rand_uniform_double g) in
  0 <= P <= 99 ->
  0 <= a <= b -> b < 2 ^ 32 ->
  in_unit_interval rnd = true ->
  ltb (mul rnd (mul (of_int (wrap32 (b - a))) (rand_res_mult st)))
      (of_int (wrap32 (b - a))) = false ->
  exists v : Z,
    sb_rand_special st a b g = Some (v, snd (sb_rand_uniform_double g))
    /\ a <= v <= b
    /\ (b - a) * (100 - P) <= 200 * (v - a + 1)
    /\ 200 * (v - a) <= (b - a) * (100 + P) + 200.
Proof. exact (sb_rand_special_hot_range o ty f a b g). Qed.

Lemma sb_rand_special_hot_in_range_witness :
  exists v : Z,
    sb_rand_special statics_default 0 9 [of_dyadic 1 (-1)]
    = Some (v, snd (sb_rand_uniform_double [of_dyadic 1 (-1)]))
    /\ 0 <= v <= 9
    /\ (9 - 0) * (100 - 1) <= 200 * (v - 0 + 1)
    /\ 200 * (v - 0) <= (9 - 0) * (100 + 1) + 200.
Proof.
  refine (sb_rand_special_hot_in_range options_default DIST_TYPE_SPECIAL
            Ptr_sb_rand_special 0 9 [of_dyadic 1 (-1)] _ _ _ _ _).
  - change (wrap32 (opt_rand_spec_pct options_default)) with 1. lia.
  - lia.
  - lia.
  - vm_compute. reflexivity.
  - vm_compute. reflexivity.
Defined.

(** X15.  [sb_rand_special] does not overshoot.  With [rand-spec-iter] from
    1 to 100000, [rand-spec-pct] from 0 to 99, any [rand-spec-res], a range
    [a <= b] and draws of [0, 1), the function returns a value of [[a, b]],
    having consumed either one draw or [1 + rand_iter] draws. *)
Theorem sb_rand_special_in_range {G : Type} `{BitGenerator G} `{Libm}
  (o : options) (ty : rand_dist_t) (f : rand_func_t) (a b : Z) (g : G) :
  let st := configure o ty f in
  let N := wrap32 (opt_rand_spec_iter o) in
  let P := wrap32 (opt_rand_spec_pct o) in
  1 <= N <= 100000 -> 0 <= P <= 99 ->
  0 <= a <= b -> b < 2 ^ 32 ->
  Forall (fun u => in_unit_interval u = true) (fst (draws (S (Z.to_nat N)) g)) ->
  exists (v : Z) (g' : G),
    sb_rand_special st a b g = Some (v, g')
    /\ a <= v <= b
    /\ (g' = snd (draws 1 g) \/ g' = snd (draws (S (Z.to_nat N)) g)).
Proof.
  intros st N P HN HP Hab Hb Hus.
  rewrite !draws_S in *. cbn [fst snd draws] in *.
  apply Forall_cons_iff in Hus as [Hu Hrest].
  destruct (ltb (mul (fst (sb_rand_uniform_double g))
                     (mul (of_int (wrap32 (b - a))) (rand_res_mult st)))
                (of_int (wrap32 (b - a)))) eqn:Htest.
  - destruct (sb_rand_special_cold_range o ty f a b g HN Hab Hb Htest Hrest)
      as (v & Hv & Hrange).
    exists v, (snd (draws (Z.to_nat N) (snd (sb_rand_uniform_double g)))). auto.
  - destruct (sb_rand_special_hot_range o ty f a b g HP Hab Hb Hu Htest)
      as (v & Hv & Hrange & _).
    exists v, (snd (sb_rand_uniform_double g)). auto.
Qed.

Lemma sb_rand_special_in_range_witness :
  exists (v : Z) (g' : list double),
    sb_rand_special statics_default 0 9 (of_dyadic 1 (-3) :: twelve_draws)
    = Some (v, g')
    /\ 0 <= v <= 9
    /\ (g' = snd (draws 1 (of_dyadic 1 (-3) :: twelve_draws))
        \/ g' = snd (draws (S (Z.to_nat 12)) (of_dyadic 1 (-3) :: twelve_draws))).
Proof.
  refine (sb_rand_special_in_range options_default DIST_TYPE_SPECIAL
            Ptr_sb_rand_special 0 9 (of_dyadic 1 (-3) :: twelve_draws) _ _ _ _ _).
  - change (wrap32 (opt_rand_spec_iter options_default)) with 12. lia.
  - change (wrap32 (opt_rand_spec_pct options_default)) with 1. lia.
  - lia.
  - lia.
  - change (fst (draws (S (Z.to_nat (wrap32 (opt_rand_spec_iter options_default))))
                   (of_dyadic 1 (-3) :: twelve_draws)))
      with (of_dyadic 1 (-3) :: twelve_draws).
    repeat constructor.
Defined.
(** ** Unique ids and initialisation *)

(** X16.  [sb_rand_init] restarts the sequence of unique ids.  After a
    successful initialisation, whatever the state of the process before it,
    call number [i] (from 0) of [sb_rand_uniq] on a range [[a, b]] returns
    [a + ((i + 1) * 2147483647) mod (b - a + 1)], for the first 2^33 - 1
    calls: the ids handed out before the initialisation are handed out
    again. *)
Theorem sb_rand_uniq_after_init {L : Type} `{Libc L} `{Libm}
  (o : options) (tid : nat) (w : world L) (ty : rand_dist_t) (f : rand_func_t)
  (rs : list (Z * Z)) :
  select_rand_type (opt_rand_type o) = Some (ty, f) ->
  Forall valid_range rs ->
  Z.of_nat (length rs) < 2 ^ 33 ->
  exists st' : statics,
    sb_rand_uniq_calls rs (w_statics (snd (sb_rand_init o tid w)))
    = Some (imap (fun i r =>
                    fst r + ((Z.of_nat i + 1) * 2147483647) mod (snd r - fst r + 1))
                 rs,
            st').
Proof.
  intros Hsel Hrs Hlen.
  destruct (sb_rand_init_bound o tid w ty f Hsel) as [_ ->].
  eexists. rewrite sb_rand_uniq_calls_values;
    [| exact Hrs | cbn [rnd_seed configure]; unfold LARGE_PRIME; lia].
  f_equal. f_equal. apply imap_ext. intros i r Hi.
  apply lookup_lt_Some in Hi.
  cbn [rnd_seed configure]. unfold LARGE_PRIME.
  rewrite (Z.mod_small _ (2 ^ 64)) by lia.
  do 2 f_equal. lia.
Qed.

Lemma sb_rand_uniq_after_init_witness :
  exists st' : statics,
    sb_rand_uniq_calls [(5, 9); (0, 99)]
      (w_statics (snd (sb_rand_init options_default 0 (world_start (L := list Z) []))))
    = Some (imap (fun i r =>
                    fst r + ((Z.of_nat i + 1) * 2147483647) mod (snd r - fst r + 1))
                 [(5, 9); (0, 99)],
            st').
Proof.
  apply (sb_rand_uniq_after_init options_default 0 (world_start []) DIST_TYPE_SPECIAL
           Ptr_sb_rand_special [(5, 9); (0, 99)]).
  - reflexivity.
  - repeat constructor; cbn; lia.
  - cbn. lia.
Defined.
